(** * onmt/Models.py: encoder, fertility-bounded attention decoder, decoder states

    A shallow embedding of [Embeddings], [Encoder], [Decoder], [NMTModel] and
    the [DecoderState] family.  Tensor entries are kept abstract (any type
    with the arithmetic the code uses), tensors are a shape with entries read
    by multi-index, Python exceptions are an error type, and the calls into
    [torch.nn] / [onmt.modules] sub-modules are parameters whose invocations
    are recorded in a trace. *)

From stdpp Require Import base option list gmap strings.
From Stdlib Require Import ZArith Lia.

(** ** Scalars *)

(** The arithmetic of tensor entries, as far as the code uses it. *)
Class Scalar (R : Type) := {
  sadd : R → R → R;
  ssub : R → R → R;
  szero : R;
  s100 : R;                (* the literal [100.] *)
  s_nonzero : R → bool;    (* Python truth value of a number *)
}.

(** Exact integer arithmetic, used to run the model on concrete inputs. *)
#[export] Instance Z_scalar : Scalar Z := {|
  sadd := Z.add; ssub := Z.sub; szero := 0%Z; s100 := 100%Z;
  s_nonzero := fun x => negb (x =? 0)%Z |}.

(** ** Exceptions *)

Inductive Error :=
  | AssertionError | ValueError | AttributeError | IndexError | KeyError
  | ZeroDivisionError | RuntimeError.

Inductive Res (A : Type) :=
  | Ok (a : A)
  | Raise (e : Error).
Arguments Ok {A} a.
Arguments Raise {A} e.

#[export] Instance Error_eq_dec : EqDecision Error.
Proof. solve_decision. Defined.

Definition res_bind {A B} (r : Res A) (k : A → Res B) : Res B :=
  match r with Ok a => k a | Raise e => Raise e end.

Definition is_ok {A} (r : Res A) : bool :=
  match r with Ok _ => true | Raise _ => false end.

(** ** Tensors *)

(** A tensor is its [size()] and its entries, read by multi-index.  Entries
    outside the shape are never observed. *)
Record Tensor (A : Type) := mkTensor {
  shape : list nat;
  entry : list nat → A;
}.
Arguments mkTensor {A} shape entry.
Arguments shape {A} t.
Arguments entry {A} t idx.

Definition numel {A} (t : Tensor A) : nat := foldr Nat.mul 1 (shape t).

(** [idx] addresses an entry of a tensor of shape [s]. *)
Definition in_range (s idx : list nat) : Prop := Forall2 lt idx s.

(** All multi-indices of a shape, in row-major order. *)
Fixpoint all_indices (s : list nat) : list (list nat) :=
  match s with
  | [] => [[]]
  | n :: s' => i ← seq 0 n; (cons i) <$> all_indices s'
  end.

(** [t.view(-1).tolist()] *)
Definition tolist {A} (t : Tensor A) : list A := entry t <$> all_indices (shape t).

(** [a, b = t.size()] and [a, b, c = t.size()]: unpacking a size of the wrong
    length raises [ValueError]. *)
Definition unpack2 (s : list nat) : Res (nat * nat) :=
  match s with [a; b] => Ok (a, b) | _ => Raise ValueError end.

Definition unpack3 (s : list nat) : Res (nat * nat * nat) :=
  match s with [a; b; c] => Ok (a, b, c) | _ => Raise ValueError end.

(** [t.size(d)] *)
Definition size_at {A} (t : Tensor A) (d : nat) : Res nat :=
  match shape t !! d with Some n => Ok n | None => Raise IndexError end.

(** [torch.Tensor([v]).repeat(b, s)] and [v * torch.ones(...)]: a constant tensor. *)
Definition full {A} (s : list nat) (v : A) : Tensor A := mkTensor s (fun _ => v).

(** [t.unsqueeze(d)] *)
Definition unsqueeze {A} (d : nat) (t : Tensor A) : Tensor A :=
  mkTensor (take d (shape t) ++ 1 :: drop d (shape t))
           (fun idx => entry t (take d idx ++ drop (S d) idx)).

(** [t.squeeze(0)]: drops the first dimension only when it has size 1. *)
Definition squeeze0 {A} (t : Tensor A) : Tensor A :=
  match shape t with
  | 1 :: s => mkTensor s (fun idx => entry t (0 :: idx))
  | _ => t
  end.

(** [t.split(1)]: one chunk of first dimension 1 per index of dimension 0;
    a tensor whose first dimension is 0 is not split into no chunk at all but
    into one, the empty tensor itself. *)
Definition split1 {A} (t : Tensor A) : list (Tensor A) :=
  match shape t with
  | [] => []
  | 0 :: _ => [t]
  | n :: s => (fun i => mkTensor (1 :: s) (fun idx => entry t (i :: tail idx))) <$> seq 0 n
  end.

(** [t.transpose(0, 1)] *)
Definition transpose01 {A} (t : Tensor A) : Res (Tensor A) :=
  match shape t with
  | a :: b :: s =>
      Ok (mkTensor (b :: a :: s)
            (fun idx => match idx with
                        | i :: j :: r => entry t (j :: i :: r)
                        | _ => entry t idx
                        end))
  | _ => Raise IndexError
  end.

(** [t[:, :, 0]]: index 0 of the third dimension. *)
Definition select_feat0 {A} (t : Tensor A) : Res (Tensor A) :=
  match shape t with
  | a :: b :: S _ :: rest =>
      Ok (mkTensor (a :: b :: rest) (fun idx => entry t (take 2 idx ++ 0 :: drop 2 idx)))
  | _ => Raise IndexError
  end.

(** [t[:-1]]: all but the last slice along dimension 0. *)
Definition drop_last {A} (t : Tensor A) : Res (Tensor A) :=
  match shape t with
  | n :: s => Ok (mkTensor ((n - 1) :: s) (entry t))
  | [] => Raise IndexError
  end.

(** [t[start:t.size(0):2]]: every second slice along dimension 0. *)
Definition stride2 {A} (start : nat) (t : Tensor A) : Res (Tensor A) :=
  match shape t with
  | n :: s =>
      Ok (mkTensor (Nat.div2 (n - start + 1) :: s)
            (fun idx => match idx with
                        | i :: r => entry t ((start + 2 * i) :: r)
                        | [] => entry t idx
                        end))
  | [] => Raise IndexError
  end.

Definition list_eqb (s1 s2 : list nat) : bool := bool_decide (s1 = s2).

(** [torch.cat([a, b], d)]: the shapes must agree outside dimension [d]. *)
Definition cat {A} (d : nat) (a b : Tensor A) : Res (Tensor A) :=
  match shape a !! d, shape b !! d with
  | Some wa, Some wb =>
      if list_eqb (take d (shape a)) (take d (shape b))
         && list_eqb (drop (S d) (shape a)) (drop (S d) (shape b))
      then Ok (mkTensor (take d (shape a) ++ (wa + wb) :: drop (S d) (shape a))
                 (fun idx => match idx !! d with
                             | Some k => if k <? wa then entry a idx
                                         else entry b (<[d := k - wa]> idx)
                             | None => entry a idx
                             end))
      else Raise RuntimeError
  | _, _ => Raise RuntimeError
  end.

(** [torch.stack(l)]: a new leading dimension; the list must be non-empty and
    its tensors of one shape. *)
Definition stack {A} (l : list (Tensor A)) : Res (Tensor A) :=
  match l with
  | [] => Raise RuntimeError
  | t :: _ =>
      if forallb (fun u => list_eqb (shape u) (shape t)) l
      then Ok (mkTensor (length l :: shape t)
                 (fun idx => match idx with
                             | i :: r => entry (nth i l t) r
                             | [] => entry t []
                             end))
      else Raise RuntimeError
  end.

(** *** Broadcasting *)

Definition pad_shape (n : nat) (s : list nat) : list nat :=
  replicate (n - length s) 1 ++ s.

(** A tensor of shape [s] can be expanded to [target]: aligned from the
    right, each dimension is equal or 1. *)
Definition expandable (s target : list nat) : bool :=
  (length s <=? length target)
  && forallb (fun p => (p.1 =? p.2) || (p.1 =? 1)) (zip (pad_shape (length target) s) target).

(** The index read in a tensor of shape [s] for index [idx] of its expansion. *)
Definition bidx (s idx : list nat) : list nat :=
  zip_with (fun d i => if d =? 1 then 0 else i) s (drop (length idx - length s) idx).

Definition expand {A} (t : Tensor A) (target : list nat) : Res (Tensor A) :=
  if expandable (shape t) target
  then Ok (mkTensor target (fun idx => entry t (bidx (shape t) idx)))
  else Raise RuntimeError.

(** The common shape two operands are broadcast to. *)
Fixpoint bshape_aligned (s1 s2 : list nat) : option (list nat) :=
  match s1, s2 with
  | [], [] => Some []
  | a :: s1', b :: s2' =>
      r ← bshape_aligned s1' s2';
      if a =? b then Some (a :: r)
      else if a =? 1 then Some (b :: r)
      else if b =? 1 then Some (a :: r)
      else None
  | _, _ => None
  end.

Definition bshape (s1 s2 : list nat) : option (list nat) :=
  let n := length s1 `max` length s2 in
  bshape_aligned (pad_shape n s1) (pad_shape n s2).

(** *** Arithmetic *)

Section TensorArith.
Context {R : Type} `{Scalar R}.

(** [a -= b]: in place, so the result keeps the shape of [a] and [b] is
    broadcast to it. *)
Definition isub_ (a b : Tensor R) : Res (Tensor R) :=
  res_bind (expand b (shape a)) (fun b' =>
  Ok (mkTensor (shape a) (fun idx => ssub (entry a idx) (entry b' idx)))).

(** [a + b] *)
Definition tadd (a b : Tensor R) : Res (Tensor R) :=
  match bshape (shape a) (shape b) with
  | Some s =>
      res_bind (expand a s) (fun a' =>
      res_bind (expand b s) (fun b' =>
      Ok (mkTensor s (fun idx => sadd (entry a' idx) (entry b' idx)))))
  | None => Raise RuntimeError
  end.

(** [t[:, -1] = v * torch.ones(t.size(0))]: the last column (index -1 of
    dimension 1) of every row is overwritten. *)
Definition set_last_column (t : Tensor R) (v : R) : Res (Tensor R) :=
  match shape t with
  | b :: S c :: rest =>
      if expandable [b] (b :: rest)
      then Ok (mkTensor (shape t)
                 (fun idx => match idx with
                             | _ :: j :: _ => if j =? c then v else entry t idx
                             | _ => entry t idx
                             end))
      else Raise RuntimeError
  | _ => Raise IndexError
  end.

(** [bool(t)]: false for an empty tensor, the truth value of the entry for a
    one-entry tensor, ambiguous (an exception) for more than one entry. *)
Definition tensor_bool (t : Tensor R) : Res bool :=
  match numel t with
  | 0 => Ok false
  | 1 => Ok (s_nonzero (entry t (replicate (length (shape t)) 0)))
  | _ => Raise RuntimeError
  end.
End TensorArith.

(** ** Effects: exceptions, the random state, and calls into sub-modules *)

(** What [pack] hands to a recurrent network and what comes back: a padded
    tensor, or a [PackedSequence] with the valid length of every batch entry. *)
Inductive SeqData (R : Type) :=
  | Padded (t : Tensor R)
  | Packed (t : Tensor R) (lengths : list Z).
Arguments Padded {R} t.
Arguments Packed {R} t lengths.

(** A recurrent state as Python has it: one tensor, or a tuple of tensors. *)
Inductive Hidden (T : Type) :=
  | HTensor (h : T)
  | HTuple (hs : list T).
Arguments HTensor {T} h.
Arguments HTuple {T} hs.

(** One entry per call of a [torch.nn] / [onmt.modules] sub-module, with the
    arguments of the call. *)
Inductive Event (R : Type) :=
  | CallWordLut (tokens : Tensor Z)
  | CallDropout (x : Tensor R)
  | CallEncoderRnn (x : SeqData R) (hidden : option (Hidden (Tensor R)))
  | CallDecoderRnn (emb_t : Tensor R) (hidden : list (Tensor R))
  | CallAttn (query context upper_bounds : Tensor R)
  | CallContextGate (emb_t rnn_output attn_output : Tensor R)
  | CallCopyAttn (query context : Tensor R).
Arguments CallWordLut {R} tokens.
Arguments CallDropout {R} x.
Arguments CallEncoderRnn {R} x hidden.
Arguments CallDecoderRnn {R} emb_t hidden.
Arguments CallAttn {R} query context upper_bounds.
Arguments CallContextGate {R} emb_t rnn_output attn_output.
Arguments CallCopyAttn {R} query context.

Section Effects.
Context {R World : Type}.

(** [world] is whatever the sub-modules may depend on besides their
    arguments (the random generator of dropout, training mode);
    [trace] lists the sub-module calls made so far. *)
Record MState := mkMState {
  world : World;
  trace : list (Event R);
}.

Definition M (A : Type) : Type := MState → Res A * MState.

Definition ret {A} (a : A) : M A := fun s => (Ok a, s).

Definition bind {A B} (m : M A) (k : A → M B) : M B :=
  fun s => match m s with
           | (Ok a, s') => k a s'
           | (Raise e, s') => (Raise e, s')
           end.

(** An operation of the tensor library: no sub-module involved. *)
Definition lift {A} (r : Res A) : M A := fun s => (r, s).

(** A sub-module call: it reads and advances the world and is recorded. *)
Definition call {A} (ev : Event R) (f : World → A * World) : M A :=
  fun s => let '(a, w) := f (world s) in
           (Ok a, mkMState w (trace s ++ [ev])).

(** [for x in l: acc = body(acc, x)] *)
Fixpoint foldM {A B} (body : A → B → M A) (acc : A) (l : list B) : M A :=
  match l with
  | [] => ret acc
  | x :: l' => bind (body acc x) (fun acc' => foldM body acc' l')
  end.
End Effects.
Arguments MState : clear implicits.
Arguments M : clear implicits.

Notation "'let!' x ':=' m 'in' k" := (bind m (fun x => k))
  (at level 10, x pattern, m at level 100, k at level 200).

(** Modelled from the spec: [onmt.modules.aeq], imported but not part of this
    file; the spec names it an explicit equality assertion over batch sizes,
    so it fails with an assertion error unless all its arguments are equal. *)
Definition aeq (args : list nat) : Res unit :=
  match args with
  | [] => Ok ()
  | base :: rest =>
      if forallb (Nat.eqb base) rest then Ok () else Raise AssertionError
  end.

(** ** Decoder states *)

(** The state objects, over the kind [T] of thing their attributes hold:
    tensors when a forward pass builds and reads a state, references into a
    store of [Variable] objects for the methods that mutate them in place. *)
Record RNNDecoderState (T : Type) := mkRNNDecoderState {
  hidden : list T;
  input_feed : option T;
  coverage : option T;
  attn_upper_bounds : option T;
  all : list (option T);
}.
Arguments mkRNNDecoderState {T} hidden input_feed coverage attn_upper_bounds all.
Arguments hidden {T} r.
Arguments input_feed {T} r.
Arguments coverage {T} r.
Arguments attn_upper_bounds {T} r.
Arguments all {T} r.

Record TransformerDecoderState (T : Type) := mkTransformerDecoderState {
  previous_input : option T;
  transformer_all : list (option T);
}.
Arguments mkTransformerDecoderState {T} previous_input transformer_all.
Arguments previous_input {T} t.
Arguments transformer_all {T} t.

Inductive DecoderState (T : Type) :=
  | RNNState (st : RNNDecoderState T)
  | TransformerState (st : TransformerDecoderState T).
Arguments RNNState {T} st.
Arguments TransformerState {T} st.

(** [RNNDecoderState.__init__] *)
Definition RNNDecoderState_init {T} (rnnstate : Hidden T) (input_feed coverage
    attn_upper_bounds : option T) : RNNDecoderState T :=
  let hidden := match rnnstate with
                | HTuple hs => hs
                | HTensor h => [h]
                end in
  mkRNNDecoderState hidden input_feed coverage attn_upper_bounds
                    ((Some <$> hidden) ++ [input_feed]).

(** [TransformerDecoderState.__init__] *)
Definition TransformerDecoderState_init {T} (input : option T) : TransformerDecoderState T :=
  mkTransformerDecoderState input [input].

(** [assert isinstance(state, RNNDecoderState)] *)
Definition assert_RNNDecoderState {T} (state : DecoderState T) : Res (RNNDecoderState T) :=
  match state with
  | RNNState st => Ok st
  | TransformerState _ => Raise AssertionError
  end.

(** ** Embeddings *)

(** [nn.Dropout]: an entrywise random mask drawn from the world, which the
    draw advances. *)
Class DropoutRng (R World : Type) := {
  dropout_entry : World → list nat → R → R;
  dropout_next : World → World;
}.

Section Model.
Context {R : Type} `{Scalar R} {World : Type} `{DropoutRng R World}.

#[local] Abbreviation T := (Tensor R).
#[local] Abbreviation Mo := (M R World).

Definition dropout (x : T) : Mo T :=
  call (CallDropout x)
       (fun w => (mkTensor (shape x) (fun idx => dropout_entry w idx (entry x idx)),
                  dropout_next w)).

(** The model options the constructors read. *)
Record Opt := mkOpt {
  opt_position_encoding : bool;
  opt_word_vec_size : nat;
  opt_layers : nat;
  opt_brnn : bool;
  opt_rnn_size : nat;
  opt_rnn_type : string;
  opt_coverage_attn : bool;
  opt_exhaustion_loss : bool;
  opt_input_feed : bool;
  opt_context_gate : option string;
  opt_copy_attn : bool;
  opt_fertility : R;
}.

Record Embeddings := mkEmbeddings {
  positional_encoding : bool;
  pe : T;                         (* [make_positional_encodings(dim, 5000)] *)
  word_vec_size : nat;
  vocab_size : nat;               (* [dicts.size()], the rows of the [nn.Embedding] weight *)
  word_lut : Z → nat → R;         (* row of the [nn.Embedding] weight for a token id *)
}.

(** [Embeddings.__init__]; [dicts_size] is [dicts.size()], [lut] the
    embedding weight and [pe_entry] the sine and cosine values
    [make_positional_encodings] fills the table with. *)
Definition Embeddings_init (opt : Opt) (dicts_size : nat) (lut : Z → nat → R)
    (pe_entry : list nat → R) : Embeddings :=
  mkEmbeddings (opt_position_encoding opt)
               (mkTensor [5000; 1; opt_word_vec_size opt] pe_entry)
               (opt_word_vec_size opt) dicts_size lut.

(** A token id the table has a row for. *)
Definition in_vocab (E : Embeddings) (id : Z) : bool :=
  (0 <=? id)%Z && (id <? Z.of_nat (vocab_size E))%Z.

(** [self.word_lut(idx)]: the table is called, and raises [IndexError] when
    some id is not one of its rows. *)
Definition lookup (E : Embeddings) (idx : Tensor Z) : Mo T :=
  if forallb (in_vocab E) (tolist idx)
  then call (CallWordLut idx)
            (fun w => (mkTensor (shape idx ++ [word_vec_size E])
                         (fun i => word_lut E (entry idx (removelast i)) (List.last i 0)),
                       w))
  else let! _ := call (CallWordLut idx) (fun w => ((), w)) in
       lift (Raise IndexError).

(** [t[:a, :b, :c]] *)
Definition slice_upto (t : T) (bounds : list nat) : T :=
  mkTensor (zip_with Nat.min (shape t) bounds) (entry t).

Definition Embeddings_forward (E : Embeddings) (src_input : Tensor Z) : Mo T :=
  let! idx := lift (select_feat0 src_input) in
  let! word := lookup E idx in
  let emb := word in
  if positional_encoding E then
    let! n0 := lift (size_at emb 0) in
    let! n2 := lift (size_at emb 2) in
    let! p := lift (expand (slice_upto (pe E) [n0; 1; n2]) (shape emb)) in
    let! emb := lift (tadd emb p) in
    dropout emb
  else ret emb.

(** ** Encoder *)

Record Encoder := mkEncoder {
  enc_layers : nat;
  num_directions : nat;
  enc_hidden_size : nat;
  enc_embeddings : Embeddings;
  enc_rnn : World → SeqData R → option (Hidden T) → (SeqData R * Hidden T) * World;
}.

(** A recurrent network of [torch.nn], once built. *)
#[local] Abbreviation Network :=
  (World → SeqData R → option (Hidden T) → (SeqData R * Hidden T) * World).

(** [Encoder.__init__]; [nn_rnn rnn_type input_size hidden_size num_layers
    bidirectional] is [getattr(nn, rnn_type)(input_size, hidden_size,
    num_layers=..., bidirectional=...)], which raises for a name [torch.nn]
    does not have and for sizes the network refuses. *)
Definition Encoder_init (opt : Opt) (emb : Embeddings)
    (nn_rnn : string → nat → nat → nat → bool → Res Network)
    : Res Encoder :=
  let num_directions := if opt_brnn opt then 2 else 1 in
  if opt_rnn_size opt mod num_directions =? 0 then
    let hidden_size := opt_rnn_size opt / num_directions in
    let input_size := opt_word_vec_size opt in
    res_bind (nn_rnn (opt_rnn_type opt) input_size hidden_size (opt_layers opt)
                     (opt_brnn opt)) (fun rnn =>
    Ok (mkEncoder (opt_layers opt) num_directions hidden_size emb rnn))
  else Raise AssertionError.

(** Lengths in decreasing order (equal neighbours allowed). *)
Fixpoint sorted_decreasing (l : list Z) : bool :=
  match l with
  | a :: l' =>
      match l' with
      | b :: _ => (b <=? a)%Z && sorted_decreasing l'
      | [] => true
      end
  | [] => true
  end.

(** [pack(emb, lengths)]: the tensor must not be empty, and the lengths must
    be one per batch entry, positive and in decreasing order. *)
Definition pack (emb : T) (lengths : list Z) : Res (SeqData R) :=
  match shape emb with
  | _ :: batch :: _ =>
      if (0 <? numel emb)
         && (length lengths =? batch)
         && forallb (fun l => (0 <? l)%Z) lengths
         && sorted_decreasing lengths
      then Ok (Packed emb lengths)
      else Raise RuntimeError
  | _ => Raise IndexError
  end.

(** [unpack(outputs)[0]]: as many rows as the longest sequence has steps;
    entries past the valid length of a batch entry are zero. *)
Definition unpack (x : SeqData R) : Res T :=
  match x with
  | Packed t lengths =>
      Ok (mkTensor (Z.to_nat (foldr Z.max 0%Z lengths) :: tail (shape t))
            (fun idx => match idx with
                        | i :: b :: _ =>
                            if (Z.of_nat i <? nth b lengths 0%Z)%Z then entry t idx else szero
                        | _ => entry t idx
                        end))
  | Padded _ => Raise AttributeError
  end.

Definition Encoder_forward (enc : Encoder) (input : Tensor Z)
    (lengths : option (Tensor Z)) (hidden : option (Hidden T))
    : Mo (Hidden T * SeqData R * option T) :=
  (* CHECKS *)
  let! (s_len, n_batch, n_feats) := lift (unpack3 (shape input)) in
  let! _ := match lengths with
            | Some l =>
                let! (_, n_batch_) := lift (unpack2 (shape l)) in
                lift (aeq [n_batch; n_batch_])
            | None => ret ()
            end in
  (* END CHECKS *)
  let! emb := Embeddings_forward (enc_embeddings enc) input in
  let! (s_len, n_batch, vec_size) := lift (unpack3 (shape emb)) in
  let lengths := tolist <$> lengths in
  let! packed_emb := match lengths with
                     | Some l => lift (pack emb l)
                     | None => ret (Padded emb)
                     end in
  let! (outputs, hidden_t) := call (CallEncoderRnn packed_emb hidden)
                                    (fun w => enc_rnn enc w packed_emb hidden) in
  let! outputs := match lengths with
                  | Some (_ :: _) => let! o := lift (unpack outputs) in ret (Padded o)
                  | _ => ret outputs
                  end in
  let fertility_vals : option T := None in
  ret (hidden_t, outputs, fertility_vals).

(** ** Decoder *)

Record Decoder := mkDecoder {
  dec_layers : nat;
  _coverage : bool;
  exhaustion_loss : bool;
  hidden_size : nat;
  dec_input_feed : bool;
  dec_embeddings : Embeddings;
  rnn : World → T → list T → (T * list T) * World;
  context_gate : option (World → T → T → T → T * World);
  attn : World → T → T → T → (T * T) * World;
  fertility : R;
  _copy : bool;
  copy_attn : option (World → T → T → (T * T) * World);
}.

(** The sub-modules [Decoder.__init__] builds from [onmt.modules]. *)
Record DecoderModules := mkDecoderModules {
  StackedLSTM : World → T → list T → (T * list T) * World;
  StackedGRU : World → T → list T → (T * list T) * World;
  ContextGateFactory : string → World → T → T → T → T * World;
  GlobalAttention : World → T → T → T → (T * T) * World;
  CopyAttention : World → T → T → (T * T) * World;
}.

(** [Decoder.__init__] *)
Definition Decoder_init (opt : Opt) (lib : DecoderModules) (emb : Embeddings) : Decoder :=
  mkDecoder (opt_layers opt)
            (opt_coverage_attn opt)
            (opt_exhaustion_loss opt)
            (opt_rnn_size opt)
            (opt_input_feed opt)
            emb
            (if bool_decide (opt_rnn_type opt = "LSTM") then StackedLSTM lib
             else StackedGRU lib)
            (ContextGateFactory lib <$> opt_context_gate opt)
            (GlobalAttention lib)
            (opt_fertility opt)
            (opt_copy_attn opt)
            (if opt_copy_attn opt then Some (CopyAttention lib) else None).

(** What a list in the attention dictionary holds: a tensor of its own, or
    the fertility-budget object itself.  The loop appends the budget object,
    not a copy, and goes on updating it in place, so what such an entry shows
    is read from the budget when the list is stacked. *)
Inductive AttnEntry :=
  | Recorded (t : T)
  | BudgetRef.

(** The variables of the decoding loop. *)
Record LoopState := mkLoopState {
  ls_output : T;
  ls_hidden : list T;
  ls_coverage : option T;
  ls_upper_bounds : option T;
  ls_outputs : list T;
  ls_attns : gmap string (list AttnEntry);
}.

(** [attns[k] += [x]] *)
Definition append_attn (k : string) (x : AttnEntry)
    (attns : gmap string (list AttnEntry)) : Res (gmap string (list AttnEntry)) :=
  match attns !! k with
  | Some l => Ok (<[k := l ++ [x]]> attns)
  | None => Raise KeyError
  end.

(** Lines 216-220: the budget handed to the attention of this step. *)
Definition step_upper_bounds (dec : Decoder) (n_batch_ s_len_ : nat)
    (upper_bounds : option T) : Res T :=
  (* Initialize upper bounds for the current batch *)
  let upper_bounds := match upper_bounds with
                      | None => full [n_batch_; s_len_] (fertility dec)
                      | Some u => u
                      end in
  (* Use <SINK> token for absorbing remaining attention weight *)
  set_last_column upper_bounds s100.

(** [if coverage] where [coverage] is [None] or a tensor. *)
Definition coverage_truth (coverage : option T) : Res bool :=
  match coverage with
  | None => Ok false
  | Some c => tensor_bool c
  end.

(** The body of [for i, emb_t in enumerate(emb.split(1))]. *)
Definition decoder_step (dec : Decoder) (context : T) (n_batch_ s_len_ : nat)
    (ls : LoopState) (emb_t : T) : Mo LoopState :=
  let! upper_bounds := lift (step_upper_bounds dec n_batch_ s_len_ (ls_upper_bounds ls)) in
  let emb_t := squeeze0 emb_t in
  let! emb_t := if dec_input_feed dec then lift (cat 1 emb_t (ls_output ls)) else ret emb_t in
  let! (rnn_output, hidden) := call (CallDecoderRnn emb_t (ls_hidden ls))
                                    (fun w => rnn dec w emb_t (ls_hidden ls)) in
  let! context_t := lift (transpose01 context) in
  let! (attn_output, attn) := call (CallAttn rnn_output context_t upper_bounds)
                                   (fun w => attn dec w rnn_output context_t upper_bounds) in
  let! upper_bounds := lift (isub_ upper_bounds attn) in
  let! output := match context_gate dec with
                 | Some gate =>
                     let! output := call (CallContextGate emb_t rnn_output attn_output)
                                         (fun w => gate w emb_t rnn_output attn_output) in
                     dropout output
                 | None => dropout attn_output
                 end in
  let outputs := ls_outputs ls ++ [output] in
  let! attns := lift (append_attn "std" (Recorded attn) (ls_attns ls)) in
  (* COVERAGE *)
  let! (coverage, attns) :=
    if _coverage dec then
      let! b := lift (coverage_truth (ls_coverage ls)) in
      let! coverage := match ls_coverage ls, b with
                       | Some c, true => lift (tadd c attn)
                       | _, _ => ret attn
                       end in
      let! attns := lift (append_attn "coverage" (Recorded coverage) attns) in
      ret (Some coverage, attns)
    else ret (ls_coverage ls, attns) in
  (* COPY *)
  let! attns :=
    if _copy dec then
      match copy_attn dec with
      | Some copy =>
          let! (_, copy_attn) := call (CallCopyAttn output context_t)
                                      (fun w => copy w output context_t) in
          lift (append_attn "copy" (Recorded copy_attn) attns)
      | None => lift (Raise AttributeError)
      end
    else ret attns in
  let! attns :=
    if exhaustion_loss dec
    then lift (append_attn "upper_bounds" BudgetRef attns)
    else ret attns in
  ret (mkLoopState output hidden coverage (Some upper_bounds) outputs attns).

(** Lines 195-202: the attention dictionary before the loop. *)
Definition init_attns (dec : Decoder) : gmap string (list AttnEntry) :=
  let attns := {["std" := []]} in
  let attns := if _copy dec then <["copy" := []]> attns else attns in
  let attns := if _coverage dec then <["coverage" := []]> attns else attns in
  let attns := if exhaustion_loss dec then <["upper_bounds" := []]> attns else attns in
  attns.

(** What a recorded entry shows when its list is stacked, the budget being
    [upper_bounds] by then. *)
Definition read_entry (upper_bounds : option T) (e : AttnEntry) : option T :=
  match e with
  | Recorded t => Some t
  | BudgetRef => upper_bounds
  end.

Definition stack_entries (upper_bounds : option T) (l : list AttnEntry) : option T :=
  match mapM (read_entry upper_bounds) l with
  | Some ts => match stack ts with Ok t => Some t | Raise _ => None end
  | None => None
  end.

(** [for k in attns: attns[k] = torch.stack(attns[k])]: every list must
    stack, the keys stay as they are. *)
Definition stack_attns (upper_bounds : option T)
    (attns : gmap string (list AttnEntry)) : Res (gmap string T) :=
  let stacked := omap (stack_entries upper_bounds) attns in
  if bool_decide (dom stacked = dom attns) then Ok stacked else Raise RuntimeError.

(** Lines 183-212: everything before the loop. *)
Definition decoder_setup (dec : Decoder) (input : Tensor Z) (src : Tensor Z)
    (context : T) (state : DecoderState T) (upper_bounds : option T)
    : Mo (nat * nat * list T * LoopState) :=
  (* CHECKS *)
  let! (t_len, n_batch) := lift (unpack2 (shape input)) in
  let! (s_len, n_batch_, _) := lift (unpack3 (shape src)) in
  let! (s_len_, n_batch__, _) := lift (unpack3 (shape context)) in
  let! _ := lift (aeq [n_batch; n_batch_; n_batch__]) in
  (* END CHECKS *)
  let! emb := Embeddings_forward (dec_embeddings dec) (unsqueeze 2 input) in
  (* Setup the different types of attention. *)
  let attns := init_attns dec in
  let! state := lift (assert_RNNDecoderState state) in
  let! feed := lift (match input_feed state with
                     | Some f => Ok f
                     | None => Raise AttributeError
                     end) in
  let output := squeeze0 feed in
  let hidden := hidden state in
  (* CHECKS *)
  let! (n_batch_, _) := lift (unpack2 (shape output)) in
  let! _ := lift (aeq [n_batch; n_batch_]) in
  (* END CHECKS *)
  let coverage := squeeze0 <$> coverage state in
  let outputs := [] in
  ret (n_batch_, s_len_, split1 emb,
       mkLoopState output hidden coverage upper_bounds outputs attns).

(** Lines 250-257: everything after the loop. *)
Definition decoder_finish (ls : LoopState)
    : Mo (T * DecoderState T * gmap string T * option T) :=
  let upper_bounds := ls_upper_bounds ls in
  let state := RNNDecoderState_init (HTuple (ls_hidden ls))
                 (Some (unsqueeze 0 (ls_output ls)))
                 (unsqueeze 0 <$> ls_coverage ls)
                 upper_bounds in
  let! outputs := lift (stack (ls_outputs ls)) in
  let! attns := lift (stack_attns upper_bounds (ls_attns ls)) in
  ret (outputs, RNNState state, attns, upper_bounds).

Definition Decoder_loop (dec : Decoder) (context : T) (n_batch_ s_len_ : nat)
    (ls : LoopState) (embs : list T) : Mo LoopState :=
  foldM (decoder_step dec context n_batch_ s_len_) ls embs.

Definition Decoder_forward (dec : Decoder) (input : Tensor Z) (src : Tensor Z)
    (context : T) (state : DecoderState T) (upper_bounds : option T)
    : Mo (T * DecoderState T * gmap string T * option T) :=
  let! (n_batch_, s_len_, embs, ls) :=
    decoder_setup dec input src context state upper_bounds in
  let! ls := Decoder_loop dec context n_batch_ s_len_ ls embs in
  decoder_finish ls.

(** ** NMTModel *)

Record NMTModel := mkNMTModel {
  multigpu : bool;
  encoder : Encoder;
  decoder : Decoder;
}.

(** The encoder hidden is (layers*directions) x batch x dim; it is converted
    to layers x batch x (directions*dim). *)
Definition _fix_enc_hidden (m : NMTModel) (h : T) : Res T :=
  if num_directions (encoder m) =? 2 then
    res_bind (stride2 0 h) (fun even =>
    res_bind (stride2 1 h) (fun odd =>
    cat 2 even odd))
  else Ok h.

Fixpoint mapR {A B} (f : A → Res B) (l : list A) : Res (list B) :=
  match l with
  | [] => Ok []
  | x :: l' => res_bind (f x) (fun y => res_bind (mapR f l') (fun ys => Ok (y :: ys)))
  end.

(** [RNNDecoderState.init_input_feed]: a zero input feed of shape
    1 x batch x rnn_size. *)
Definition init_input_feed (st : RNNDecoderState T) (context : SeqData R)
    (rnn_size : nat) : Res (RNNDecoderState T) :=
  match context with
  | Padded c =>
      res_bind (size_at c 1) (fun batch_size =>
      let feed := unsqueeze 0 (full [batch_size; rnn_size] szero) in
      Ok (mkRNNDecoderState (hidden st) (Some feed) (coverage st) (attn_upper_bounds st)
            ((Some <$> hidden st) ++ [Some feed])))
  | Packed _ _ => Raise AttributeError
  end.

Definition init_decoder_state (m : NMTModel) (context : SeqData R)
    (enc_hidden : Hidden T) : Res (RNNDecoderState T) :=
  res_bind (match enc_hidden with
            | HTuple hs =>
                res_bind (mapR (_fix_enc_hidden m) hs) (fun hs' =>
                Ok (RNNDecoderState_init (HTuple hs') None None None))
            | HTensor h =>
                res_bind (_fix_enc_hidden m h) (fun h' =>
                Ok (RNNDecoderState_init (HTensor h') None None None))
            end) (fun dec =>
  init_input_feed dec context (hidden_size (decoder m))).

Definition NMTModel_forward (m : NMTModel) (src tgt : Tensor Z)
    (lengths : option (Tensor Z)) (dec_state : option (DecoderState T))
    : Mo (T * option (gmap string T) * option (DecoderState T) * option T) :=
  let src := src in
  let! tgt := lift (drop_last tgt) in   (* exclude last target from inputs *)
  let! (enc_hidden, context, fertility_vals) := Encoder_forward (encoder m) src lengths None in
  let! enc_state := lift (init_decoder_state m context enc_hidden) in
  let! memory := lift (match context with
                       | Padded c => Ok c
                       | Packed _ _ => Raise AttributeError
                       end) in
  let! (out, dec_state, attns, upper_bounds) :=
    Decoder_forward (decoder m) tgt src memory
      (match dec_state with None => RNNState enc_state | Some st => st end) None in
  if multigpu m
  then ret (out, None, None, upper_bounds)   (* Not yet supported on multi-gpu *)
  else ret (out, Some attns, Some dec_state, upper_bounds).

(** ** In-place methods of the decoder states *)

(** A [Variable]: its tensor and what autograd knows about it. *)
Record Var := mkVar {
  data : T;
  requires_grad : bool;
  grad_fn : bool;      (* whether it carries computation history *)
  volatile : bool;
}.

(** Objects live in a store; a state attribute holds a reference. *)
#[local] Abbreviation Store := (gmap nat Var).

(** [Variable(t, ...)]: a new object. *)
Definition alloc (v : Var) (σ : Store) : nat * Store :=
  let l := fresh (dom σ) in (l, <[l := v]> σ).

(** The object behind an attribute, if the attribute is set. *)
Definition deref (e : option nat) (σ : Store) : option Var :=
  match e with
  | Some l => σ !! l
  | None => None
  end.

(** [h.detach_()] *)
Definition detach_ (v : Var) : Var := mkVar (data v) false false (volatile v).

Definition state_all (st : DecoderState nat) : list (option nat) :=
  match st with
  | RNNState s => all s
  | TransformerState s => transformer_all s
  end.

(** [DecoderState.detach] *)
Definition detach (st : DecoderState nat) (σ : Store) : Store :=
  foldl (fun σ h => match h with
                    | Some l => alter detach_ l σ
                    | None => σ
                    end) σ (state_all st).

(** [t.repeat(1, n, 1)] *)
Definition repeat_1n1 (n : nat) (t : T) : Res T :=
  match pad_shape 3 (shape t) with
  | [a; b; d] =>
      Ok (mkTensor [a; b * n; d]
            (fun idx => match idx with
                        | [i; j; k] => entry t (drop (3 - length (shape t)) [i; j mod b; k])
                        | _ => entry t idx
                        end))
  | _ => Raise RuntimeError
  end.

(** [[Variable(e.data.repeat(1, beamSize, 1)) for e in self.all]] *)
Fixpoint repeat_all (beamSize : nat) (l : list (option nat)) (σ : Store)
    : Res (list nat * Store) :=
  match l with
  | [] => Ok ([], σ)
  | e :: l' =>
      match deref e σ with
      | Some v =>
          res_bind (repeat_1n1 beamSize (data v)) (fun t =>
          let '(r, σ) := alloc (mkVar t false false false) σ in
          res_bind (repeat_all beamSize l' σ) (fun '(rs, σ) => Ok (r :: rs, σ)))
      | None => Raise AttributeError
      end
  end.

(** [[Variable(a.data, volatile=True) for a in all]] *)
Fixpoint rewrap_all (l : list nat) (σ : Store) : Res (list nat * Store) :=
  match l with
  | [] => Ok ([], σ)
  | a :: l' =>
      match σ !! a with
      | Some v =>
          let '(r, σ) := alloc (mkVar (data v) false false true) σ in
          res_bind (rewrap_all l' σ) (fun '(rs, σ) => Ok (r :: rs, σ))
      | None => Raise AttributeError
      end
  end.

(** [RNNDecoderState._resetAll] *)
Definition RNN_resetAll (st : RNNDecoderState nat) (all : list nat) (σ : Store)
    : Res (RNNDecoderState nat * Store) :=
  res_bind (rewrap_all all σ) (fun '(vars, σ) =>
  match List.last (Some <$> vars) None with
  | Some feed =>
      let hidden := removelast vars in
      Ok (mkRNNDecoderState hidden (Some feed) (coverage st) (attn_upper_bounds st)
            ((Some <$> hidden) ++ [Some feed]), σ)
  | None => Raise IndexError
  end).

(** [TransformerDecoderState._resetAll] *)
Definition Transformer_resetAll (st : TransformerDecoderState nat) (all : list nat)
    (σ : Store) : Res (TransformerDecoderState nat * Store) :=
  res_bind (rewrap_all all σ) (fun '(vars, σ) =>
  match vars with
  | v :: _ => Ok (mkTransformerDecoderState (Some v) [Some v], σ)
  | [] => Raise IndexError
  end).

(** [repeatBeam_]: inherited by the recurrent state, overridden to do nothing
    by the other one. *)
Definition repeatBeam_ (st : DecoderState nat) (beamSize : nat) (σ : Store)
    : Res (DecoderState nat * Store) :=
  match st with
  | RNNState s =>
      res_bind (repeat_all beamSize (all s) σ) (fun '(news, σ) =>
      res_bind (RNN_resetAll s news σ) (fun '(s', σ) => Ok (RNNState s', σ)))
  | TransformerState s => Ok (st, σ)
  end.

(** The row a beam update copies into row [r] of a tensor with [br] rows
    (beam-major: row [q * n + s] is hypothesis [q] of sentence [s], with
    [n = br // beamSize]): rows of sentence [idx] take the row of the
    hypothesis named by [positions], the others keep their own. *)
Definition beam_source (br beamSize idx : nat) (positions : list nat)
    : Res (nat → nat) :=
  if beamSize =? 0 then Raise ZeroDivisionError
  else
    let n := br / beamSize in
    if negb (beamSize * n =? br) then Raise RuntimeError          (* view *)
    else if negb (idx <? n) then Raise IndexError                  (* [:, :, idx] *)
    else if negb (forallb (fun p => p <? beamSize) positions) then Raise RuntimeError
    else if negb (expandable [length positions] [beamSize]) then Raise RuntimeError
    else Ok (fun r =>
           if r mod n =? idx
           then nth (if length positions =? 1 then 0 else r / n) positions 0 * n + idx
           else r).

(** The in-place update of one member of [self.all], a x br x d. *)
Definition beam_copy3 (idx : nat) (positions : list nat) (beamSize : nat) (e : T)
    : Res T :=
  res_bind (unpack3 (shape e)) (fun '(a, br, d) =>
  res_bind (beam_source br beamSize idx positions) (fun src =>
  Ok (mkTensor (shape e)
        (fun i => match i with
                  | [x; r; k] => entry e [x; src r; k]
                  | _ => entry e i
                  end)))).

(** The in-place update of the fertility budget, br x d. *)
Definition beam_copy2 (idx : nat) (positions : list nat) (beamSize : nat) (e : T)
    : Res T :=
  res_bind (unpack2 (shape e)) (fun '(br, d) =>
  res_bind (beam_source br beamSize idx positions) (fun src =>
  Ok (mkTensor (shape e)
        (fun i => match i with
                  | [r; k] => entry e [src r; k]
                  | _ => entry e i
                  end)))).

Definition set_data (v : Var) (t : T) : Var :=
  mkVar t (requires_grad v) (grad_fn v) (volatile v).

(** Apply an in-place tensor update to the object behind a reference. *)
Definition update_at (f : T → Res T) (e : option nat) (σ : Store) : Res Store :=
  match deref e σ with
  | Some v => res_bind (f (data v)) (fun t =>
              Ok (match e with Some l => <[l := set_data v t]> σ | None => σ end))
  | None => Raise AttributeError
  end.

Fixpoint update_each (f : T → Res T) (l : list (option nat)) (σ : Store) : Res Store :=
  match l with
  | [] => Ok σ
  | e :: l' => res_bind (update_at f e σ) (update_each f l')
  end.

(** [DecoderState.beamUpdate_] *)
Definition DecoderState_beamUpdate_ (st : DecoderState nat) (idx : nat)
    (positions : list nat) (beamSize : nat) (σ : Store) : Res Store :=
  update_each (beam_copy3 idx positions beamSize) (state_all st) σ.

(** [RNNDecoderState.beamUpdate_]: the override that also reorders the
    fertility budget. *)
Definition RNN_beamUpdate_ (s : RNNDecoderState nat) (idx : nat)
    (positions : list nat) (beamSize : nat) (σ : Store) : Res Store :=
  res_bind (DecoderState_beamUpdate_ (RNNState s) idx positions beamSize σ) (fun σ =>
  match attn_upper_bounds s with
  | Some e => update_at (beam_copy2 idx positions beamSize) (Some e) σ
  | None => Ok σ
  end).

Definition beamUpdate_ (st : DecoderState nat) (idx : nat) (positions : list nat)
    (beamSize : nat) (σ : Store) : Res Store :=
  match st with
  | RNNState s => RNN_beamUpdate_ s idx positions beamSize σ
  | TransformerState _ => DecoderState_beamUpdate_ st idx positions beamSize σ
  end.

End Model.

(** ** A concrete instance: exact arithmetic, a counter as world *)

Module Example.

#[export] Instance rng : DropoutRng Z nat := {|
  dropout_entry := fun _ _ x => x;      (* evaluation mode: nothing dropped *)
  dropout_next := S |}.

(** Sub-modules with the shapes the real ones return: the recurrent cell
    gives batch x width, attention gives batch x width and batch x src_len
    weights, here [j + 1] for source position [j]. *)
Definition cell (w : nat) (emb_t : Tensor Z) (hidden : list (Tensor Z))
    : (Tensor Z * list (Tensor Z)) * nat :=
  ((full [hd 0 (shape emb_t); 2] 1%Z, hidden), w).

Definition attention (w : nat) (query context upper_bounds : Tensor Z)
    : (Tensor Z * Tensor Z) * nat :=
  ((full [hd 0 (shape context); 2] 1%Z,
    mkTensor (take 2 (shape context))
             (fun idx => match idx with
                         | [_; j] => Z.of_nat (j + 1)
                         | _ => 0%Z
                         end)), w).

Definition copy_attention (w : nat) (query context : Tensor Z)
    : (Tensor Z * Tensor Z) * nat :=
  ((full [hd 0 (shape context); 2] 1%Z, full (take 2 (shape context)) 7%Z), w).

Definition gate (_ : string) (w : nat) (emb_t rnn_output attn_output : Tensor Z)
    : Tensor Z * nat :=
  (attn_output, w).

Definition lib : DecoderModules :=
  mkDecoderModules cell cell gate attention copy_attention.

Definition lut (token : Z) (k : nat) : Z := (token + Z.of_nat k)%Z.

(** Options: width 2, one layer, fertility 3, input feeding; the optional
    mechanisms are the arguments. *)
Definition opt (brnn coverage exhaustion copy : bool) : Opt :=
  mkOpt false 2 1 brnn 2 "LSTM" coverage exhaustion true None copy 3%Z.

(** A vocabulary of 10 token ids. *)
Definition embeddings (o : Opt) : Embeddings := Embeddings_init o 10 lut (fun _ => 0%Z).

Definition dec (coverage exhaustion copy : bool) : Decoder :=
  let o := opt false coverage exhaustion copy in
  Decoder_init o lib (embeddings o).

(** Target tokens [t_len x batch], source tokens [s_len x batch x 1], memory
    bank [s_len x batch x 2]. *)
Definition tokens (t_len batch : nat) : Tensor Z :=
  mkTensor [t_len; batch] (fun idx => Z.of_nat (hd 0 idx)).

Definition source (s_len batch : nat) : Tensor Z :=
  mkTensor [s_len; batch; 1] (fun idx => Z.of_nat (hd 0 idx)).

Definition memory (s_len batch : nat) : Tensor Z := full [s_len; batch; 2] 5%Z.

(** A recurrent state as [init_decoder_state] makes it: LSTM pair, zero
    input feed, no coverage, no budget. *)
Definition state0 (batch : nat) : DecoderState (Tensor Z) :=
  RNNState (RNNDecoderState_init (HTuple [full [1; batch; 2] 0%Z; full [1; batch; 2] 0%Z])
              (Some (full [1; batch; 2] 0%Z)) None None).

Definition start : MState Z nat := mkMState 0 [].

(** The same state with a coverage tensor (1 x batch x src_len) left by an
    earlier call. *)
Definition state_with_coverage (batch s_len : nat) : DecoderState (Tensor Z) :=
  RNNState (RNNDecoderState_init (HTuple [full [1; batch; 2] 0%Z; full [1; batch; 2] 0%Z])
              (Some (full [1; batch; 2] 0%Z)) (Some (full [1; batch; s_len] 1%Z)) None).

(** A state of the other variant. *)
Definition transformer_state : DecoderState (Tensor Z) :=
  TransformerState (TransformerDecoderState_init (Some (full [1; 2; 2] 0%Z))).

(** An encoder network of one layer: outputs of the given width for every
    position, packed if the input was packed, and an LSTM pair as final
    state. *)
Definition enc_cell (width : nat) (w : nat) (x : SeqData Z)
    (hidden : option (Hidden (Tensor Z)))
    : (SeqData Z * Hidden (Tensor Z)) * nat :=
  let t := match x with Padded t => t | Packed t _ => t end in
  let s_len := hd 0 (shape t) in
  let batch := hd 0 (tail (shape t)) in
  let out := full [s_len; batch; width] 5%Z in
  ((match x with Padded _ => Padded out | Packed _ l => Packed out l end,
    HTuple [full [1; batch; width] 1%Z; full [1; batch; width] 2%Z]), w).

(** [getattr(nn, rnn_type)(...)]: [torch.nn] has the recurrent networks
    LSTM, GRU and RNN, and they refuse a hidden size of 0. *)
Definition nn_rnn (rnn_type : string) (input_size hidden_size num_layers : nat)
    (bidirectional : bool)
    : Res (nat → SeqData Z → option (Hidden (Tensor Z))
           → (SeqData Z * Hidden (Tensor Z)) * nat) :=
  if bool_decide (rnn_type = "LSTM") || bool_decide (rnn_type = "GRU")
     || bool_decide (rnn_type = "RNN")
  then if hidden_size =? 0 then Raise ValueError else Ok (enc_cell hidden_size)
  else Raise AttributeError.

Definition enc : Encoder :=
  let o := opt false false false false in
  mkEncoder 1 1 2 (embeddings o) (enc_cell 2).

Definition model : NMTModel := mkNMTModel false enc (dec false false false).

(** The bidirectional counterpart: two directions of width 1 each. *)
Definition enc_bi : Encoder :=
  let o := opt true false false false in
  mkEncoder 1 2 1 (embeddings o) (enc_cell 1).

Definition model_bi : NMTModel := mkNMTModel false enc_bi (dec false false false).

(** Valid lengths 4 and 3, as the 1 x batch tensor the encoder unpacks. *)
Definition lengths43 : Tensor Z :=
  mkTensor [1; 2] (fun idx => match idx with [_; 0] => 4%Z | _ => 3%Z end).


(** A final state of a one-layer bidirectional encoder: the forward
    direction holds 1, the backward direction 2. *)
Definition enc_hidden_bi : Tensor Z :=
  mkTensor [2; 2; 1] (fun idx => match idx with 0 :: _ => 1%Z | _ => 2%Z end).

(** A store with four objects and a state whose attributes refer to them:
    hidden state 0, input feed 1, coverage 2, fertility budget 3. *)
Definition var (t : Tensor Z) : Var := mkVar t true true false.

Definition budget23 : Tensor Z :=
  mkTensor [2; 3] (fun idx => match idx with [r; k] => Z.of_nat (10 * r + k) | _ => 0%Z end).

Definition store0 : gmap nat (@Var Z) :=
  <[0 := var (full [1; 2; 2] 1%Z)]>
  (<[1 := var (full [1; 2; 2] 2%Z)]>
  (<[2 := var (full [1; 2; 3] 3%Z)]>
  (<[3 := var budget23]> ∅))).

Definition beam_state : RNNDecoderState nat :=
  mkRNNDecoderState [0] (Some 1) (Some 2) (Some 3) [Some 0; Some 1].

(** A decoder without input feeding, and the model with it. *)
Definition opt_no_feed : Opt :=
  mkOpt false 2 1 false 2 "LSTM" false false false None false 3%Z.

Definition dec_no_feed : Decoder := Decoder_init opt_no_feed lib (embeddings opt_no_feed).

Definition model_no_feed : NMTModel := mkNMTModel false enc dec_no_feed.


End Example.

(** ** Further concrete inputs *)

Module MoreExamples.
Import Example.

(** Options with positional encoding switched on. *)
Definition opt_positional : Opt :=
  mkOpt true 2 1 false 2 "LSTM" false false true None false 3%Z.

(** An input of 5001 positions. *)
Definition long_input : Tensor Z := mkTensor [S 5000; 1; 1] (fun _ => 0%Z).

(** A recurrent state before [init_input_feed]. *)
Definition state_no_feed : RNNDecoderState (Tensor Z) :=
  RNNDecoderState_init (HTuple [full [1; 2; 2] 0%Z; full [1; 2; 2] 0%Z]) None None None.

(** An encoder network that returns a memory bank with one batch entry too
    many. *)
Definition enc_cell_other_batch (w : nat) (x : SeqData Z)
    (hidden : option (Hidden (Tensor Z)))
    : (SeqData Z * Hidden (Tensor Z)) * nat :=
  let t := match x with Padded t => t | Packed t _ => t end in
  let s_len := hd 0 (shape t) in
  let batch := hd 0 (tail (shape t)) in
  ((Padded (full [s_len; S batch; 2] 5%Z),
    HTuple [full [1; batch; 2] 1%Z; full [1; batch; 2] 2%Z]), w).

Definition model_other_batch : NMTModel :=
  mkNMTModel false
    (mkEncoder 1 1 2 (embeddings (opt false false false false)) enc_cell_other_batch)
    (dec false false false).

(** A state of the other variant whose attribute refers to object 0. *)
Definition transformer_beam_state : TransformerDecoderState nat :=
  TransformerDecoderState_init (Some 0).

End MoreExamples.

(** * Properties *)

Section Properties.
Context {R : Type} `{Scalar R} {World : Type} `{DropoutRng R World}.

#[local] Abbreviation T := (Tensor R).
#[local] Abbreviation Mo := (M R World).
#[local] Abbreviation St := (MState R World).
#[local] Abbreviation Dec := (@Decoder R World).
#[local] Abbreviation Enc := (@Encoder R World).
#[local] Abbreviation Emb := (@Embeddings R).
#[local] Abbreviation Loop := (@LoopState R).
#[local] Abbreviation Model := (@NMTModel R World).
#[local] Abbreviation Options := (@Opt R).

(** ** Reasoning about [M] *)

Lemma bind_ok_inv {A B} (m : Mo A) (k : A → Mo B) (s s' : St) (b : B) :
  bind m k s = (Ok b, s') →
  ∃ a s1, m s = (Ok a, s1) ∧ k a s1 = (Ok b, s').
Proof.
  unfold bind. destruct (m s) as [[a|e] s1]; [eauto | discriminate].
Qed.

Lemma lift_inv {A} (r : Res A) (s s' : St) (r' : Res A) :
  lift r s = (r', s') → r' = r ∧ s' = s.
Proof. unfold lift. intros [= <- <-]. done. Qed.

(** [m] only appends to the trace, and appends only events satisfying [P]. *)
Definition emits {A} (P : Event R → Prop) (m : Mo A) : Prop :=
  ∀ s, ∃ evs, trace (m s).2 = trace s ++ evs ∧ Forall P evs.

Lemma emits_ret {A} P (a : A) : emits P (ret a).
Proof. intros s. exists []. by rewrite app_nil_r. Qed.

Lemma emits_lift {A} P (r : Res A) : emits P (lift r).
Proof. intros s. exists []. by rewrite app_nil_r. Qed.

Lemma emits_call {A} (P : Event R → Prop) ev (f : World → A * World) :
  P ev → emits P (call ev f).
Proof.
  intros HP s. exists [ev]. unfold call. destruct (f (world s)). simpl. auto.
Qed.

Lemma emits_bind {A B} P (m : Mo A) (k : A → Mo B) :
  emits P m →
  (∀ a s s', m s = (Ok a, s') → emits P (k a)) →
  emits P (bind m k).
Proof.
  intros Hm Hk s. destruct (Hm s) as (evs & Ht & Hevs). unfold bind.
  destruct (m s) as [[a|e] s1] eqn:E; simpl in *.
  - destruct (Hk a s s1 E s1) as (evs' & Ht' & Hevs').
    exists (evs ++ evs'). rewrite Ht', Ht, app_assoc. split; [done|].
    by apply Forall_app.
  - eauto.
Qed.

Lemma emits_foldM {A B} P (body : A → B → Mo A) (l : list B) :
  (∀ acc x, emits P (body acc x)) → ∀ acc, emits P (foldM body acc l).
Proof.
  intros Hb. induction l as [|x l IH]; intros acc; simpl.
  - apply emits_ret.
  - apply emits_bind; auto.
Qed.

Lemma emits_dropout P (x : T) : P (CallDropout x) → emits P (dropout x).
Proof. intros. by apply emits_call. Qed.

(** ** The sink column *)

(** The last column of [u] (index -1 of dimension 1) holds 100 in every row. *)
Definition sink_is_reset (u : T) : Prop :=
  ∃ b c rest, shape u = b :: S c :: rest ∧ ∀ i r, entry u (i :: c :: r) = s100.

(** Every attention call of a trace is handed a budget whose sink is reset. *)
Definition attn_sees_reset_sink (ev : Event R) : Prop :=
  match ev with
  | CallAttn _ _ upper_bounds => sink_is_reset upper_bounds
  | _ => True
  end.

Lemma set_last_column_spec (t u : T) (v : R) :
  set_last_column t v = Ok u →
  ∃ b c rest, shape t = b :: S c :: rest ∧ shape u = shape t ∧
    (∀ i r, entry u (i :: c :: r) = v) ∧
    (∀ i j r, j ≠ c → entry u (i :: j :: r) = entry t (i :: j :: r)).
Proof.
  unfold set_last_column. intros Hu.
  destruct (shape t) as [|b [|[|c] rest]] eqn:Es; try discriminate.
  destruct (expandable [b] (b :: rest)); [|discriminate].
  injection Hu as <-. exists b, c, rest. simpl.
  split; [done|]. split; [done|]. split.
  - intros i r. by rewrite Nat.eqb_refl.
  - intros i j r Hj. apply Nat.eqb_neq in Hj. by rewrite Hj.
Qed.

Lemma step_upper_bounds_reset (dec : Dec) n_batch_ s_len_ ub (u : T) :
  step_upper_bounds dec n_batch_ s_len_ ub = Ok u → sink_is_reset u.
Proof.
  unfold step_upper_bounds. intros Hu.
  apply set_last_column_spec in Hu as (b & c & rest & Hs & Hs' & Hsink & _).
  exists b, c, rest. split; [congruence | done].
Qed.

Lemma lookup_emits P (E : Emb) idx :
  (∀ t, P (CallWordLut t)) → emits P (lookup E idx).
Proof.
  intros Hw. unfold lookup. destruct (forallb _ _); [by apply emits_call|].
  apply emits_bind; [by apply emits_call|]. intros _ _ _ _. apply emits_lift.
Qed.

Lemma Embeddings_forward_emits P (E : Emb) idx :
  (∀ t, P (CallWordLut t)) → (∀ x, P (CallDropout x)) →
  emits P (Embeddings_forward E idx).
Proof.
  intros Hw Hd. unfold Embeddings_forward.
  apply emits_bind; [apply emits_lift|]. intros i _ _ _.
  apply emits_bind; [by apply lookup_emits|]. intros w _ _ _.
  destruct (positional_encoding E); [|apply emits_ret].
  repeat (apply emits_bind; [apply emits_lift|]; intros ? _ _ _).
  by apply emits_dropout.
Qed.

Lemma decoder_step_emits (dec : Dec) context n_batch_ s_len_ ls emb_t :
  emits attn_sees_reset_sink (decoder_step dec context n_batch_ s_len_ ls emb_t).
Proof.
  unfold decoder_step.
  apply emits_bind; [apply emits_lift|]. intros u s s' Hu.
  apply lift_inv in Hu as [Hu _]. symmetry in Hu.
  apply step_upper_bounds_reset in Hu.
  apply emits_bind; [destruct (dec_input_feed dec); [apply emits_lift|apply emits_ret]|].
  intros e _ _ _.
  apply emits_bind; [by apply emits_call|]. intros [rnn_output hidden'] _ _ _.
  apply emits_bind; [apply emits_lift|]. intros context_t _ _ _.
  apply emits_bind; [by apply emits_call|]. intros [attn_output a] _ _ _.
  apply emits_bind; [apply emits_lift|]. intros u' _ _ _.
  apply emits_bind.
  { destruct (context_gate dec).
    - apply emits_bind; [by apply emits_call|]. intros o _ _ _. by apply emits_dropout.
    - by apply emits_dropout. }
  intros output _ _ _.
  apply emits_bind; [apply emits_lift|]. intros attns _ _ _.
  apply emits_bind.
  { destruct (_coverage dec); [|apply emits_ret].
    apply emits_bind; [apply emits_lift|]. intros b _ _ _.
    apply emits_bind.
    { destruct (ls_coverage ls), b; first [apply emits_lift | apply emits_ret]. }
    intros c _ _ _.
    apply emits_bind; [apply emits_lift|]. intros attns' _ _ _. apply emits_ret. }
  intros [cov attns'] _ _ _.
  apply emits_bind.
  { destruct (_copy dec); [|apply emits_ret].
    destruct (copy_attn dec); [|apply emits_lift].
    apply emits_bind; [by apply emits_call|]. intros [? ?] _ _ _. apply emits_lift. }
  intros attns'' _ _ _.
  apply emits_bind.
  { destruct (exhaustion_loss dec); [apply emits_lift|apply emits_ret]. }
  intros attns''' _ _ _. apply emits_ret.
Qed.

Lemma decoder_setup_emits (dec : Dec) input src context state upper_bounds :
  emits attn_sees_reset_sink (decoder_setup dec input src context state upper_bounds).
Proof.
  unfold decoder_setup.
  apply emits_bind; [apply emits_lift|]. intros [t_len n_batch] _ _ _.
  apply emits_bind; [apply emits_lift|]. intros [[s_len n_batch_] ?] _ _ _.
  apply emits_bind; [apply emits_lift|]. intros [[s_len_ n_batch__] ?] _ _ _.
  apply emits_bind; [apply emits_lift|]. intros _ _ _ _.
  apply emits_bind; [by apply Embeddings_forward_emits|]. intros emb _ _ _.
  apply emits_bind; [apply emits_lift|]. intros st _ _ _.
  apply emits_bind; [apply emits_lift|]. intros feed _ _ _.
  apply emits_bind; [apply emits_lift|]. intros [nb ?] _ _ _.
  apply emits_bind; [apply emits_lift|]. intros _ _ _ _.
  apply emits_ret.
Qed.

Lemma Decoder_forward_emits (dec : Dec) input src context state upper_bounds :
  emits attn_sees_reset_sink (Decoder_forward dec input src context state upper_bounds).
Proof.
  unfold Decoder_forward, Decoder_loop.
  apply emits_bind; [apply decoder_setup_emits|]. intros [[[n_batch_ s_len_] embs] ls] _ _ _.
  apply emits_bind; [apply emits_foldM; intros; apply decoder_step_emits|].
  intros ls' _ _ _. unfold decoder_finish.
  apply emits_bind; [apply emits_lift|]. intros outs _ _ _.
  apply emits_bind; [apply emits_lift|]. intros attns _ _ _.
  apply emits_ret.
Qed.

(** ** Inverting a successful decoding step *)

Lemma lift_ok_inv {A} (r : Res A) (s s' : St) (a : A) :
  lift r s = (Ok a, s') → r = Ok a ∧ s' = s.
Proof. unfold lift. intros [= -> <-]. done. Qed.

Lemma ret_ok_inv {A} (a a' : A) (s s' : St) :
  ret a s = (Ok a', s') → a' = a ∧ s' = s.
Proof. unfold ret. intros [= <- <-]. done. Qed.

Lemma call_ok_inv {A} (ev : Event R) (f : World → A * World) (s s' : St) (a : A) :
  call ev f s = (Ok a, s') →
  f (world s) = (a, world s') ∧ trace s' = trace s ++ [ev].
Proof.
  unfold call. destruct (f (world s)) as [a0 w]. intros [= <- <-]. done.
Qed.

(** Take a successful run of a monadic program apart, down to the tensor
    operations and sub-module calls it is made of. *)
Ltac m_inv :=
  repeat match goal with
  | H : bind _ _ _ = (Ok _, _) |- _ =>
      apply bind_ok_inv in H; destruct H as (? & ? & ? & H)
  | H : lift _ _ = (Ok _, _) |- _ =>
      apply lift_ok_inv in H as [? ->]
  | H : ret _ _ = (Ok _, _) |- _ =>
      apply ret_ok_inv in H as [-> ->]
  | H : call _ _ _ = (Ok _, _) |- _ =>
      apply call_ok_inv in H; destruct H as [? ?]
  | H : dropout _ _ = (Ok _, _) |- _ => unfold dropout in H
  | H : (if ?b then _ else _) _ = (Ok _, _) |- _ => destruct b eqn:?
  | H : (match ?x with _ => _ end) _ = (Ok _, _) |- _ => destruct x eqn:?
  | H : (let (_, _) := ?x in _) _ = (Ok _, _) |- _ => destruct x eqn:?
  end;
  try match goal with
  | H : Raise _ = Ok _ |- _ => discriminate H
  end.

Lemma append_attn_ok k x (attns attns' : gmap string (list (@AttnEntry R))) :
  append_attn k x attns = Ok attns' →
  ∃ l, attns !! k = Some l ∧ attns' = <[k := l ++ [x]]> attns.
Proof.
  unfold append_attn. destruct (attns !! k) as [l|]; [|discriminate].
  intros [= <-]. eauto.
Qed.

Lemma append_attn_facts k x (attns attns' : gmap string (list (@AttnEntry R))) :
  append_attn k x attns = Ok attns' →
  dom attns' = dom attns ∧
  (∀ k', k ≠ k' → attns' !! k' = attns !! k') ∧
  ∃ l, attns !! k = Some l ∧ attns' !! k = Some (l ++ [x]).
Proof.
  intros (l & Hl & ->)%append_attn_ok. split; [|split].
  - rewrite dom_insert_L. apply elem_of_dom_2 in Hl. set_solver.
  - intros k' Hne. by rewrite lookup_insert_ne.
  - exists l. by rewrite lookup_insert_eq.
Qed.

(** Replace every successful [attns[k] += [x]] by what it did. *)
Ltac append_inv :=
  repeat match goal with
  | H : append_attn _ _ _ = Ok _ |- _ =>
      apply append_attn_facts in H; destruct H as (? & ? & ? & ? & ?)
  end.

(** Read a key through the updates of other keys. *)
Ltac lookup_through :=
  repeat match goal with
  | Ho : ∀ k', _ ≠ k' → ?m !! k' = _ !! k' |- context [?m !! ?k] =>
      rewrite (Ho k) by done
  end.

(** A successful step: the budget it hands to attention, the weights [a] it
    gets back, and the budget it leaves. *)
Lemma decoder_step_budget (dec : Dec) context n_batch_ s_len_ (ls ls' : Loop) emb_t s s' :
  decoder_step dec context n_batch_ s_len_ ls emb_t s = (Ok ls', s') →
  ∃ u1 a u2 l,
    step_upper_bounds dec n_batch_ s_len_ (ls_upper_bounds ls) = Ok u1 ∧
    isub_ u1 a = Ok u2 ∧
    ls_upper_bounds ls' = Some u2 ∧
    ls_attns ls !! "std" = Some l ∧
    ls_attns ls' !! "std" = Some (l ++ [Recorded a]) ∧
    ls_outputs ls' = ls_outputs ls ++ [ls_output ls'] ∧
    dom (ls_attns ls') = dom (ls_attns ls).
Proof.
  intros Hstep. unfold decoder_step in Hstep.
  m_inv; simpl; append_inv.
  all: do 4 eexists; repeat split; try eassumption; try reflexivity.
  all: try congruence.
  all: lookup_through; eassumption.
Qed.

(** ** Shapes and broadcasting *)

Lemma bidx_in_range (s idx : list nat) : in_range s idx → bidx s idx = idx.
Proof.
  unfold in_range, bidx. intros Hr.
  rewrite (Forall2_length _ _ _ Hr), Nat.sub_diag, drop_0.
  induction Hr as [|i d idx s Hlt _ IH]; [done|]. simpl. rewrite IH.
  destruct (Nat.eqb_spec d 1); [|done]. f_equal. lia.
Qed.

Lemma bshape_aligned_same (s : list nat) : bshape_aligned s s = Some s.
Proof.
  induction s as [|a s IH]; [done|]. simpl. rewrite IH. simpl.
  by rewrite Nat.eqb_refl.
Qed.

Lemma bshape_same (s : list nat) : bshape s s = Some s.
Proof.
  unfold bshape, pad_shape. rewrite Nat.max_id, Nat.sub_diag. simpl.
  apply bshape_aligned_same.
Qed.

Lemma expand_shape (t u : T) (target : list nat) :
  expand t target = Ok u → shape u = target.
Proof. unfold expand. destruct (expandable _ _); [|discriminate]. by intros [= <-]. Qed.

Lemma tadd_shape_same (a b c : T) :
  tadd a b = Ok c → shape a = shape b → shape c = shape a.
Proof.
  unfold tadd. intros Hc Hs. rewrite <- Hs, bshape_same in Hc.
  destruct (expand a (shape a)); [|discriminate]. simpl in Hc.
  destruct (expand b (shape a)); [|discriminate]. simpl in Hc.
  by injection Hc as <-.
Qed.

(** The entry of [a] that lands at [idx] when [a] is broadcast. *)
Definition weight_at (a : T) (idx : list nat) : R := entry a (bidx (shape a) idx).

Lemma weight_at_in_range (a : T) (idx : list nat) :
  in_range (shape a) idx → weight_at a idx = entry a idx.
Proof. intros Hr. unfold weight_at. by rewrite bidx_in_range. Qed.

Lemma isub__spec (u a u' : T) :
  isub_ u a = Ok u' →
  shape u' = shape u ∧ ∀ idx, entry u' idx = ssub (entry u idx) (weight_at a idx).
Proof.
  unfold isub_, expand. destruct (expandable _ _); [|discriminate].
  simpl. by intros [= <-].
Qed.

(** A successful lookup: every id has a row, the result holds the rows, and
    the call is the one event recorded. *)
Lemma lookup_ok_inv (E : Emb) (idx : Tensor Z) (s s' : St) (w : T) :
  lookup E idx s = (Ok w, s') →
  forallb (in_vocab E) (tolist idx) = true ∧
  w = mkTensor (shape idx ++ [word_vec_size E])
        (fun i => word_lut E (entry idx (removelast i)) (List.last i 0)) ∧
  s' = mkMState (world s) (trace s ++ [CallWordLut idx]).
Proof.
  unfold lookup. destruct (forallb _ _).
  - unfold call. by intros [= <- <-].
  - unfold bind, call, lift. discriminate.
Qed.

Lemma Embeddings_forward_shape (E : Emb) (x : Tensor Z) (s s' : St) (emb : T) a b c :
  Embeddings_forward E x s = (Ok emb, s') →
  shape x = [a; b; S c] →
  shape emb = [a; b; word_vec_size E].
Proof.
  intros Hrun Hx. unfold Embeddings_forward in Hrun.
  apply bind_ok_inv in Hrun as (idx & s1 & Hidx & Hrun).
  apply lift_ok_inv in Hidx as [Hidx ->].
  unfold select_feat0 in Hidx. rewrite Hx in Hidx. injection Hidx as <-.
  apply bind_ok_inv in Hrun as (w & s2 & Hw & Hrun).
  apply lookup_ok_inv in Hw as (_ & -> & _).
  destruct (positional_encoding E).
  - m_inv. simpl. simplify_eq. simpl.
    match goal with Hp : expand _ _ = Ok ?p, Ha : tadd _ ?p = Ok _ |- _ =>
      apply expand_shape in Hp; apply tadd_shape_same in Ha; [|by rewrite Hp]
    end. done.
  - apply ret_ok_inv in Hrun as [-> _]. done.
Qed.

Lemma split1_length {A} (t : Tensor A) n s :
  shape t = n :: s → length (split1 t) = Nat.max 1 n.
Proof.
  unfold split1. intros ->. destruct n as [|n]; [done|].
  rewrite length_fmap, length_seq. lia.
Qed.

(** ** Counting the calls of a trace *)

Definition is_attn (ev : Event R) : bool :=
  match ev with CallAttn _ _ _ => true | _ => false end.

Definition is_rnn (ev : Event R) : bool :=
  match ev with CallDecoderRnn _ _ => true | _ => false end.

Definition count (p : Event R → bool) (evs : list (Event R)) : nat :=
  length (List.filter p evs).

Lemma count_app p evs1 evs2 : count p (evs1 ++ evs2) = count p evs1 + count p evs2.
Proof. unfold count. by rewrite List.filter_app, length_app. Qed.

(** ** The loop *)

Lemma foldM_invariant {A B} (I : list B → A → St → Prop) (body : A → B → Mo A)
    (l : list B) (acc0 acc : A) (s0 s' : St) :
  I [] acc0 s0 →
  (∀ done x a s a' s1, I done a s → body a x s = (Ok a', s1) → I (done ++ [x]) a' s1) →
  foldM body acc0 l s0 = (Ok acc, s') →
  I l acc s'.
Proof.
  intros Hinit Hstep Hrun.
  enough (∀ done a s, I done a s → foldM body a l s = (Ok acc, s') → I (done ++ l) acc s')
    as G by exact (G [] _ _ Hinit Hrun).
  clear Hinit Hrun acc0 s0.
  induction l as [|x l IH]; intros done a s Hd Hrun; simpl in Hrun.
  - apply ret_ok_inv in Hrun as [-> ->]. by rewrite app_nil_r.
  - apply bind_ok_inv in Hrun as (a1 & s1 & Hb & Hrun).
    rewrite cons_middle, app_assoc. eapply IH; [|done]. eauto.
Qed.

Lemma foldM_app {A B} (body : A → B → Mo A) (l1 l2 : list B) (acc : A) (s : St) :
  foldM body acc (l1 ++ l2) s
  = bind (foldM body acc l1) (fun a => foldM body a l2) s.
Proof.
  revert acc s. induction l1 as [|x l1 IH]; intros acc s; simpl; [reflexivity|].
  unfold bind. destruct (body acc x s) as [[a|e] s1]; [|reflexivity].
  rewrite IH. reflexivity.
Qed.

(** One step: one call of the recurrent cell, one attention call. *)
Lemma decoder_step_trace (dec : Dec) context n_batch_ s_len_ (ls ls' : Loop) emb_t s s' :
  decoder_step dec context n_batch_ s_len_ ls emb_t s = (Ok ls', s') →
  ∃ evs, trace s' = trace s ++ evs ∧ count is_attn evs = 1 ∧ count is_rnn evs = 1.
Proof.
  intros Hstep. unfold decoder_step in Hstep. m_inv.
  all: repeat match goal with
       | Ht : trace ?x = _ |- context [trace ?x] => rewrite Ht; clear Ht
       end.
  all: rewrite <- ?app_assoc; eexists; split; [reflexivity|]; done.
Qed.

Lemma count_none p (evs : list (Event R)) :
  Forall (fun ev => p ev = false) evs → count p evs = 0.
Proof.
  unfold count. induction 1 as [|ev evs Hev _ IH]; [done|]. simpl. by rewrite Hev.
Qed.

Lemma aeq2_ok (a b : nat) : aeq [a; b] = Ok () → b = a.
Proof.
  unfold aeq. simpl. destruct (Nat.eqb_spec a b); [done|discriminate].
Qed.

Lemma aeq3_ok (a b c : nat) : aeq [a; b; c] = Ok () → b = a ∧ c = a.
Proof.
  unfold aeq. simpl.
  destruct (Nat.eqb_spec a b), (Nat.eqb_spec a c); try discriminate. done.
Qed.

Lemma unpack2_ok s a b : unpack2 s = Ok (a, b) → s = [a; b].
Proof. destruct s as [|? [|? [|? ?]]]; simpl; congruence. Qed.

Lemma unpack3_ok s a b c : unpack3 s = Ok (a, b, c) → s = [a; b; c].
Proof. destruct s as [|? [|? [|? [|? ?]]]]; simpl; congruence. Qed.

(** What a successful set-up has checked and prepared: agreeing batch sizes,
    a recurrent state, one embedded input per target step (and one, empty,
    for a target without steps), and no call of the recurrent cell or of
    attention yet. *)
Lemma decoder_setup_ok (dec : Dec) input src context state upper_bounds
    (s s1 : St) n_batch_ s_len_ embs (ls0 : Loop) :
  decoder_setup dec input src context state upper_bounds s
    = (Ok (n_batch_, s_len_, embs, ls0), s1) →
  ∃ t_len s_len d1 d2 d3 st feed evs,
    shape input = [t_len; n_batch_] ∧
    shape src = [s_len; n_batch_; d1] ∧
    shape context = [s_len_; n_batch_; d2] ∧
    state = RNNState st ∧
    input_feed st = Some feed ∧
    shape (squeeze0 feed) = [n_batch_; d3] ∧
    length embs = Nat.max 1 t_len ∧
    ls0 = mkLoopState (squeeze0 feed) (hidden st) (squeeze0 <$> coverage st)
                      upper_bounds [] (init_attns dec) ∧
    trace s1 = trace s ++ evs ∧ count is_attn evs = 0 ∧ count is_rnn evs = 0.
Proof.
  intros Hrun. unfold decoder_setup in Hrun.
  apply bind_ok_inv in Hrun as ([t_len n_batch] & s2 & H1 & Hrun).
  apply lift_ok_inv in H1 as [H1%unpack2_ok ->].
  apply bind_ok_inv in Hrun as ([[s_len nb1] d1] & s2 & H2 & Hrun).
  apply lift_ok_inv in H2 as [H2%unpack3_ok ->].
  apply bind_ok_inv in Hrun as ([[sl nb2] d2] & s2 & H3 & Hrun).
  apply lift_ok_inv in H3 as [H3%unpack3_ok ->].
  apply bind_ok_inv in Hrun as ([] & s2 & H4 & Hrun).
  apply lift_ok_inv in H4 as [[-> ->]%aeq3_ok ->].
  apply bind_ok_inv in Hrun as (emb & s2 & Hemb & Hrun).
  apply bind_ok_inv in Hrun as (st & s3 & H5 & Hrun).
  apply lift_ok_inv in H5 as [H5 ->].
  destruct state as [st'|]; [|discriminate]. injection H5 as ->.
  apply bind_ok_inv in Hrun as (feed & s3 & H6 & Hrun).
  apply lift_ok_inv in H6 as [H6 ->].
  destruct (input_feed st) as [f|] eqn:Hfeed; [|discriminate]. injection H6 as ->.
  apply bind_ok_inv in Hrun as ([nb3 d3] & s3 & H7 & Hrun).
  apply lift_ok_inv in H7 as [H7%unpack2_ok ->].
  apply bind_ok_inv in Hrun as ([] & s3 & H8 & Hrun).
  apply lift_ok_inv in H8 as [->%aeq2_ok ->].
  apply ret_ok_inv in Hrun as [[= -> -> -> ->] ->].
  assert (shape emb = [t_len; n_batch; word_vec_size (dec_embeddings dec)]) as Hshape.
  { eapply Embeddings_forward_shape; [done|]. unfold unsqueeze. by rewrite H1. }
  destruct (Embeddings_forward_emits
              (fun ev => is_attn ev = false ∧ is_rnn ev = false)
              (dec_embeddings dec) (unsqueeze 2 input)
              ltac:(done) ltac:(done) s) as (evs & Htr & Hevs).
  rewrite Hemb in Htr. simpl in Htr.
  exists t_len, s_len, d1, d2, d3, st, feed, evs.
  repeat split; try done.
  - by apply split1_length with (s := [n_batch; word_vec_size (dec_embeddings dec)]).
  - apply count_none. eapply Forall_impl; [done|]. by intros ? [? ?].
  - apply count_none. eapply Forall_impl; [done|]. by intros ? [? ?].
Qed.

(** After the loop: one output, one attention call and one call of the
    recurrent cell per embedded input. *)
Lemma Decoder_loop_steps (dec : Dec) context n_batch_ s_len_ embs
    (ls0 ls : Loop) (s s' : St) :
  Decoder_loop dec context n_batch_ s_len_ ls0 embs s = (Ok ls, s') →
  length (ls_outputs ls) = length (ls_outputs ls0) + length embs ∧
  dom (ls_attns ls) = dom (ls_attns ls0) ∧
  ∃ evs, trace s' = trace s ++ evs ∧
         count is_attn evs = length embs ∧ count is_rnn evs = length embs.
Proof.
  intros Hrun. unfold Decoder_loop in Hrun.
  apply (foldM_invariant
           (fun done (a : Loop) (s1 : St) =>
              length (ls_outputs a) = length (ls_outputs ls0) + length done ∧
              dom (ls_attns a) = dom (ls_attns ls0) ∧
              ∃ evs, trace s1 = trace s ++ evs ∧
                     count is_attn evs = length done ∧ count is_rnn evs = length done))
    in Hrun; [done| |].
  - simpl. split; [lia|]. split; [done|]. exists []. by rewrite app_nil_r.
  - intros done x a s1 a' s2 (Hlen & Hdom & evs & Htr & Ha & Hr) Hstep.
    pose proof (decoder_step_trace _ _ _ _ _ _ _ _ _ Hstep) as (evs' & Htr' & Ha' & Hr').
    apply decoder_step_budget in Hstep as (u1 & a0 & u2 & l & _ & _ & _ & _ & _ & Hout & Hdom').
    rewrite Hout, !length_app, Hlen. simpl. split; [lia|]. split; [congruence|].
    exists (evs ++ evs'). rewrite Htr', Htr, app_assoc, !count_app. split; [done|]. lia.
Qed.

Lemma decoder_finish_ok (ls : Loop) (s s' : St) outs st attns ub :
  decoder_finish ls s = (Ok (outs, st, attns, ub), s') →
  s' = s ∧
  stack (ls_outputs ls) = Ok outs ∧
  stack_attns (ls_upper_bounds ls) (ls_attns ls) = Ok attns ∧
  ub = ls_upper_bounds ls ∧
  st = RNNState (RNNDecoderState_init (HTuple (ls_hidden ls))
                   (Some (unsqueeze 0 (ls_output ls)))
                   (unsqueeze 0 <$> ls_coverage ls)
                   (ls_upper_bounds ls)).
Proof.
  unfold decoder_finish. intros Hrun.
  apply bind_ok_inv in Hrun as (o & s1 & H1 & Hrun).
  apply lift_ok_inv in H1 as [H1 ->].
  apply bind_ok_inv in Hrun as (a & s1 & H2 & Hrun).
  apply lift_ok_inv in H2 as [H2 ->].
  apply ret_ok_inv in Hrun as [[= -> -> -> ->] ->]. done.
Qed.

(** A successful call, taken apart into its three phases. *)
Lemma Decoder_forward_ok (dec : Dec) input src context state upper_bounds
    (s s' : St) r :
  Decoder_forward dec input src context state upper_bounds s = (Ok r, s') →
  ∃ n_batch_ s_len_ embs ls0 s1 ls,
    decoder_setup dec input src context state upper_bounds s
      = (Ok (n_batch_, s_len_, embs, ls0), s1) ∧
    Decoder_loop dec context n_batch_ s_len_ ls0 embs s1 = (Ok ls, s') ∧
    decoder_finish ls s' = (Ok r, s').
Proof.
  unfold Decoder_forward. intros Hrun.
  apply bind_ok_inv in Hrun as ([[[n_batch_ s_len_] embs] ls0] & s1 & Hsetup & Hrun).
  apply bind_ok_inv in Hrun as (ls & s2 & Hloop & Hrun).
  destruct r as [[[outs st] attns] ub].
  pose proof (decoder_finish_ok _ _ _ _ _ _ _ Hrun) as [-> _].
  by exists n_batch_, s_len_, embs, ls0, s1, ls.
Qed.

(** C1: in every decoder run, successful or not, every attention call is
    handed a budget whose sink column holds 100 in every row, whatever the
    budget was before; and a run that returns has made exactly one attention
    call per chunk of the embedded target: one per target step, and one, on
    the single empty chunk, for a target without steps. *)
Theorem sink_reset_before_every_attention (dec : Dec) input src context state
    upper_bounds (s : St) :
  let run := Decoder_forward dec input src context state upper_bounds s in
  ∃ evs, trace run.2 = trace s ++ evs ∧
    (∀ query memory budget, CallAttn query memory budget ∈ evs → sink_is_reset budget) ∧
    (∀ r, run.1 = Ok r → count is_attn evs = Nat.max 1 (hd 0 (shape input))).
Proof.
  intros run. subst run.
  destruct (Decoder_forward_emits dec input src context state upper_bounds s)
    as (evs & Htr & Hevs).
  exists evs. split; [done|]. split.
  - intros q c u Hin. rewrite Forall_forall in Hevs. exact (Hevs _ Hin).
  - intros r Hr.
    destruct (Decoder_forward dec input src context state upper_bounds s)
      as [r' s'] eqn:Hrun. simpl in *. subst r'.
    apply Decoder_forward_ok in Hrun as (nb & sl & embs & ls0 & s1 & ls & Hsetup & Hloop & _).
    apply decoder_setup_ok in Hsetup
      as (t_len & ? & ? & ? & ? & ? & ? & evs1 & Hin & _ & _ & _ & _ & _ & Hlen & _ & Htr1 & Hc1 & _).
    apply Decoder_loop_steps in Hloop as (_ & _ & evs2 & Htr2 & Hc2 & _).
    rewrite Htr2, Htr1, <- app_assoc in Htr. apply app_inv_head in Htr as <-.
    rewrite count_app, Hc1, Hc2, Hin. simpl. lia.
Qed.

(** ** The budget as a running difference *)

(** [F] with the weights of [ws] at [idx] subtracted one after the other. *)
Definition spent (F : R) (ws : list T) (idx : list nat) : R :=
  foldl (fun acc a => ssub acc (weight_at a idx)) F ws.

(** The attention mass [ws] put on [idx] in total. *)
Definition total (ws : list T) (idx : list nat) : R :=
  foldl (fun acc a => sadd acc (weight_at a idx)) szero ws.

Lemma spent_total (F : R) (ws : list T) (idx : list nat) :
  (∀ x y z : R, ssub (ssub x y) z = ssub x (sadd y z)) →
  (∀ x : R, ssub x szero = x) →
  spent F ws idx = ssub F (total ws idx).
Proof.
  intros Hsub Hzero. unfold spent, total.
  induction ws as [|a ws IH] using rev_ind; simpl; [by rewrite Hzero|].
  rewrite !foldl_app. simpl. by rewrite IH, Hsub.
Qed.

Lemma step_upper_bounds_fresh (dec : Dec) n_batch_ s_len_ (u0 : T) :
  step_upper_bounds dec n_batch_ s_len_ None = Ok u0 →
  shape u0 = [n_batch_; s_len_] ∧
  (∀ b j, j ≠ s_len_ - 1 → entry u0 [b; j] = fertility dec) ∧
  (∀ b, entry u0 [b; s_len_ - 1] = s100).
Proof.
  unfold step_upper_bounds. intros Hu.
  apply set_last_column_spec in Hu as (b & c & rest & Hs & Hs' & Hsink & Hother).
  simpl in Hs. injection Hs as -> -> <-.
  replace (S c - 1) with c by lia.
  split; [by rewrite Hs'|]. split; [|done].
  intros i j Hj. by rewrite Hother.
Qed.

Lemma step_upper_bounds_next (dec : Dec) n_batch_ s_len_ (u u1 : T) b c :
  step_upper_bounds dec n_batch_ s_len_ (Some u) = Ok u1 →
  shape u = [b; c] →
  shape u1 = [b; c] ∧ ∀ i j, j ≠ c - 1 → entry u1 [i; j] = entry u [i; j].
Proof.
  unfold step_upper_bounds. intros Hu Hs.
  apply set_last_column_spec in Hu as (b' & c' & rest & Hs1 & Hs' & _ & Hother).
  rewrite Hs in Hs1. injection Hs1 as -> -> <-.
  replace (S c' - 1) with c' by lia.
  split; [congruence|]. intros i j Hj. by rewrite Hother.
Qed.

(** [a] is the weight tensor attention returned at the call recorded as
    [ev]: a call on the transposed memory bank, with a budget whose sink
    column is reset. *)
Definition attention_returned (dec : Dec) (context : T) (ev : Event R) (a : T) : Prop :=
  ∃ q context_t u w o w',
    transpose01 context = Ok context_t ∧
    ev = CallAttn q context_t u ∧
    sink_is_reset u ∧
    attn dec w q context_t u = ((o, a), w').

(** A successful step: the one attention call it makes, on the budget of
    lines 216-220, the weights [a] that call returns, the budget minus [a]
    that the step leaves, and [a] recorded under "std". *)
Lemma decoder_step_attention (dec : Dec) context n_batch_ s_len_ (ls ls' : Loop)
    emb_t (s s' : St) :
  decoder_step dec context n_batch_ s_len_ ls emb_t s = (Ok ls', s') →
  ∃ evs ev u1 a u2 l,
    trace s' = trace s ++ evs ∧
    List.filter is_attn evs = [ev] ∧
    attention_returned dec context ev a ∧
    (∃ q context_t, ev = CallAttn q context_t u1) ∧
    step_upper_bounds dec n_batch_ s_len_ (ls_upper_bounds ls) = Ok u1 ∧
    isub_ u1 a = Ok u2 ∧
    ls_upper_bounds ls' = Some u2 ∧
    ls_attns ls !! "std" = Some l ∧
    ls_attns ls' !! "std" = Some (l ++ [Recorded a]).
Proof.
  intros Hstep. unfold decoder_step in Hstep.
  m_inv; simpl; append_inv.
  all: repeat match goal with
       | Ht : trace ?x = _ |- context [trace ?x] => rewrite Ht; clear Ht
       end.
  all: rewrite <- ?app_assoc.
  all: match goal with
       | Hu : step_upper_bounds _ _ _ _ = Ok ?u1,
         Ha : attn _ ?w ?q ?ct ?u1 = ((?o, ?a), ?w'),
         Hs : isub_ ?u1 ?a = Ok ?u2 |- _ =>
           eexists _, (CallAttn q ct u1), u1, a, u2, _;
           split; [reflexivity|]; split; [reflexivity|]; split;
           [exists q, ct, u1, w, o, w'; repeat split; try done;
            by eapply step_upper_bounds_reset|];
           split; [by eauto|]; repeat split; try eassumption
       end.
  all: lookup_through; eassumption.
Qed.

(** The invariant of the loop when it starts without a budget: after the
    steps that recorded the weights [ws], the budget is the fertility with
    those weights subtracted, outside the sink column. *)
Definition budget_tracks (dec : Dec) (n_batch_ s_len_ : nat) (ws : list T) (ls : Loop)
    : Prop :=
  ls_attns ls !! "std" = Some (Recorded <$> ws) ∧
  match ws with
  | [] => ls_upper_bounds ls = None
  | _ => ∃ u, ls_upper_bounds ls = Some u ∧ shape u = [n_batch_; s_len_] ∧
              ∀ b j, j ≠ s_len_ - 1 → entry u [b; j] = spent (fertility dec) ws [b; j]
  end.

Lemma decoder_step_tracks (dec : Dec) context n_batch_ s_len_ ws (ls ls' : Loop)
    emb_t (s s' : St) :
  budget_tracks dec n_batch_ s_len_ ws ls →
  decoder_step dec context n_batch_ s_len_ ls emb_t s = (Ok ls', s') →
  ∃ a evs ev,
    trace s' = trace s ++ evs ∧
    List.filter is_attn evs = [ev] ∧
    attention_returned dec context ev a ∧
    budget_tracks dec n_batch_ s_len_ (ws ++ [a]) ls'.
Proof.
  intros [Hstd Hub] Hstep.
  apply decoder_step_attention in Hstep
    as (evs & ev & u1 & a & u2 & l & Htr & Hf & Hret & _ & Hu1 & Hsub & Hub' & Hl & Hl').
  apply isub__spec in Hsub as [Hshape Hentry].
  exists a, evs, ev. split; [done|]. split; [done|]. split; [done|]. split.
  { rewrite Hl', fmap_app. simpl. congruence. }
  assert (shape u1 = [n_batch_; s_len_] ∧
          ∀ b j, j ≠ s_len_ - 1 → entry u1 [b; j] = spent (fertility dec) ws [b; j])
    as [Hs1 He1].
  { destruct ws as [|w ws'].
    - rewrite Hub in Hu1. apply step_upper_bounds_fresh in Hu1 as (? & ? & _). done.
    - destruct Hub as (u & Hu & Hs & He). rewrite Hu in Hu1.
      eapply step_upper_bounds_next in Hu1 as [? Hsame]; [|done].
      split; [done|]. intros b j Hj. rewrite Hsame by done. by apply He. }
  assert (∃ u, ls_upper_bounds ls' = Some u ∧ shape u = [n_batch_; s_len_] ∧
               ∀ b j, j ≠ s_len_ - 1 →
                 entry u [b; j] = spent (fertility dec) (ws ++ [a]) [b; j]) as Hgoal.
  { exists u2. split; [done|]. split; [congruence|].
    intros b j Hj. unfold spent. rewrite foldl_app. simpl.
    rewrite Hentry. f_equal. by apply He1. }
  destruct (ws ++ [a]) eqn:E; [by destruct ws|]. done.
Qed.

Lemma Decoder_loop_tracks (dec : Dec) context n_batch_ s_len_ embs (ls0 ls : Loop)
    (s s' : St) :
  budget_tracks dec n_batch_ s_len_ [] ls0 →
  Decoder_loop dec context n_batch_ s_len_ ls0 embs s = (Ok ls, s') →
  ∃ ws evs,
    length ws = length embs ∧
    trace s' = trace s ++ evs ∧
    Forall2 (attention_returned dec context) (List.filter is_attn evs) ws ∧
    budget_tracks dec n_batch_ s_len_ ws ls.
Proof.
  intros H0' Hrun. unfold Decoder_loop in Hrun.
  apply (foldM_invariant
           (fun done (a : Loop) (s2 : St) =>
              ∃ ws evs,
                length ws = length done ∧
                trace s2 = trace s ++ evs ∧
                Forall2 (attention_returned dec context) (List.filter is_attn evs) ws ∧
                budget_tracks dec n_batch_ s_len_ ws a))
    in Hrun; [done| |].
  - exists [], []. rewrite app_nil_r.
    split; [done|]. split; [done|]. split; [constructor|exact H0'].
  - intros done em_t a s1 a' s2 (ws & evs & Hlen & Htr & Hall & Htracks) Hstep.
    destruct (decoder_step_tracks _ _ _ _ _ _ _ _ _ _ Htracks Hstep)
      as (w & evs' & ev & Htr' & Hf & Hret & Hw).
    exists (ws ++ [w]), (evs ++ evs'). rewrite !length_app, Hlen.
    split; [done|]. split; [by rewrite Htr', Htr, app_assoc|]. split; [|done].
    rewrite List.filter_app, Hf. apply Forall2_app; [done|]. by repeat constructor.
Qed.

(** C2: when no budget is supplied, the first step creates one of shape
    batch x source length filled with the fertility, its sink column then set
    to 100; and after any number [t >= 1] of steps the budget of every
    non-sink position is the fertility with the attention weights of steps
    1..t subtracted one by one, which is the fertility minus their sum as
    soon as the arithmetic obeys [(x - y) - z = x - (y + z)] and [x - 0 = x].
    The weights are the ones the attention calls of these steps returned, in
    the order of the calls, and the ones recorded under "std". *)
Theorem budget_is_fertility_minus_attention (dec : Dec) input src context state
    (s0 s1 s2 : St) n_batch_ s_len_ embs (ls0 ls : Loop) (t : nat) :
  decoder_setup dec input src context state None s0
    = (Ok (n_batch_, s_len_, embs, ls0), s1) →
  0 < t ≤ length embs →
  Decoder_loop dec context n_batch_ s_len_ ls0 (take t embs) s1 = (Ok ls, s2) →
  (∃ t_len d, shape input = [t_len; n_batch_] ∧ length embs = Nat.max 1 t_len ∧
              shape context = [s_len_; n_batch_; d]) ∧
  ∃ u0 u ws evs,
    step_upper_bounds dec n_batch_ s_len_ None = Ok u0 ∧
    shape u0 = [n_batch_; s_len_] ∧
    (∀ b j, j < s_len_ - 1 → entry u0 [b; j] = fertility dec) ∧
    (∀ b, entry u0 [b; s_len_ - 1] = s100) ∧
    ls_upper_bounds ls = Some u ∧
    shape u = [n_batch_; s_len_] ∧
    trace s2 = trace s1 ++ evs ∧
    Forall2 (attention_returned dec context) (List.filter is_attn evs) ws ∧
    ls_attns ls !! "std" = Some (Recorded <$> ws) ∧
    length ws = t ∧
    (∀ b j, j < s_len_ - 1 → entry u [b; j] = spent (fertility dec) ws [b; j]) ∧
    ((∀ x y z : R, ssub (ssub x y) z = ssub x (sadd y z)) →
     (∀ x : R, ssub x szero = x) →
     ∀ b j, j < s_len_ - 1 → entry u [b; j] = ssub (fertility dec) (total ws [b; j])).
Proof.
  intros Hsetup [Ht Hle] Hloop.
  apply decoder_setup_ok in Hsetup
    as (t_len & sl & d1 & d2 & d3 & st & feed & evs0 & Hin & _ & Hctx & _ & _ & _ & Hlen & -> & _).
  split; [by exists t_len, d2|].
  assert (budget_tracks dec n_batch_ s_len_ []
            (mkLoopState (squeeze0 feed) (hidden st) (squeeze0 <$> coverage st) None []
                         (init_attns dec))) as Hinit.
  { split; [|done]. simpl. unfold init_attns.
    repeat case_match; by simplify_map_eq. }
  destruct (Decoder_loop_tracks _ _ _ _ _ _ _ _ _ Hinit Hloop)
    as (ws & evs & Hws & Htr & Hret & Hstd & Hub).
  rewrite length_take, Nat.min_l in Hws by done.
  destruct ws as [|w ws']; [simpl in Hws; lia|].
  destruct Hub as (u & Hu & Hshape & Hentry).
  (* the first step ran, so the fresh budget could be built *)
  destruct (take t embs) as [|e1 rest] eqn:Htake.
  { apply (f_equal length) in Htake. rewrite length_take in Htake. simpl in Htake. lia. }
  unfold Decoder_loop in Hloop. simpl in Hloop.
  apply bind_ok_inv in Hloop as (ls1 & s1' & Hstep & _).
  apply decoder_step_budget in Hstep as (u0 & ? & ? & ? & Hu0 & _).
  simpl in Hu0.
  pose proof (step_upper_bounds_fresh _ _ _ _ Hu0) as (Hs0 & Hfill & Hsink).
  exists u0, u, (w :: ws'), evs.
  repeat split; try done.
  - intros b j Hj. apply Hfill. lia.
  - intros b j Hj. apply Hentry. lia.
  - intros Hsub Hzero b j Hj. rewrite Hentry by lia. by apply spent_total.
Qed.

(** ** Which exceptions a run can end in *)

Lemma bind_bind {A B C} (m : Mo A) (k : A → Mo B) (k' : B → Mo C) (s : St) :
  bind (bind m k) k' s = bind m (fun a => bind (k a) k') s.
Proof. unfold bind. destruct (m s) as [[a|e] s1]; reflexivity. Qed.

Lemma bind_lift_ok {A B} (a : A) (k : A → Mo B) (s : St) :
  bind (lift (Ok a)) k s = k a s.
Proof. reflexivity. Qed.

Lemma bind_lift_raise {A B} (e : Error) (k : A → Mo B) (s : St) :
  bind (lift (Raise e)) k s = (Raise e, s).
Proof. reflexivity. Qed.

Lemma bind_run_ok {A B} (m : Mo A) (k : A → Mo B) (s s1 : St) (a : A) :
  m s = (Ok a, s1) → bind m k s = k a s1.
Proof. unfold bind. by intros ->. Qed.

Lemma bind_run_raise {A B} (m : Mo A) (k : A → Mo B) (s s1 : St) (e : Error) :
  m s = (Raise e, s1) → bind m k s = (Raise e, s1).
Proof. unfold bind. by intros ->. Qed.

(** [m] never ends in an assertion failure. *)
Definition never_asserts {A} (m : Mo A) : Prop :=
  ∀ s, (m s).1 ≠ Raise AssertionError.

Lemma never_asserts_ret {A} (a : A) : never_asserts (ret a).
Proof. intros s. discriminate. Qed.

Lemma never_asserts_lift {A} (r : Res A) :
  r ≠ Raise AssertionError → never_asserts (lift r).
Proof. intros Hr s. done. Qed.

Lemma never_asserts_call {A} ev (f : World → A * World) : never_asserts (call ev f).
Proof. intros s. unfold call. destruct (f (world s)). discriminate. Qed.

Lemma never_asserts_bind {A B} (m : Mo A) (k : A → Mo B) :
  never_asserts m → (∀ a, never_asserts (k a)) → never_asserts (bind m k).
Proof.
  intros Hm Hk s. unfold bind. specialize (Hm s).
  destruct (m s) as [[a|e] s1]; simpl in *; [apply Hk | congruence].
Qed.

Lemma never_asserts_foldM {A B} (body : A → B → Mo A) (l : list B) :
  (∀ acc x, never_asserts (body acc x)) → ∀ acc, never_asserts (foldM body acc l).
Proof.
  intros Hb. induction l as [|x l IH]; intros acc; simpl.
  - apply never_asserts_ret.
  - apply never_asserts_bind; auto.
Qed.

(** The tensor operations raise index, key and runtime errors only. *)
Ltac no_assertion :=
  repeat (case_match; simpl); congruence.

Lemma expand_no_assertion (t : T) target : expand t target ≠ Raise AssertionError.
Proof. unfold expand. no_assertion. Qed.

Lemma set_last_column_no_assertion (t : T) v :
  set_last_column t v ≠ Raise AssertionError.
Proof. unfold set_last_column. no_assertion. Qed.

Lemma cat_no_assertion d (a b : T) : cat d a b ≠ Raise AssertionError.
Proof. unfold cat. no_assertion. Qed.

Lemma transpose01_no_assertion (t : T) : transpose01 t ≠ Raise AssertionError.
Proof. unfold transpose01. no_assertion. Qed.

Lemma isub__no_assertion (a b : T) : isub_ a b ≠ Raise AssertionError.
Proof. unfold isub_, expand. no_assertion. Qed.

Lemma tadd_no_assertion (a b : T) : tadd a b ≠ Raise AssertionError.
Proof. unfold tadd, expand. no_assertion. Qed.

Lemma tensor_bool_no_assertion (t : T) : tensor_bool t ≠ Raise AssertionError.
Proof. unfold tensor_bool. no_assertion. Qed.

Lemma append_attn_no_assertion k x (attns : gmap string (list (@AttnEntry R))) :
  append_attn k x attns ≠ Raise AssertionError.
Proof. unfold append_attn. no_assertion. Qed.

Lemma stack_no_assertion (l : list T) : stack l ≠ Raise AssertionError.
Proof. unfold stack. no_assertion. Qed.

Lemma stack_attns_no_assertion ub (attns : gmap string (list (@AttnEntry R))) :
  stack_attns ub attns ≠ Raise AssertionError.
Proof. unfold stack_attns. no_assertion. Qed.

Lemma decoder_step_never_asserts (dec : Dec) context n_batch_ s_len_ ls emb_t :
  never_asserts (decoder_step dec context n_batch_ s_len_ ls emb_t).
Proof.
  unfold decoder_step, step_upper_bounds, coverage_truth, dropout.
  repeat first
    [ apply never_asserts_ret
    | apply never_asserts_call
    | apply never_asserts_lift;
      first [ apply set_last_column_no_assertion | apply cat_no_assertion
            | apply transpose01_no_assertion | apply isub__no_assertion
            | apply tadd_no_assertion | apply tensor_bool_no_assertion
            | apply append_attn_no_assertion | discriminate ]
    | apply never_asserts_bind; [|intros ?]
    | case_match ].
Qed.

Lemma decoder_finish_never_asserts (ls : Loop) : never_asserts (decoder_finish ls).
Proof.
  unfold decoder_finish.
  apply never_asserts_bind; [apply never_asserts_lift, stack_no_assertion|]. intros ?.
  apply never_asserts_bind; [apply never_asserts_lift, stack_attns_no_assertion|]. intros ?.
  apply never_asserts_ret.
Qed.

Lemma aeq3_raise (a b c : nat) :
  ¬ (b = a ∧ c = a) → aeq [a; b; c] = Raise AssertionError.
Proof.
  intros Hne. unfold aeq. simpl.
  destruct (Nat.eqb_spec a b), (Nat.eqb_spec a c); simpl; try done.
  destruct Hne. by subst.
Qed.

Lemma aeq2_raise (a b : nat) : b ≠ a → aeq [a; b] = Raise AssertionError.
Proof.
  intros Hne. unfold aeq. simpl. destruct (Nat.eqb_spec a b); [by subst|done].
Qed.

Lemma aeq_same (a : nat) (n : nat) : aeq (replicate (S n) a) = Ok ().
Proof.
  unfold aeq. simpl. induction n as [|n IH]; [done|]. simpl.
  rewrite Nat.eqb_refl. simpl. exact IH.
Qed.

(** C3: for a two-dimensional target input and a three-dimensional source
    and memory bank, the decoder (1) raises an assertion error, having called
    no sub-module at all, unless their three batch sizes agree; once the
    embedding of the input is through, it (2) raises an assertion error if
    the state is not the recurrent variant and (3) if the batch size of the
    state's input feed differs, in both cases before any call of the
    recurrent cell or of attention; a call with a non-recurrent state never
    returns; and (4) when all four batch sizes agree the call does not end
    in an assertion error. *)
Theorem decoder_assertions (dec : Dec) input src context state upper_bounds (s : St)
    t_len nb nb1 nb2 sl1 sl2 d1 d2 :
  shape input = [t_len; nb] →
  shape src = [sl1; nb1; d1] →
  shape context = [sl2; nb2; d2] →
  let run := Decoder_forward dec input src context state upper_bounds s in
  (¬ (nb1 = nb ∧ nb2 = nb) → run = (Raise AssertionError, s)) ∧
  (∀ st, state = TransformerState st → is_ok run.1 = false) ∧
  (nb1 = nb → nb2 = nb →
   ∀ emb s1,
     Embeddings_forward (dec_embeddings dec) (unsqueeze 2 input) s = (Ok emb, s1) →
     count is_rnn (drop (length (trace s)) (trace s1)) = 0 ∧
     count is_attn (drop (length (trace s)) (trace s1)) = 0 ∧
     (∀ st, state = TransformerState st → run = (Raise AssertionError, s1)) ∧
     (∀ st feed nb3 d3,
        state = RNNState st → input_feed st = Some feed →
        shape (squeeze0 feed) = [nb3; d3] →
        (nb3 ≠ nb → run = (Raise AssertionError, s1)) ∧
        (nb3 = nb → run.1 ≠ Raise AssertionError))).
Proof.
  intros Hin Hsrc Hctx run. subst run.
  unfold Decoder_forward, decoder_setup.
  rewrite !bind_bind, Hin. cbn [unpack2]. rewrite bind_lift_ok.
  rewrite !bind_bind, Hsrc. cbn [unpack3]. rewrite bind_lift_ok.
  rewrite !bind_bind, Hctx. cbn [unpack3]. rewrite bind_lift_ok.
  rewrite !bind_bind.
  split; [|split].
  - intros Hne. by rewrite (aeq3_raise _ _ _ Hne), bind_lift_raise.
  - intros st ->.
    destruct (aeq [nb; nb1; nb2]) as [[]|e]; [|done].
    rewrite bind_lift_ok, !bind_bind.
    destruct (Embeddings_forward (dec_embeddings dec) (unsqueeze 2 input) s)
      as [[emb|e] s1] eqn:Hemb.
    + by rewrite (bind_run_ok _ _ _ _ _ Hemb).
    + by rewrite (bind_run_raise _ _ _ _ _ Hemb).
  - intros -> -> emb s1 Hemb.
    rewrite (aeq_same nb 2 : aeq [nb; nb; nb] = Ok ()), bind_lift_ok, !bind_bind.
    rewrite (bind_run_ok _ _ _ _ _ Hemb).
    destruct (Embeddings_forward_emits
                (fun ev => is_attn ev = false ∧ is_rnn ev = false)
                (dec_embeddings dec) (unsqueeze 2 input)
                ltac:(done) ltac:(done) s) as (evs & Htr & Hevs).
    rewrite Hemb in Htr. simpl in Htr. rewrite Htr, drop_app_length.
    split; [|split; [|split]].
    + apply count_none. eapply Forall_impl; [done|]. by intros ? [? ?].
    + apply count_none. eapply Forall_impl; [done|]. by intros ? [? ?].
    + by intros st ->.
    + intros st feed nb3 d3 -> Hfeed Hshape. cbn [assert_RNNDecoderState].
      rewrite !bind_bind, bind_lift_ok, !bind_bind, Hfeed, bind_lift_ok.
      rewrite !bind_bind, Hshape. cbn [unpack2]. rewrite bind_lift_ok, !bind_bind.
      split.
      * intros Hne. by rewrite (aeq2_raise _ _ Hne), bind_lift_raise.
      * intros ->. rewrite (aeq_same nb 1 : aeq [nb; nb] = Ok ()), bind_lift_ok.
        apply (never_asserts_bind
                 (Decoder_loop dec context nb sl2
                    (mkLoopState (squeeze0 feed) (hidden st) (squeeze0 <$> coverage st)
                                 upper_bounds [] (init_attns dec))
                    (split1 emb))
                 decoder_finish).
        -- apply never_asserts_foldM. intros. apply decoder_step_never_asserts.
        -- apply decoder_finish_never_asserts.
Qed.

(** ** What a step leaves in the loop variables *)

(** [nn.Dropout] applied to [x] in world [w]. *)
Definition dropped (w : World) (x : T) : T :=
  mkTensor (shape x) (fun idx => dropout_entry w idx (entry x idx)).

(** The recurrent state after a step is what the stacked cell returned, the
    output is the attention output, gated when a context gate is configured,
    after dropout, and the budget is the one handed to attention minus the
    weights attention returned. *)
Lemma decoder_step_results (dec : Dec) context n_batch_ s_len_ (ls ls' : Loop)
    emb_t (s s' : St) :
  decoder_step dec context n_batch_ s_len_ ls emb_t s = (Ok ls', s') →
  ∃ e w1 w2 rnn_output context_t u1 w3 w4 attn_output a u2 pre wd l,
    rnn dec w1 e (ls_hidden ls) = ((rnn_output, ls_hidden ls'), w2) ∧
    step_upper_bounds dec n_batch_ s_len_ (ls_upper_bounds ls) = Ok u1 ∧
    attn dec w3 rnn_output context_t u1 = ((attn_output, a), w4) ∧
    isub_ u1 a = Ok u2 ∧
    ls_upper_bounds ls' = Some u2 ∧
    match context_gate dec with
    | None => pre = attn_output
    | Some gate => ∃ w5 w6, gate w5 e rnn_output attn_output = (pre, w6)
    end ∧
    ls_output ls' = dropped wd pre ∧
    ls_outputs ls' = ls_outputs ls ++ [ls_output ls'] ∧
    ls_attns ls !! "std" = Some l ∧
    ls_attns ls' !! "std" = Some (l ++ [Recorded a]) ∧
    transpose01 context = Ok context_t.
Proof.
  intros Hstep. unfold decoder_step in Hstep.
  m_inv; simpl; append_inv.
  all: repeat match goal with
       | Hd : (_, _) = (_, _) |- _ => injection Hd as <- ?
       end.
  all: do 14 eexists.
  all: split; [eassumption|]; split; [eassumption|]; split; [eassumption|].
  all: split; [eassumption|]; split; [reflexivity|].
  all: split; [first [reflexivity | do 2 eexists; eassumption]|].
  all: split; [reflexivity|]; split; [reflexivity|].
  all: split; [eassumption|]; split; [lookup_through; eassumption|]; eassumption.
Qed.

(** How a step updates the coverage: untouched when coverage is off;
    otherwise it becomes the weights of the step, added to the previous
    coverage when that previous coverage is a tensor Python finds true. *)
Lemma decoder_step_coverage (dec : Dec) context n_batch_ s_len_ (ls ls' : Loop)
    emb_t (s s' : St) :
  decoder_step dec context n_batch_ s_len_ ls emb_t s = (Ok ls', s') →
  if _coverage dec then
    ∃ a c l lc,
      ls_attns ls !! "std" = Some l ∧
      ls_attns ls' !! "std" = Some (l ++ [Recorded a]) ∧
      ls_coverage ls' = Some c ∧
      ls_attns ls !! "coverage" = Some lc ∧
      ls_attns ls' !! "coverage" = Some (lc ++ [Recorded c]) ∧
      match ls_coverage ls with
      | None => c = a
      | Some c0 => (tensor_bool c0 = Ok true ∧ tadd c0 a = Ok c)
                   ∨ (tensor_bool c0 = Ok false ∧ c = a)
      end
  else ls_coverage ls' = ls_coverage ls.
Proof.
  intros Hstep. unfold decoder_step in Hstep.
  m_inv; simpl; append_inv; try reflexivity.
  all: do 4 eexists.
  all: split; [eassumption|]; split; [lookup_through; eassumption|].
  all: split; [reflexivity|].
  all: split;
    [match goal with
     | Ho : ∀ k', "std" ≠ k' → ?m !! k' = ls_attns _ !! k' |- _ =>
         rewrite <- (Ho "coverage") by done; eassumption
     end|].
  all: split; [lookup_through; eassumption|].
  all: simpl in *; first [reflexivity | left; split; assumption | right; split; done].
Qed.

(** ** The returned state *)

Lemma stack_spec (l : list T) (outs : T) :
  stack l = Ok outs →
  ∃ t l', l = t :: l' ∧ shape outs = length l :: shape t ∧
          (∀ u, In u l → shape u = shape t) ∧
          ∀ i idx, entry outs (i :: idx) = entry (nth i l t) idx.
Proof.
  unfold stack. destruct l as [|t l']; [discriminate|].
  destruct (forallb _ _) eqn:Hall; [|discriminate]. intros [= <-].
  exists t, l'. repeat split; try done.
  intros u Hu. rewrite forallb_forall in Hall.
  specialize (Hall u Hu). unfold list_eqb in Hall.
  by apply bool_decide_eq_true in Hall.
Qed.

(** The loop over a non-empty list ends with a step on its last element. *)
Lemma Decoder_loop_last (dec : Dec) context n_batch_ s_len_ embs (ls0 ls : Loop)
    (s s' : St) :
  Decoder_loop dec context n_batch_ s_len_ ls0 embs s = (Ok ls, s') →
  0 < length embs →
  ∃ init emb_T ls_prev s_prev,
    embs = init ++ [emb_T] ∧
    Decoder_loop dec context n_batch_ s_len_ ls0 init s = (Ok ls_prev, s_prev) ∧
    decoder_step dec context n_batch_ s_len_ ls_prev emb_T s_prev = (Ok ls, s').
Proof.
  intros Hrun Hlen. unfold Decoder_loop in *.
  destruct embs as [|x embs'] using rev_ind; [simpl in Hlen; lia|]. clear IHembs'.
  rewrite foldM_app in Hrun.
  apply bind_ok_inv in Hrun as (ls_prev & s_prev & Hinit & Hlast).
  simpl in Hlast. apply bind_ok_inv in Hlast as (ls' & s1 & Hstep & Hret).
  apply ret_ok_inv in Hret as [-> ->].
  by exists embs', x, ls_prev, s_prev.
Qed.

(** With coverage off, the loop leaves the coverage variable alone. *)
Lemma Decoder_loop_coverage_off (dec : Dec) context n_batch_ s_len_ embs
    (ls0 ls : Loop) (s s' : St) :
  _coverage dec = false →
  Decoder_loop dec context n_batch_ s_len_ ls0 embs s = (Ok ls, s') →
  ls_coverage ls = ls_coverage ls0.
Proof.
  intros Hoff Hrun. unfold Decoder_loop in Hrun.
  apply (foldM_invariant
           (fun _ (a : Loop) (_ : St) => ls_coverage a = ls_coverage ls0))
    in Hrun; [done|done|].
  intros done x a s1 a' s2 Ha Hstep.
  apply decoder_step_coverage in Hstep. rewrite Hoff in Hstep. congruence.
Qed.

(** C4 (as amended): a decoder call that returns has run one step per target
    position (T steps for T >= 1 positions, and one step, on the single empty
    chunk, for a target without positions), and the state it returns is the recurrent
    variant holding: the state the stacked cell returned in the last step;
    as input feed the output of the last step (the attention output, gated
    if a gate is configured, after dropout), which is also the last slice of
    the returned outputs; as coverage the coverage accumulated by the last
    step when coverage is on, and the coverage of the incoming state carried
    through when it is off (so [None] exactly when the incoming state has
    none); and as fertility budget the budget left by the last step, which
    is also the fourth result. *)
Theorem decoder_returned_state (dec : Dec) input src context state upper_bounds
    (s s' : St) outs st attns ub :
  Decoder_forward dec input src context state upper_bounds s
    = (Ok (outs, st, attns, ub), s') →
  ∃ n_batch_ s_len_ init emb_T ls0 s1 ls_prev s_prev ls st_in,
    decoder_setup dec input src context state upper_bounds s
      = (Ok (n_batch_, s_len_, init ++ [emb_T], ls0), s1) ∧
    S (length init) = Nat.max 1 (hd 0 (shape input)) ∧
    Decoder_loop dec context n_batch_ s_len_ ls0 init s1 = (Ok ls_prev, s_prev) ∧
    decoder_step dec context n_batch_ s_len_ ls_prev emb_T s_prev = (Ok ls, s') ∧
    state = RNNState st_in ∧
    st = RNNState (mkRNNDecoderState
                     (ls_hidden ls)
                     (Some (unsqueeze 0 (ls_output ls)))
                     (unsqueeze 0 <$> ls_coverage ls)
                     ub
                     ((Some <$> ls_hidden ls) ++ [Some (unsqueeze 0 (ls_output ls))])) ∧
    (∃ e w w' o, rnn dec w e (ls_hidden ls_prev) = ((o, ls_hidden ls), w')) ∧
    (∃ e w w' o attn_output pre wd,
       ls_output ls = dropped wd pre ∧
       match context_gate dec with
       | None => pre = attn_output
       | Some gate => gate w e o attn_output = (pre, w')
       end) ∧
    shape outs = S (length init) :: shape (ls_output ls) ∧
    (∀ idx, entry outs (length init :: idx) = entry (ls_output ls) idx) ∧
    (if _coverage dec
     then ∃ c lc, ls_coverage ls = Some c ∧
                  ls_attns ls !! "coverage" = Some (lc ++ [Recorded c])
     else ls_coverage ls = squeeze0 <$> coverage st_in) ∧
    (∃ u1 a u2,
       step_upper_bounds dec n_batch_ s_len_ (ls_upper_bounds ls_prev) = Ok u1 ∧
       isub_ u1 a = Ok u2 ∧ ub = Some u2).
Proof.
  intros Hrun.
  apply Decoder_forward_ok in Hrun
    as (nb & sl & embs & ls0 & s1 & ls & Hsetup & Hloop & Hfin).
  apply decoder_finish_ok in Hfin as (_ & Hstack & _ & Hub & Hst).
  pose proof (Decoder_loop_steps _ _ _ _ _ _ _ _ _ Hloop) as (Hlen & _ & _).
  pose proof (decoder_setup_ok _ _ _ _ _ _ _ _ _ _ _ _ Hsetup)
    as (t_len & ? & ? & ? & ? & st_in & feed & ? & Hin & _ & _ & Hstate & _ & _ & Hembs & Hls0 & _).
  pose proof (stack_spec _ _ Hstack) as (o1 & os & Houts & Hshape & Hsame & Hentry).
  assert (0 < length embs) as Hpos.
  { rewrite Hls0 in Hlen. simpl in Hlen. rewrite Houts in Hlen. simpl in Hlen. lia. }
  destruct (Decoder_loop_last _ _ _ _ _ _ _ _ _ Hloop Hpos)
    as (init & emb_T & ls_prev & s_prev & -> & Hinit & Hstep).
  pose proof (decoder_step_results _ _ _ _ _ _ _ _ _ Hstep)
    as (e & w1 & w2 & o & ctx_t & u1 & w3 & w4 & ao & a & u2 & pre & wd & l
        & Hrnn & Hu1 & _ & Hsub & Hub' & Hgate & Hout & Houtputs & _).
  pose proof (Decoder_loop_steps _ _ _ _ _ _ _ _ _ Hinit) as (Hlen' & _ & _).
  rewrite Hls0 in Hlen'. simpl in Hlen'.
  exists nb, sl, init, emb_T, ls0, s1, ls_prev, s_prev, ls, st_in.
  rewrite length_app in Hembs. simpl in Hembs.
  split; [done|]. split; [rewrite Hin; simpl; lia|].
  split; [done|]. split; [done|]. split; [done|].
  split; [by rewrite Hst, Hub|].
  split; [by exists e, w1, w2, o|].
  split.
  { destruct (context_gate dec) as [gate|].
    - destruct Hgate as (w5 & w6 & Hgate). by exists e, w5, w6, o, ao, pre, wd.
    - by exists e, w1, w1, o, ao, pre, wd. }
  assert (length (ls_outputs ls) = S (length init)) as Hn.
  { rewrite Houtputs, length_app, Hlen'. simpl. lia. }
  split.
  { rewrite Hshape, Hn. f_equal. symmetry. apply Hsame.
    rewrite Houtputs. apply in_or_app. right. by left. }
  split.
  { intros idx. rewrite Hentry, Houtputs.
    rewrite app_nth2 by lia. by rewrite Hlen', Nat.sub_diag. }
  split.
  { pose proof (decoder_step_coverage _ _ _ _ _ _ _ _ _ Hstep) as Hcov.
    destruct (_coverage dec) eqn:Hc.
    - destruct Hcov as (a' & c & l' & lc & _ & _ & Hc' & _ & Hlc & _). by exists c, lc.
    - rewrite Hcov.
      rewrite (Decoder_loop_coverage_off _ _ _ _ _ _ _ _ _ Hc Hinit).
      by rewrite Hls0. }
  exists u1, a, u2. by rewrite Hub, Hub'.
Qed.

(** ** The keys of the attention dictionary *)

Lemma stack_attns_dom ub (m : gmap string (list (@AttnEntry R))) (attns : gmap string T) :
  stack_attns ub m = Ok attns → dom attns = dom m.
Proof.
  unfold stack_attns. case_bool_decide as Hdom; [|discriminate]. by intros [= <-].
Qed.

(** The keys the options call for. *)
Definition configured_keys (opt : Options) : gset string :=
  {["std"]}
  ∪ (if opt_copy_attn opt then {["copy"]} else ∅)
  ∪ (if opt_coverage_attn opt then {["coverage"]} else ∅)
  ∪ (if opt_exhaustion_loss opt then {["upper_bounds"]} else ∅).

Lemma init_attns_dom (opt : Options) (lib : @DecoderModules R World) (emb : Emb) :
  dom (init_attns (Decoder_init opt lib emb)) = configured_keys opt.
Proof.
  unfold init_attns, configured_keys, Decoder_init. simpl.
  destruct (opt_copy_attn opt), (opt_coverage_attn opt), (opt_exhaustion_loss opt);
    rewrite ?dom_insert_L, dom_singleton_L; set_solver.
Qed.

(** ** The exceptions [Decoder.forward] can end in *)

(** [m] raises nothing but exceptions satisfying [P]. *)
Definition raises_only {A} (P : Error → Prop) (m : Mo A) : Prop :=
  ∀ s e, (m s).1 = Raise e → P e.

Lemma raises_only_ret {A} P (a : A) : raises_only P (ret a).
Proof. intros s e. discriminate. Qed.

Lemma raises_only_lift {A} (P : Error → Prop) (r : Res A) :
  (∀ e, r = Raise e → P e) → raises_only P (lift r).
Proof. intros Hr s e. cbn. apply Hr. Qed.

Lemma raises_only_call {A} P ev (f : World → A * World) : raises_only P (call ev f).
Proof. intros s e. unfold call. destruct (f (world s)). discriminate. Qed.

Lemma raises_only_bind {A B} P (m : Mo A) (k : A → Mo B) :
  raises_only P m →
  (∀ a s s1, m s = (Ok a, s1) → raises_only P (k a)) →
  raises_only P (bind m k).
Proof.
  intros Hm Hk s e. unfold bind. specialize (Hm s).
  destruct (m s) as [[a|e'] s1] eqn:E.
  - apply (Hk a s s1 E).
  - cbn in *. intros [= ->]. by apply Hm.
Qed.

Lemma raises_only_foldM {A B} P (I : A → Prop) (body : A → B → Mo A) (l : list B) :
  (∀ acc x, I acc → raises_only P (body acc x)) →
  (∀ acc x s acc' s', I acc → body acc x s = (Ok acc', s') → I acc') →
  ∀ acc, I acc → raises_only P (foldM body acc l).
Proof.
  intros Hb Hpres. induction l as [|x l IH]; intros acc Hacc; cbn [foldM].
  - apply raises_only_ret.
  - apply raises_only_bind; [by apply Hb|]. intros acc' s s1 Hrun.
    apply IH. by eapply Hpres.
Qed.

(** The exceptions of the tensor library: a size unpacked into the wrong
    number of names, an index out of range, shapes that do not fit. *)
Definition library_error (e : Error) : Prop :=
  e = ValueError ∨ e = IndexError ∨ e = RuntimeError.

Ltac library_errors :=
  intros; unfold library_error;
  repeat match goal with
         | H : context [match ?x with _ => _ end] |- _ => destruct x eqn:?; simplify_eq
         | H : context [if ?x then _ else _] |- _ => destruct x eqn:?; simplify_eq
         end;
  simplify_eq; auto.

Lemma expand_errors (t : T) target e : expand t target = Raise e → library_error e.
Proof. unfold expand. library_errors. Qed.

Lemma set_last_column_errors (t : T) v e :
  set_last_column t v = Raise e → library_error e.
Proof. unfold set_last_column. library_errors. Qed.

Lemma cat_errors d (a b : T) e : cat d a b = Raise e → library_error e.
Proof. unfold cat. library_errors. Qed.

Lemma transpose01_errors (t : T) e : transpose01 t = Raise e → library_error e.
Proof. unfold transpose01. library_errors. Qed.

Lemma isub__errors (a b : T) e : isub_ a b = Raise e → library_error e.
Proof.
  unfold isub_. destruct (expand b (shape a)) eqn:E; [discriminate|].
  cbn. intros [= <-]. by eapply expand_errors.
Qed.

Lemma tadd_errors (a b : T) e : tadd a b = Raise e → library_error e.
Proof.
  unfold tadd. destruct (bshape _ _); [|library_errors].
  destruct (expand a l) eqn:Ea; cbn; [|intros [= <-]; by eapply expand_errors].
  destruct (expand b l) eqn:Eb; cbn; [discriminate|intros [= <-]; by eapply expand_errors].
Qed.

Lemma tensor_bool_errors (t : T) e : tensor_bool t = Raise e → library_error e.
Proof. unfold tensor_bool. library_errors. Qed.

Lemma stack_errors (l : list T) e : stack l = Raise e → library_error e.
Proof. unfold stack. library_errors. Qed.

Lemma stack_attns_errors ub (m : gmap string (list (@AttnEntry R))) e :
  stack_attns ub m = Raise e → library_error e.
Proof. unfold stack_attns. library_errors. Qed.

Lemma init_attns_keys (dec : Dec) :
  "std" ∈ dom (init_attns dec) ∧
  (_copy dec = true → "copy" ∈ dom (init_attns dec)) ∧
  (_coverage dec = true → "coverage" ∈ dom (init_attns dec)) ∧
  (exhaustion_loss dec = true → "upper_bounds" ∈ dom (init_attns dec)).
Proof.
  unfold init_attns.
  destruct (_copy dec), (_coverage dec), (exhaustion_loss dec).
  all: repeat split; intros; try discriminate.
  all: apply elem_of_dom; simplify_map_eq; eauto.
Qed.

Lemma append_attn_present k x (attns : gmap string (list (@AttnEntry R))) :
  k ∈ dom attns → ∀ e, append_attn k x attns = Raise e → library_error e.
Proof.
  intros [l Hl]%elem_of_dom e. unfold append_attn. rewrite Hl. discriminate.
Qed.

Lemma dropout_raises_only P (x : T) : raises_only P (dropout x).
Proof. apply raises_only_call. Qed.

(** A step raises only library errors as long as every list it appends to is
    in the dictionary and the copy attention exists when it is switched on. *)
Lemma decoder_step_errors (dec : Dec) context n_batch_ s_len_ (ls : Loop) emb_t :
  (_copy dec = true → is_Some (copy_attn dec)) →
  dom (ls_attns ls) = dom (init_attns dec) →
  raises_only library_error (decoder_step dec context n_batch_ s_len_ ls emb_t).
Proof.
  intros Hcopy Hdom. destruct (init_attns_keys dec) as (Kstd & Kcopy & Kcov & Kub).
  unfold decoder_step.
  apply raises_only_bind.
  { apply raises_only_lift. unfold step_upper_bounds. apply set_last_column_errors. }
  intros u _ _ _.
  apply raises_only_bind.
  { destruct (dec_input_feed dec); [|apply raises_only_ret].
    apply raises_only_lift, cat_errors. }
  intros e _ _ _.
  apply raises_only_bind; [apply raises_only_call|]. intros [rnn_output hidden'] _ _ _.
  apply raises_only_bind; [apply raises_only_lift, transpose01_errors|].
  intros context_t _ _ _.
  apply raises_only_bind; [apply raises_only_call|]. intros [attn_output a] _ _ _.
  apply raises_only_bind; [apply raises_only_lift, isub__errors|]. intros u' _ _ _.
  apply raises_only_bind.
  { destruct (context_gate dec); [|apply dropout_raises_only].
    apply raises_only_bind; [apply raises_only_call|]. intros o _ _ _.
    apply dropout_raises_only. }
  intros output _ _ _.
  apply raises_only_bind.
  { apply raises_only_lift, append_attn_present. by rewrite Hdom. }
  intros attns1 s1 s1' H1. apply lift_ok_inv in H1 as [H1 _].
  apply append_attn_facts in H1 as (Hd1 & _). rewrite Hdom in Hd1.
  apply raises_only_bind.
  { destruct (_coverage dec); [|apply raises_only_ret].
    apply raises_only_bind.
    { apply raises_only_lift. unfold coverage_truth.
      destruct (ls_coverage ls); [apply tensor_bool_errors|discriminate]. }
    intros b _ _ _.
    apply raises_only_bind.
    { destruct (ls_coverage ls), b; try apply raises_only_ret.
      apply raises_only_lift, tadd_errors. }
    intros c _ _ _.
    apply raises_only_bind; [|intros; apply raises_only_ret].
    apply raises_only_lift, append_attn_present. rewrite Hd1. by apply Kcov. }
  intros p s2 s2' H2.
  assert (Hd2 : dom p.2 = dom (init_attns dec)).
  { destruct (_coverage dec); m_inv; append_inv; cbn [snd]; congruence. }
  clear H2. destruct p as [cov attns2]. cbn [snd] in Hd2.
  apply raises_only_bind.
  { destruct (_copy dec); [|apply raises_only_ret].
    destruct (Hcopy eq_refl) as [copy ->].
    apply raises_only_bind; [apply raises_only_call|]. intros [? ca] _ _ _.
    apply raises_only_lift, append_attn_present. rewrite Hd2. by apply Kcopy. }
  intros attns3 s3 s3' H3.
  assert (Hd3 : dom attns3 = dom (init_attns dec)).
  { destruct (_copy dec); m_inv; append_inv; congruence. }
  clear H3.
  apply raises_only_bind; [|intros; apply raises_only_ret].
  destruct (exhaustion_loss dec); [|apply raises_only_ret].
  apply raises_only_lift, append_attn_present. rewrite Hd3. by apply Kub.
Qed.

Lemma lookup_errors (E : Emb) (idx : Tensor Z) :
  raises_only library_error (lookup E idx).
Proof.
  unfold lookup. destruct (forallb _ _); [apply raises_only_call|].
  apply raises_only_bind; [apply raises_only_call|]. intros _ _ _ _.
  apply raises_only_lift. intros e [= <-]. unfold library_error. auto.
Qed.

Lemma Embeddings_forward_errors (E : Emb) (x : Tensor Z) :
  raises_only library_error (Embeddings_forward E x).
Proof.
  unfold Embeddings_forward.
  apply raises_only_bind.
  { apply raises_only_lift. unfold select_feat0. library_errors. }
  intros idx _ _ _.
  apply raises_only_bind; [apply lookup_errors|]. intros word _ _ _.
  destruct (positional_encoding E); [|apply raises_only_ret].
  apply raises_only_bind.
  { apply raises_only_lift. unfold size_at. library_errors. }
  intros n0 _ _ _.
  apply raises_only_bind.
  { apply raises_only_lift. unfold size_at. library_errors. }
  intros n2 _ _ _.
  apply raises_only_bind; [apply raises_only_lift, expand_errors|]. intros p _ _ _.
  apply raises_only_bind; [apply raises_only_lift, tadd_errors|]. intros emb _ _ _.
  apply dropout_raises_only.
Qed.

Lemma raises_only_weaken {A} (P Q : Error → Prop) (m : Mo A) :
  (∀ e, P e → Q e) → raises_only P m → raises_only Q m.
Proof. intros HPQ Hm s e He. apply HPQ. by eapply Hm. Qed.

(** What a call of the decoder can end in: an assertion error of its checks,
    an error of the tensor library, or, when the state has no input feed, the
    [AttributeError] of reading it. *)
Definition decoder_error (state : DecoderState T) (e : Error) : Prop :=
  e = AssertionError ∨ e = ValueError ∨ e = IndexError ∨ e = RuntimeError ∨
  (e = AttributeError ∧ ∃ st, state = RNNState st ∧ input_feed st = None).

Lemma Decoder_forward_raises (opt : Options) (lib : @DecoderModules R World)
    (emb : Emb) input src context state upper_bounds :
  raises_only (decoder_error state)
    (Decoder_forward (Decoder_init opt lib emb) input src context state upper_bounds).
Proof.
  set (dec := Decoder_init opt lib emb).
  set (P := decoder_error state).
  assert (Hlib : ∀ e, library_error e → P e).
  { intros e' [-> | [-> | ->]]; unfold P, decoder_error; auto. }
  unfold Decoder_forward.
  apply raises_only_bind.
  { unfold decoder_setup.
    apply raises_only_bind.
    { apply raises_only_lift. intros e He. apply Hlib. revert He. unfold unpack2.
      library_errors. }
    intros [t_len n_batch] _ _ _.
    apply raises_only_bind.
    { apply raises_only_lift. intros e He. apply Hlib. revert He. unfold unpack3.
      library_errors. }
    intros [[s_len n_batch_] ?] _ _ _.
    apply raises_only_bind.
    { apply raises_only_lift. intros e He. apply Hlib. revert He. unfold unpack3.
      library_errors. }
    intros [[s_len_ n_batch__] ?] _ _ _.
    apply raises_only_bind.
    { apply raises_only_lift. intros e He. left. revert He. unfold aeq.
      destruct (forallb _ _); congruence. }
    intros _ _ _ _.
    apply raises_only_bind.
    { eapply raises_only_weaken; [exact Hlib|apply Embeddings_forward_errors]. }
    intros em _ _ _.
    apply raises_only_bind.
    { apply raises_only_lift. intros e He. left. destruct state; cbn in He; congruence. }
    intros st s1 s1' Hst. apply lift_ok_inv in Hst as [Hst _].
    destruct state as [st0|]; [|discriminate]. injection Hst as ->.
    apply raises_only_bind.
    { apply raises_only_lift. intros e He. do 4 right.
      destruct (input_feed st) eqn:Ef; [discriminate|]. injection He as <-. eauto. }
    intros feed _ _ _.
    apply raises_only_bind.
    { apply raises_only_lift. intros e He. apply Hlib. revert He. unfold unpack2.
      library_errors. }
    intros [nb ?] _ _ _.
    apply raises_only_bind; [|intros; apply raises_only_ret].
    apply raises_only_lift. intros e He. left. revert He. unfold aeq.
    destruct (forallb _ _); congruence. }
  intros [[[n_batch_ s_len_] embs] ls0] s0 s1 Hsetup.
  apply decoder_setup_ok in Hsetup
    as (? & ? & ? & ? & ? & st0 & feed & ? & _ & _ & _ & _ & _ & _ & _ & -> & _).
  apply raises_only_bind.
  { eapply raises_only_weaken; [exact Hlib|]. unfold Decoder_loop.
    apply (raises_only_foldM _ (fun a : Loop => dom (ls_attns a) = dom (init_attns dec))).
    - intros acc em_t Hacc. apply decoder_step_errors; [|done].
      subst dec. cbn [_copy copy_attn Decoder_init]. by intros ->.
    - intros acc em_t s2 acc' s3 Hacc Hstep.
      apply decoder_step_budget in Hstep as (? & ? & ? & ? & _ & _ & _ & _ & _ & _ & Hd).
      congruence.
    - done. }
  intros ls _ _ _. unfold decoder_finish.
  apply raises_only_bind.
  { apply raises_only_lift. intros e He. by apply stack_errors, Hlib in He. }
  intros outs _ _ _.
  apply raises_only_bind; [|intros; apply raises_only_ret].
  apply raises_only_lift. intros e He. by apply stack_attns_errors, Hlib in He.
Qed.

(** C6: the attention dictionary a decoder call returns has the key "std",
    and has "copy", "coverage" and "upper_bounds" exactly when copy
    attention, coverage and the exhaustion loss are configured; with none of
    them configured "std" is its only key.  The lists the loop appends to
    under these keys are the ones [__init__]'s flags put into the dictionary:
    whatever is configured, no call ends in a [KeyError]. *)
Theorem attention_map_keys (opt : Options) (lib : @DecoderModules R World) (emb : Emb)
    input src context state upper_bounds (s : St) :
  let run := Decoder_forward (Decoder_init opt lib emb) input src context state
               upper_bounds s in
  run.1 ≠ Raise KeyError ∧
  ∀ outs st attns ub s',
    run = (Ok (outs, st, attns, ub), s') →
    dom attns = configured_keys opt ∧
    "std" ∈ dom attns ∧
    ("copy" ∈ dom attns ↔ opt_copy_attn opt = true) ∧
    ("coverage" ∈ dom attns ↔ opt_coverage_attn opt = true) ∧
    ("upper_bounds" ∈ dom attns ↔ opt_exhaustion_loss opt = true) ∧
    (opt_copy_attn opt = false → opt_coverage_attn opt = false →
     opt_exhaustion_loss opt = false → dom attns = {["std"]}).
Proof.
  intros run. subst run. split.
  { intros He. apply Decoder_forward_raises in He.
    destruct He as [?|[?|[?|[?|[? _]]]]]; discriminate. }
  intros outs st attns ub s' Hrun.
  apply Decoder_forward_ok in Hrun
    as (nb & sl & embs & ls0 & s1 & ls & Hsetup & Hloop & Hfin).
  apply decoder_finish_ok in Hfin as (_ & _ & Hattns%stack_attns_dom & _ & _).
  apply Decoder_loop_steps in Hloop as (_ & Hdom & _).
  apply decoder_setup_ok in Hsetup
    as (? & ? & ? & ? & ? & ? & ? & ? & _ & _ & _ & _ & _ & _ & _ & -> & _).
  simpl in Hdom. rewrite Hattns, Hdom, init_attns_dom. clear.
  unfold configured_keys.
  destruct (opt_copy_attn opt), (opt_coverage_attn opt), (opt_exhaustion_loss opt);
    repeat split; try done; try set_solver.
Qed.

(** ** The encoder's entry check *)

Ltac solve_no_assertion :=
  first [ apply set_last_column_no_assertion | apply cat_no_assertion
        | apply transpose01_no_assertion | apply isub__no_assertion
        | apply tadd_no_assertion | apply tensor_bool_no_assertion
        | apply append_attn_no_assertion | apply expand_no_assertion
        | apply stack_no_assertion | apply stack_attns_no_assertion
        | unfold select_feat0, size_at, unpack2, unpack3, pack, unpack; no_assertion ].

Ltac never_asserts_tac :=
  repeat first
    [ apply never_asserts_ret
    | apply never_asserts_call
    | apply never_asserts_lift; solve_no_assertion
    | apply never_asserts_bind; [|intros ?]
    | case_match ].

Lemma Embeddings_forward_never_asserts (E : Emb) (x : Tensor Z) :
  never_asserts (Embeddings_forward E x).
Proof. unfold Embeddings_forward, lookup, dropout. never_asserts_tac. Qed.


(** ** The layout of the encoder state handed to the decoder *)

Lemma div2_double_pred (n : nat) : Nat.div2 (2 * n - 1 + 1) = n.
Proof.
  destruct n as [|n]; [done|].
  replace (2 * S n - 1 + 1) with (2 * S n) by lia. apply Nat.div2_double.
Qed.

(** C8: for an encoder built from the options and a hidden state of shape
    (layers * directions) x batch x per-direction width: a bidirectional
    encoder gets it back as layers x batch x configured width, where layer
    [l] holds slice [2l] (even) in the first half of the channels and slice
    [2l + 1] (odd) in the second half; a unidirectional one gets it back
    unchanged. *)
Theorem fix_enc_hidden_layout (opt : Options) (emb : Emb) mk_rnn (enc : Enc)
    (m : Model) (h : T) (batch : nat) :
  Encoder_init opt emb mk_rnn = Ok enc →
  encoder m = enc →
  shape h = [enc_layers enc * num_directions enc; batch; enc_hidden_size enc] →
  enc_layers enc = opt_layers opt ∧
  if opt_brnn opt then
    ∃ h', _fix_enc_hidden m h = Ok h' ∧
          shape h' = [opt_layers opt; batch; opt_rnn_size opt] ∧
          ∀ l b c, entry h' [l; b; c]
                   = if c <? enc_hidden_size enc
                     then entry h [2 * l; b; c]
                     else entry h [2 * l + 1; b; c - enc_hidden_size enc]
  else _fix_enc_hidden m h = Ok h.
Proof.
  intros Hinit Hm Hshape. unfold Encoder_init in Hinit.
  destruct (opt_brnn opt) eqn:Hbrnn.
  - destruct (Nat.eqb_spec (opt_rnn_size opt mod 2) 0) as [Hmod|]; [|discriminate].
    assert (opt_rnn_size opt / 2 + opt_rnn_size opt / 2 = opt_rnn_size opt) as Hhalf.
    { pose proof (Nat.div_mod_eq (opt_rnn_size opt) 2). lia. }
    set (W := opt_rnn_size opt / 2) in *. clearbody W.
    cbv zeta in Hinit. destruct (mk_rnn _ _ _ _ _) as [net|]; [|discriminate].
    cbn [res_bind] in Hinit.
    injection Hinit as <-. simpl in *. split; [done|].
    unfold _fix_enc_hidden. rewrite Hm. simpl.
    unfold stride2. rewrite Hshape. simpl.
    unfold cat. simpl.
    replace (opt_layers opt * 2 - 0 + 1) with (S (2 * opt_layers opt)) by lia.
    replace (opt_layers opt * 2 - 1 + 1) with (2 * opt_layers opt - 1 + 1) by lia.
    rewrite Nat.div2_succ_double, div2_double_pred.
    unfold list_eqb. rewrite !bool_decide_eq_true_2 by done. simpl.
    eexists. split; [reflexivity|]. simpl. split.
    + by rewrite Hhalf.
    + intros l b c. destruct (c <? W); simpl; [done|].
      do 2 f_equal. lia.
  - destruct (Nat.eqb_spec (opt_rnn_size opt mod 1) 0) as [Hmod|]; [|discriminate].
    cbv zeta in Hinit. destruct (mk_rnn _ _ _ _ _) as [net|]; [|discriminate].
    cbn [res_bind] in Hinit.
    injection Hinit as <-. simpl in *. split; [done|].
    unfold _fix_enc_hidden. by rewrite Hm.
Qed.

(** ** Teacher forcing in [NMTModel.forward] *)

Lemma drop_last_spec {A} (t t' : Tensor A) :
  drop_last t = Ok t' →
  shape t' = (hd 0 (shape t) - 1) :: tail (shape t) ∧ entry t' = entry t.
Proof.
  unfold drop_last. destruct (shape t) as [|n sh]; [discriminate|].
  by intros [= <-].
Qed.

(** C7 (as amended): a forward pass that returns has run the encoder on the
    source as given and then the decoder on the target without its last time
    step (same entries, first dimension one less), with the very same source
    tensor as second argument; the decoder has made one step per chunk of the
    truncated target, that many calls of the recurrent cell and of attention
    and that many stacked outputs: [T - 1] for a target of length [T >= 2],
    and one, on the single empty chunk, for a target of length 0 or 1. *)
Theorem forward_drops_last_target (m : Model) src tgt lengths dec_state
    (s s' : St) out attns st ub :
  NMTModel_forward m src tgt lengths dec_state s = (Ok (out, attns, st, ub), s') →
  ∃ tgt' enc_hidden memory fertility_vals enc_state s1 attns' st' evs,
    drop_last tgt = Ok tgt' ∧
    shape tgt' = (hd 0 (shape tgt) - 1) :: tail (shape tgt) ∧
    entry tgt' = entry tgt ∧
    Encoder_forward (encoder m) src lengths None s
      = (Ok (enc_hidden, Padded memory, fertility_vals), s1) ∧
    init_decoder_state m (Padded memory) enc_hidden = Ok enc_state ∧
    Decoder_forward (decoder m) tgt' src memory
      (match dec_state with None => RNNState enc_state | Some st0 => st0 end) None s1
      = (Ok (out, st', attns', ub), s') ∧
    hd 0 (shape out) = Nat.max 1 (hd 0 (shape tgt) - 1) ∧
    trace s' = trace s1 ++ evs ∧
    count is_rnn evs = Nat.max 1 (hd 0 (shape tgt) - 1) ∧
    count is_attn evs = Nat.max 1 (hd 0 (shape tgt) - 1) ∧
    (2 ≤ hd 0 (shape tgt) →
     hd 0 (shape out) = hd 0 (shape tgt) - 1 ∧
     count is_rnn evs = hd 0 (shape tgt) - 1 ∧
     count is_attn evs = hd 0 (shape tgt) - 1).
Proof.
  intros Hrun. unfold NMTModel_forward in Hrun.
  apply bind_ok_inv in Hrun as (tgt' & s0 & Htgt & Hrun).
  apply lift_ok_inv in Htgt as [Htgt ->].
  apply bind_ok_inv in Hrun as ([[enc_hidden ctx] fv] & s1 & Henc & Hrun).
  apply bind_ok_inv in Hrun as (enc_state & s2 & Hinit & Hrun).
  apply lift_ok_inv in Hinit as [Hinit ->].
  apply bind_ok_inv in Hrun as (memory & s2 & Hmem & Hrun).
  apply lift_ok_inv in Hmem as [Hmem ->].
  destruct ctx as [c|]; [|discriminate]. injection Hmem as ->.
  apply bind_ok_inv in Hrun as ([[[out' st'] attns'] ub'] & s2 & Hdec & Hrun).
  assert (out' = out ∧ ub' = ub ∧ s2 = s') as (-> & -> & ->).
  { destruct (multigpu m); apply ret_ok_inv in Hrun as [[= <- _ _ <-] <-]; done. }
  pose proof (drop_last_spec _ _ Htgt) as [Hshape Hentry].
  pose proof (Decoder_forward_ok _ _ _ _ _ _ _ _ _ Hdec)
    as (nb & sl & embs & ls0 & s3 & ls & Hsetup & Hloop & Hfin).
  apply decoder_finish_ok in Hfin as (_ & Hstack & _).
  apply stack_spec in Hstack as (o1 & os & Houts & Hso & _).
  pose proof (Decoder_loop_steps _ _ _ _ _ _ _ _ _ Hloop)
    as (Hlen & _ & evs2 & Htr2 & Ha & Hr).
  apply decoder_setup_ok in Hsetup
    as (t_len & ? & ? & ? & ? & ? & ? & evs1 & Hin & _ & _ & _ & _ & _ & Hembs
        & -> & Htr1 & Ha1 & Hr1).
  simpl in Hlen. rewrite Hshape in Hin. injection Hin as Ht _.
  assert (0 < length embs) as Hpos.
  { rewrite Houts in Hlen. simpl in Hlen. lia. }
  exists tgt', enc_hidden, memory, fv, enc_state, s1, attns', st', (evs1 ++ evs2).
  assert (Hn : hd 0 (shape out) = Nat.max 1 (hd 0 (shape tgt) - 1)).
  { rewrite Hso. simpl. lia. }
  assert (Hcr : count is_rnn (evs1 ++ evs2) = Nat.max 1 (hd 0 (shape tgt) - 1)).
  { rewrite count_app, Hr1, Hr. lia. }
  assert (Hca : count is_attn (evs1 ++ evs2) = Nat.max 1 (hd 0 (shape tgt) - 1)).
  { rewrite count_app, Ha1, Ha. lia. }
  repeat split; try done.
  - by rewrite Htr2, Htr1, app_assoc.
  - lia.
  - lia.
  - lia.
Qed.

(** ** Frame properties of the in-place state methods *)

#[local] Abbreviation Sto := (gmap nat (@Var R)).
#[local] Abbreviation Obj := (@Var R).

Definition detach_step (σ : Sto) (h : option nat) : Sto :=
  match h with
  | Some l => alter detach_ l σ
  | None => σ
  end.

Lemma detach_unfold (st : DecoderState nat) (σ : Sto) :
  detach st σ = foldl detach_step σ (state_all st).
Proof. reflexivity. Qed.

Lemma detach_list_frame (es : list (option nat)) (σ : Sto) (l : nat) :
  Some l ∉ es → foldl detach_step σ es !! l = σ !! l.
Proof.
  revert σ. induction es as [|e es IH]; intros σ Hl; [done|]. simpl.
  rewrite IH by set_solver. destruct e as [k|]; [|done]. simpl.
  apply lookup_alter_ne. set_solver.
Qed.

Lemma detach_list_member (es : list (option nat)) (σ : Sto) (l : nat) (v : Obj) :
  σ !! l = Some v ∨ σ !! l = Some (detach_ v) →
  (foldl detach_step σ es !! l = Some v ∨
   foldl detach_step σ es !! l = Some (detach_ v)) ∧
  (Some l ∈ es → foldl detach_step σ es !! l = Some (detach_ v)).
Proof.
  revert σ. induction es as [|e es IH]; intros σ Hσ; simpl.
  { split; [done|]. set_solver. }
  destruct e as [k|]; simpl.
  - destruct (decide (k = l)) as [->|Hne].
    + assert (alter detach_ l σ !! l = Some (detach_ v)) as Hd.
      { rewrite lookup_alter_eq. by destruct Hσ as [-> | ->]. }
      destruct (IH (alter detach_ l σ) (or_intror Hd)) as [Hor Hin].
      split; [done|]. intros _.
      destruct (decide (Some l ∈ es)) as [Hl|Hl]; [by apply Hin|].
      by rewrite detach_list_frame.
    + assert (alter detach_ k σ !! l = σ !! l) as Hsame by by apply lookup_alter_ne.
      destruct (IH (alter detach_ k σ)) as [Hor Hin]; [by rewrite Hsame|].
      split; [done|]. intros Hl. apply Hin. set_solver.
  - destruct (IH σ Hσ) as [Hor Hin]. split; [done|]. intros Hl. apply Hin. set_solver.
Qed.

Lemma alloc_fresh (v : Obj) (σ σ' : Sto) (r : nat) :
  alloc v σ = (r, σ') →
  (r ∉ dom σ) ∧ σ' !! r = Some v ∧ dom σ' = {[r]} ∪ dom σ ∧
  ∀ k, k ∈ dom σ → σ' !! k = σ !! k.
Proof.
  unfold alloc. intros [= <- <-].
  pose proof (is_fresh (dom σ)) as Hfresh.
  split; [done|]. split; [by rewrite lookup_insert_eq|].
  split; [by rewrite dom_insert_L|].
  intros k Hk. apply lookup_insert_ne. set_solver.
Qed.

(** What the two passes of [repeatBeam_] do to the store: they only add
    objects. *)
Definition extends (σ σ' : Sto) (news : list nat) : Prop :=
  (∀ k, k ∈ dom σ → σ' !! k = σ !! k) ∧
  dom σ ⊆ dom σ' ∧
  Forall (fun r => (r ∉ dom σ) ∧ (r ∈ dom σ')) news.

Lemma repeat_all_extends beamSize (es : list (option nat)) (σ σ' : Sto) news :
  repeat_all beamSize es σ = Ok (news, σ') → extends σ σ' news.
Proof.
  revert σ σ' news. induction es as [|e es IH]; intros σ σ' news; cbn [repeat_all].
  { intros [= <- <-]. by repeat split. }
  destruct (deref e σ) as [v|] eqn:Hderef; [|discriminate].
  destruct (repeat_1n1 beamSize (data v)) as [t|]; [|discriminate]. cbn [res_bind].
  destruct (alloc (mkVar t false false false) σ) as [r σ1] eqn:Halloc.
  apply alloc_fresh in Halloc as (Hr & Hlook & Hdom & Hold).
  destruct (repeat_all beamSize es σ1) as [[rs σ2]|] eqn:Hrest; [|discriminate].
  cbn [res_bind]. intros [= <- <-].
  destruct (IH _ _ _ Hrest) as (Hframe & Hsub & Hnew).
  split; [|split].
  - intros k Hk. rewrite Hframe by set_solver. by apply Hold.
  - set_solver.
  - constructor; [set_solver|].
    eapply Forall_impl; [done|]. set_solver.
Qed.

Lemma rewrap_all_extends (l : list nat) (σ σ' : Sto) news :
  rewrap_all l σ = Ok (news, σ') → extends σ σ' news.
Proof.
  revert σ σ' news. induction l as [|a l IH]; intros σ σ' news; cbn [rewrap_all].
  { intros [= <- <-]. by repeat split. }
  destruct (σ !! a) as [v|]; [|discriminate].
  destruct (alloc (mkVar (data v) false false true) σ) as [r σ1] eqn:Halloc.
  apply alloc_fresh in Halloc as (Hr & Hlook & Hdom & Hold).
  destruct (rewrap_all l σ1) as [[rs σ2]|] eqn:Hrest; [|discriminate].
  cbn [res_bind]. intros [= <- <-].
  destruct (IH _ _ _ Hrest) as (Hframe & Hsub & Hnew).
  split; [|split].
  - intros k Hk. rewrite Hframe by set_solver. by apply Hold.
  - set_solver.
  - constructor; [set_solver|].
    eapply Forall_impl; [done|]. set_solver.
Qed.

Lemma update_at_frame (f : T → Res T) (e : option nat) (σ σ' : Sto) (l : nat) :
  update_at f e σ = Ok σ' → e ≠ Some l → σ' !! l = σ !! l.
Proof.
  unfold update_at. destruct (deref e σ) as [v|] eqn:Hderef; [|discriminate].
  destruct (f (data v)) as [t|]; [|discriminate]. simpl. intros [= <-] Hne.
  destruct e as [k|]; [|done]. apply lookup_insert_ne. congruence.
Qed.

Lemma update_each_frame (f : T → Res T) (es : list (option nat)) (σ σ' : Sto) (l : nat) :
  update_each f es σ = Ok σ' → Some l ∉ es → σ' !! l = σ !! l.
Proof.
  revert σ. induction es as [|e es IH]; intros σ; simpl.
  { by intros [= <-]. }
  destruct (update_at f e σ) as [σ1|] eqn:Hat; [|discriminate]. simpl.
  intros Hrest Hl. rewrite (IH _ Hrest) by set_solver.
  eapply update_at_frame; [done|]. set_solver.
Qed.

(** C10: for every recurrent state, [detach] changes the store only at the
    members of [all] (the hidden-state tuple and the input feed), each of
    which it detaches, and [repeatBeam_] only adds objects to the store, for
    the new hidden state and input feed, and leaves the coverage and
    fertility-budget attributes as they are.  So the coverage and budget
    objects, not being members of [all], are neither detached nor tiled.
    Likewise the inherited beam update changes members of [all] only; it is
    the override of the recurrent state that rewrites the data of the budget
    object. *)
Theorem coverage_and_budget_untouched (s : RNNDecoderState nat) (σ : Sto) :
  (* detach *)
  (∀ l, Some l ∉ all s → detach (RNNState s) σ !! l = σ !! l) ∧
  (∀ l v, Some l ∈ all s → σ !! l = Some v →
          detach (RNNState s) σ !! l = Some (detach_ v)) ∧
  (* repeatBeam_ *)
  (∀ beamSize st' σ',
     repeatBeam_ (RNNState s) beamSize σ = Ok (st', σ') →
     ∃ s', st' = RNNState s' ∧
           coverage s' = coverage s ∧
           attn_upper_bounds s' = attn_upper_bounds s ∧
           (∀ l, l ∈ dom σ → σ' !! l = σ !! l) ∧
           (∀ l, Some l ∈ all s' → (l ∉ dom σ) ∧ (l ∈ dom σ'))) ∧
  (* beamUpdate_ *)
  (∀ idx positions beamSize σ',
     DecoderState_beamUpdate_ (RNNState s) idx positions beamSize σ = Ok σ' →
     ∀ l, Some l ∉ all s → σ' !! l = σ !! l) ∧
  (∀ idx positions beamSize σ' l,
     beamUpdate_ (RNNState s) idx positions beamSize σ = Ok σ' →
     attn_upper_bounds s = Some l →
     Some l ∉ all s →
     ∃ v t, σ !! l = Some v ∧
            beam_copy2 idx positions beamSize (data v) = Ok t ∧
            σ' !! l = Some (set_data v t)).
Proof.
  split; [|split; [|split; [|split]]].
  - intros l Hl. rewrite detach_unfold. simpl. by apply detach_list_frame.
  - intros l v Hin Hv. rewrite detach_unfold. simpl.
    by apply detach_list_member; [left|].
  - intros beamSize st' σ' Hrun. simpl in Hrun.
    destruct (repeat_all beamSize (all s) σ) as [[news σ1]|] eqn:Hrep; [|discriminate].
    simpl in Hrun. unfold RNN_resetAll in Hrun.
    destruct (rewrap_all news σ1) as [[vars σ2]|] eqn:Hwrap; [|discriminate].
    simpl in Hrun.
    destruct (List.last (Some <$> vars) None) as [feed|] eqn:Hlast; [|discriminate].
    simpl in Hrun. injection Hrun as <- <-.
    apply repeat_all_extends in Hrep as (Hf1 & Hs1 & _).
    apply rewrap_all_extends in Hwrap as (Hf2 & Hs2 & Hnew).
    eexists. split; [reflexivity|]. simpl.
    split; [done|]. split; [done|]. split.
    + intros l Hl. rewrite Hf2 by set_solver. by apply Hf1.
    + intros l Hl.
      assert (l ∈ vars) as Hin.
      { apply elem_of_app in Hl as [Hl|Hl].
        - apply list_elem_of_fmap in Hl as (k & [= <-] & Hk).
          apply list_elem_of_In. apply list_elem_of_In in Hk.
          clear -Hk. induction vars as [|a [|b vars'] IH]; simpl in *; [done|done|].
          destruct Hk as [->|Hk]; [by left|right; by apply IH].
        - apply list_elem_of_singleton in Hl. injection Hl as <-.
          clear -Hlast. induction vars as [|a [|b vars'] IH]; simpl in *;
            [done|injection Hlast as <-; set_solver|].
          apply list_elem_of_further. by apply IH. }
      rewrite Forall_forall in Hnew. destruct (Hnew l Hin) as [Hnot Hdom].
      split; [set_solver|done].
  - intros idx positions beamSize σ' Hrun l Hl.
    unfold DecoderState_beamUpdate_ in Hrun. simpl in Hrun.
    by eapply update_each_frame.
  - intros idx positions beamSize σ' l Hrun Hl Hapart. simpl in Hrun.
    unfold RNN_beamUpdate_, DecoderState_beamUpdate_ in Hrun. simpl in Hrun.
    destruct (update_each _ (all s) σ) as [σ1|] eqn:Hbase; [|discriminate].
    simpl in Hrun. rewrite Hl in Hrun.
    assert (σ1 !! l = σ !! l) as Hsame by by eapply update_each_frame.
    unfold update_at in Hrun. simpl in Hrun. rewrite Hsame in Hrun.
    destruct (σ !! l) as [v|] eqn:Hv; [|discriminate].
    destruct (beam_copy2 idx positions beamSize (data v)) as [t|] eqn:Ht; [|discriminate].
    simpl in Hrun. injection Hrun as <-.
    exists v, t. split; [done|]. split; [done|]. by rewrite lookup_insert_eq.
Qed.

(** ** Coverage and the truth value of a tensor *)

Lemma tensor_bool_ambiguous (t : T) : 2 ≤ numel t → tensor_bool t = Raise RuntimeError.
Proof.
  unfold tensor_bool. intros Hn. destruct (numel t) as [|[|n]]; [lia|lia|done].
Qed.

(** The first step of a call whose state carries no coverage records the
    weights of that step as coverage. *)
Lemma first_step_coverage (dec : Dec) context n_batch_ s_len_ (ls ls' : Loop)
    emb_t (s s' : St) :
  _coverage dec = true →
  ls_coverage ls = None →
  decoder_step dec context n_batch_ s_len_ ls emb_t s = (Ok ls', s') →
  ∃ a l, ls_attns ls' !! "std" = Some (l ++ [Recorded a]) ∧ ls_coverage ls' = Some a.
Proof.
  intros Hon Hnone Hstep. apply decoder_step_coverage in Hstep.
  rewrite Hon, Hnone in Hstep.
  destruct Hstep as (a & c & l & lc & _ & Hstd & Hc & _ & _ & ->). by exists a, l.
Qed.

(** C5 (what the code does instead): with coverage on, a state that carries
    no coverage, and attention weights of two or more entries, a call over
    two or more target steps never returns: the second step asks for the
    truth value of the coverage tensor, which is ambiguous, so no running
    sum is ever formed. *)
Theorem coverage_accumulation_raises (dec : Dec) input src context context_t
    (st : RNNDecoderState T) upper_bounds (s : St) :
  _coverage dec = true →
  coverage st = None →
  transpose01 context = Ok context_t →
  (∀ w query budget, 2 ≤ numel (attn dec w query context_t budget).1.2) →
  2 ≤ hd 0 (shape input) →
  is_ok (Decoder_forward dec input src context (RNNState st) upper_bounds s).1 = false.
Proof.
  intros Hon Hnone Hctx Hattn Hlen.
  destruct (Decoder_forward dec input src context (RNNState st) upper_bounds s)
    as [[r|e] s'] eqn:Hrun; [exfalso|done].
  apply Decoder_forward_ok in Hrun
    as (nb & sl & embs & ls0 & s1 & ls & Hsetup & Hloop & _).
  apply decoder_setup_ok in Hsetup
    as (t_len & ? & ? & ? & ? & st' & feed & ? & Hin & _ & _ & [= <-] & _ & _ & Hembs & -> & _).
  rewrite Hin in Hlen. simpl in Hlen.
  destruct embs as [|e1 [|e2 rest]]; [simpl in Hembs; lia|simpl in Hembs; lia|].
  unfold Decoder_loop in Hloop. simpl in Hloop.
  apply bind_ok_inv in Hloop as (ls1 & s2 & Hstep1 & Hloop).
  apply bind_ok_inv in Hloop as (ls2 & s3 & Hstep2 & _).
  pose proof (decoder_step_results _ _ _ _ _ _ _ _ _ Hstep1)
    as (? & ? & ? & ro & ctx & u1 & w3 & w4 & ao & a & ? & ? & ? & l
        & _ & _ & Ha & _ & _ & _ & _ & _ & _ & Hstd & Hctx').
  rewrite Hctx in Hctx'. injection Hctx' as <-.
  apply first_step_coverage in Hstep1 as (a' & l' & Hstd' & Hcov); [|done|by rewrite Hnone].
  rewrite Hstd in Hstd'. injection Hstd' as Heq.
  apply app_inj_tail in Heq as [_ [= <-]].
  apply decoder_step_coverage in Hstep2. rewrite Hon, Hcov in Hstep2.
  destruct Hstep2 as (? & ? & ? & ? & _ & _ & _ & _ & _ & Hbool).
  specialize (Hattn w3 ro u1). rewrite Ha in Hattn. simpl in Hattn.
  rewrite (tensor_bool_ambiguous _ Hattn) in Hbool.
  by destruct Hbool as [[? _]|[? _]].
Qed.

(** * Further properties of the code *)

(** ** The widths an encoder is built with *)

(** X1. [Encoder.__init__] raises [AssertionError] when a bidirectional
    encoder is asked for an odd [rnn_size], before the network is built;
    otherwise the network is built for the per-direction width, which times
    the number of directions is [rnn_size], and what building it raises (a
    name [torch.nn] does not have, a size the network refuses) is what
    [__init__] raises. *)
Theorem Encoder_init_widths (opt : Options) (emb : Emb)
    (nn_rnn : string → nat → nat → nat → bool
              → Res (World → SeqData R → option (Hidden T)
                     → (SeqData R * Hidden T) * World)) :
  let dirs := if opt_brnn opt then 2 else 1 in
  match Encoder_init opt emb nn_rnn with
  | Ok enc =>
      num_directions enc = dirs ∧
      enc_hidden_size enc * dirs = opt_rnn_size opt ∧
      enc_layers enc = opt_layers opt ∧
      enc_embeddings enc = emb ∧
      nn_rnn (opt_rnn_type opt) (opt_word_vec_size opt) (enc_hidden_size enc)
             (opt_layers opt) (opt_brnn opt) = Ok (enc_rnn enc)
  | Raise e =>
      (e = AssertionError ∧ opt_brnn opt = true ∧ opt_rnn_size opt mod 2 = 1) ∨
      (opt_rnn_size opt mod dirs = 0 ∧
       nn_rnn (opt_rnn_type opt) (opt_word_vec_size opt) (opt_rnn_size opt / dirs)
              (opt_layers opt) (opt_brnn opt) = Raise e)
  end.
Proof.
  unfold Encoder_init. destruct (opt_brnn opt); cbv zeta.
  - destruct (Nat.eqb_spec (opt_rnn_size opt mod 2) 0) as [E|E].
    + destruct (nn_rnn _ _ _ _ _) as [net|e] eqn:Enet;
        cbn [res_bind num_directions enc_hidden_size enc_layers enc_embeddings enc_rnn].
      * repeat split; try done.
        pose proof (Nat.div_mod_eq (opt_rnn_size opt) 2). lia.
      * right. done.
    + left. repeat split; try done.
      pose proof (Nat.mod_upper_bound (opt_rnn_size opt) 2). lia.
  - rewrite Nat.mod_1_r, Nat.div_1_r. cbn [Nat.eqb].
    destruct (nn_rnn _ _ _ _ _) as [net|e] eqn:Enet;
      cbn [res_bind num_directions enc_hidden_size enc_layers enc_embeddings enc_rnn].
    + repeat split; try done. lia.
    + right. done.
Qed.

(** ** The arity checks of [Encoder.forward] *)

(** X2. An input that is not 3-dimensional, or a [lengths] tensor that is not
    2-dimensional (the 1-D tensor of the docstring included), makes
    [Encoder.forward] raise [ValueError] when it unpacks the size, before
    any sub-module is called. *)
Theorem Encoder_forward_arity (enc : Enc) input lengths hidden (s : St) :
  (length (shape input) ≠ 3 ∨
   ∃ l, lengths = Some l ∧ length (shape l) ≠ 2) →
  Encoder_forward enc input lengths hidden s = (Raise ValueError, s).
Proof.
  intros Hbad. unfold Encoder_forward.
  destruct (shape input) as [|a [|b [|c [|? ?]]]] eqn:Ei; try done.
  destruct Hbad as [Hbad|(l & -> & Hl)]; [done|].
  cbn [unpack3]. rewrite bind_lift_ok. cbv beta iota.
  destruct (shape l) as [|k [|n [|? ?]]] eqn:El; try done.
Qed.

(** ** What [Embeddings.forward] computes *)

Lemma all_indices_2 a b idx :
  idx ∈ all_indices [a; b] ↔ ∃ i j, idx = [i; j] ∧ i < a ∧ j < b.
Proof.
  cbn [all_indices]. rewrite list_elem_of_bind. split.
  - intros (i & Hin & Hi). apply list_elem_of_fmap in Hin as (r & -> & Hr).
    apply list_elem_of_bind in Hr as (j & Hr & Hj).
    apply list_elem_of_fmap in Hr as (r' & -> & Hr').
    apply list_elem_of_singleton in Hr' as ->.
    apply elem_of_seq in Hi, Hj. exists i, j. split; [done|lia].
  - intros (i & j & -> & Hi & Hj). exists i. split; [|apply elem_of_seq; lia].
    apply list_elem_of_fmap. eexists. split; [done|].
    apply list_elem_of_bind. exists j. split; [|apply elem_of_seq; lia].
    apply list_elem_of_fmap. eexists. split; [done|]. by apply list_elem_of_singleton.
Qed.

Lemma forallb_fmap_true {A B} (P : B → bool) (f : A → B) l :
  forallb P (f <$> l) = true ↔ ∀ a, a ∈ l → P (f a) = true.
Proof.
  rewrite forallb_forall. split.
  - intros Hall a Ha. apply Hall. apply list_elem_of_In. by apply list_elem_of_fmap_2.
  - intros Hall y Hy. apply list_elem_of_In, list_elem_of_fmap in Hy as (a & -> & Ha). auto.
Qed.

(** The ids of a len x batch tensor all have a row exactly when each entry
    has one. *)
Lemma tokens_in_vocab (E : Emb) (idx : Tensor Z) a b :
  shape idx = [a; b] →
  forallb (in_vocab E) (tolist idx) = true
  ↔ ∀ i j, i < a → j < b → in_vocab E (entry idx [i; j]) = true.
Proof.
  intros Hs. unfold tolist. rewrite Hs, forallb_fmap_true. split.
  - intros Hall i j Hi Hj. apply Hall, all_indices_2. eauto.
  - intros Hall r Hr. apply all_indices_2 in Hr as (i & j & -> & Hi & Hj). auto.
Qed.

Lemma lookup_in_vocab (E : Emb) (idx : Tensor Z) a b :
  shape idx = [a; b] →
  (∀ i j, i < a → j < b → in_vocab E (entry idx [i; j]) = true) →
  (lookup E idx : Mo T)
  = call (CallWordLut idx)
         (fun w => (mkTensor (shape idx ++ [word_vec_size E])
                      (fun i => word_lut E (entry idx (removelast i)) (List.last i 0)),
                    w)).
Proof.
  intros Hs Hall. unfold lookup.
  by rewrite (proj2 (tokens_in_vocab E idx a b Hs) Hall).
Qed.

Lemma lookup_out_of_vocab (E : Emb) (idx : Tensor Z) a b i j (s : St) :
  shape idx = [a; b] → i < a → j < b →
  in_vocab E (entry idx [i; j]) = false →
  lookup E idx s
  = (Raise IndexError, mkMState (world s) (trace s ++ [CallWordLut idx])).
Proof.
  intros Hs Hi Hj Hout. unfold lookup. destruct (forallb _ _) eqn:Hf.
  - rewrite (proj1 (tokens_in_vocab E idx a b Hs) Hf i j Hi Hj) in Hout. discriminate.
  - reflexivity.
Qed.

(** X3. Without positional encoding [Embeddings.forward] is one table lookup
    of feature 0 of a len x batch x nfeat input, with no dropout and the
    random state untouched: when every such token has a row in the table the
    embedding holds the rows, and when some token has none the lookup raises
    [IndexError]. *)
Theorem Embeddings_forward_plain (E : Emb) (x : Tensor Z) (s : St) a b c :
  positional_encoding E = false →
  shape x = [a; b; S c] →
  ∃ idx,
    shape idx = [a; b] ∧
    (∀ i j, entry idx [i; j] = entry x [i; j; 0]) ∧
    ((∀ i j, i < a → j < b → in_vocab E (entry x [i; j; 0]) = true) →
     ∃ emb,
       Embeddings_forward E x s
         = (Ok emb, mkMState (world s) (trace s ++ [CallWordLut idx])) ∧
       shape emb = [a; b; word_vec_size E] ∧
       ∀ i j k, entry emb [i; j; k] = word_lut E (entry x [i; j; 0]) k) ∧
    (∀ i j, i < a → j < b → in_vocab E (entry x [i; j; 0]) = false →
     Embeddings_forward E x s
       = (Raise IndexError, mkMState (world s) (trace s ++ [CallWordLut idx]))).
Proof.
  intros Hpe Hx. unfold Embeddings_forward, select_feat0. rewrite Hx, Hpe.
  rewrite bind_lift_ok.
  set (idx := mkTensor [a; b] (fun idx : list nat => entry x (take 2 idx ++ 0 :: drop 2 idx))).
  exists idx. split; [done|]. split; [done|]. split.
  - intros Hall. rewrite (lookup_in_vocab E idx a b eq_refl Hall).
    unfold bind, call, ret. cbn.
    eexists. split; [reflexivity|]. done.
  - intros i j Hi Hj Hout. unfold bind.
    by rewrite (lookup_out_of_vocab E idx a b i j s eq_refl Hi Hj Hout).
Qed.

(** X4. With positional encoding, an input of more than 5000 positions cannot
    be embedded: when every token has a row in the table, the table of
    encodings has 5000 rows, its slice does not expand to the input's length,
    and [RuntimeError] is raised; when some token has none, the lookup has
    raised [IndexError] before. *)
Theorem Embeddings_forward_too_long (opt : Options) dicts_size lut pe_entry
    (x : Tensor Z) (s : St) a b c :
  opt_position_encoding opt = true →
  shape x = [a; b; S c] →
  5000 < a →
  let E := Embeddings_init opt dicts_size lut pe_entry in
  ((∀ i j, i < a → j < b → in_vocab E (entry x [i; j; 0]) = true) →
   (Embeddings_forward E x s).1 = Raise RuntimeError) ∧
  (∀ i j, i < a → j < b → in_vocab E (entry x [i; j; 0]) = false →
   (Embeddings_forward E x s).1 = Raise IndexError).
Proof.
  intros Hpe Hx Ha E. unfold Embeddings_forward, select_feat0. rewrite Hx.
  rewrite bind_lift_ok.
  set (idx := mkTensor [a; b] (fun idx : list nat => entry x (take 2 idx ++ 0 :: drop 2 idx))).
  split.
  - intros Hall. rewrite (lookup_in_vocab E idx a b eq_refl Hall). subst E idx.
    unfold bind at 1. unfold call at 1. cbv beta iota zeta.
    cbn [positional_encoding Embeddings_init word_vec_size pe]. rewrite Hpe.
    cbn [shape app]. unfold size_at. cbn [shape].
    change ([a; b; opt_word_vec_size opt] !! 0) with (Some a).
    change ([a; b; opt_word_vec_size opt] !! 2) with (Some (opt_word_vec_size opt)).
    cbv iota. rewrite !bind_lift_ok.
    unfold slice_upto, expand, expandable, pad_shape.
    cbn [shape zip_with length Nat.sub replicate app zip forallb fst snd Nat.leb].
    rewrite (Nat.min_l 5000 a) by lia.
    destruct (Nat.eqb_spec 5000 a) as [E|_]; [lia|].
    destruct (Nat.eqb_spec 5000 1) as [E|_]; [lia|].
    reflexivity.
  - intros i j Hi Hj Hout. unfold bind.
    by rewrite (lookup_out_of_vocab E idx a b i j s eq_refl Hi Hj Hout).
Qed.

Lemma expandable_same (s : list nat) : expandable s s = true.
Proof.
  unfold expandable, pad_shape. rewrite Nat.leb_refl, Nat.sub_diag. simpl.
  induction s as [|d s IH]; [done|]. simpl. by rewrite Nat.eqb_refl.
Qed.

Lemma tadd_same_shape (x y : T) :
  shape y = shape x →
  tadd x y = Ok (mkTensor (shape x)
                   (fun idx => sadd (entry x (bidx (shape x) idx))
                                    (entry y (bidx (shape y) idx)))).
Proof.
  intros Hs. unfold tadd, expand. rewrite Hs, bshape_same, expandable_same. done.
Qed.

(** X5. With positional encoding, at most 5000 positions and every token
    in the table, entry (t, b, k) of the embedding is the table entry plus
    the encoding of position t and component k, the same for every batch
    entry, passed through dropout; the dropout draw advances the random state
    once. *)
Theorem Embeddings_forward_positional (opt : Options) dicts_size lut pe_entry
    (x : Tensor Z) (s : St) a b c :
  opt_position_encoding opt = true →
  shape x = [a; b; S c] →
  a ≤ 5000 →
  (∀ i j, i < a → j < b →
     in_vocab (Embeddings_init opt dicts_size lut pe_entry) (entry x [i; j; 0]) = true) →
  ∃ emb s',
    Embeddings_forward (Embeddings_init opt dicts_size lut pe_entry) x s = (Ok emb, s') ∧
    shape emb = [a; b; opt_word_vec_size opt] ∧
    world s' = dropout_next (world s) ∧
    (∃ idx pre, trace s' = trace s ++ [CallWordLut idx; CallDropout pre]) ∧
    ∀ i j k, i < a → j < b → k < opt_word_vec_size opt →
      entry emb [i; j; k]
      = dropout_entry (world s) [i; j; k]
          (sadd (lut (entry x [i; j; 0]) k) (pe_entry [i; 0; k])).
Proof.
  intros Hpe Hx Ha Hall. unfold Embeddings_forward, select_feat0. rewrite Hx.
  rewrite bind_lift_ok.
  rewrite (lookup_in_vocab _ (mkTensor [a; b] _) a b eq_refl Hall).
  unfold bind at 1. unfold call at 1. cbv beta iota zeta.
  cbn [positional_encoding Embeddings_init word_vec_size pe]. rewrite Hpe.
  cbn [shape app]. unfold size_at. cbn [shape].
  change ([a; b; opt_word_vec_size opt] !! 0) with (Some a).
  change ([a; b; opt_word_vec_size opt] !! 2) with (Some (opt_word_vec_size opt)).
  cbv iota. rewrite !bind_lift_ok.
  set (w := opt_word_vec_size opt).
  assert (Hexp : expand (slice_upto (mkTensor [5000; 1; w] pe_entry) [a; 1; w]) [a; b; w]
                 = Ok (mkTensor [a; b; w] (fun idx => pe_entry (bidx [a; 1; w] idx)))).
  { unfold slice_upto, expand, expandable, pad_shape.
    cbn [shape zip_with length Nat.sub replicate app zip forallb fst snd Nat.leb entry].
    rewrite (Nat.min_r 5000 a) by lia. rewrite !Nat.min_id, !Nat.eqb_refl.
    rewrite orb_true_r. reflexivity. }
  rewrite Hexp, bind_lift_ok.
  rewrite tadd_same_shape by reflexivity. rewrite bind_lift_ok.
  unfold dropout, call. cbn [world trace shape entry].
  do 2 eexists. split; [reflexivity|]. cbn [shape entry world trace].
  split; [done|]. split; [done|]. split.
  { rewrite <- app_assoc. eauto. }
  intros i j k Hi Hj Hk.
  rewrite bidx_in_range by (repeat constructor; done).
  cbn [removelast List.last take drop app].
  do 3 f_equal. unfold bidx. cbn.
  destruct (Nat.eqb_spec a 1), (Nat.eqb_spec w 1); repeat f_equal; lia.
Qed.

(** ** Input feeding *)

Definition rnn_input (ev : Event R) : option T :=
  match ev with CallDecoderRnn emb_t _ => Some emb_t | _ => None end.

(** The inputs of the recurrent-cell calls of a trace, in order. *)
Definition rnn_inputs (evs : list (Event R)) : list T := omap rnn_input evs.

Lemma decoder_setup_embedding (dec : Dec) input src context state upper_bounds
    (s s1 : St) n_batch_ s_len_ embs (ls0 : Loop) :
  decoder_setup dec input src context state upper_bounds s
    = (Ok (n_batch_, s_len_, embs, ls0), s1) →
  ∃ emb, Embeddings_forward (dec_embeddings dec) (unsqueeze 2 input) s = (Ok emb, s1) ∧
         embs = split1 emb.
Proof.
  intros Hsetup. unfold decoder_setup in Hsetup.
  apply bind_ok_inv in Hsetup as ([? ?] & ? & H1 & Hsetup). apply lift_ok_inv in H1 as [_ ->].
  apply bind_ok_inv in Hsetup as ([[? ?] ?] & ? & H1 & Hsetup).
  apply lift_ok_inv in H1 as [_ ->].
  apply bind_ok_inv in Hsetup as ([[? ?] ?] & ? & H1 & Hsetup).
  apply lift_ok_inv in H1 as [_ ->].
  apply bind_ok_inv in Hsetup as ([] & ? & H1 & Hsetup). apply lift_ok_inv in H1 as [_ ->].
  apply bind_ok_inv in Hsetup as (emb & s2 & Hemb & Hsetup).
  apply bind_ok_inv in Hsetup as (? & ? & H1 & Hsetup). apply lift_ok_inv in H1 as [_ ->].
  apply bind_ok_inv in Hsetup as (? & ? & H1 & Hsetup). apply lift_ok_inv in H1 as [_ ->].
  apply bind_ok_inv in Hsetup as ([? ?] & ? & H1 & Hsetup). apply lift_ok_inv in H1 as [_ ->].
  apply bind_ok_inv in Hsetup as ([] & ? & H1 & Hsetup). apply lift_ok_inv in H1 as [_ ->].
  apply ret_ok_inv in Hsetup as [[= -> -> -> ->] ->]. eauto.
Qed.

Lemma decoder_step_rnn_input (dec : Dec) context n_batch_ s_len_ (ls ls' : Loop)
    emb_t (s s' : St) :
  dec_input_feed dec = true →
  decoder_step dec context n_batch_ s_len_ ls emb_t s = (Ok ls', s') →
  ∃ evs x, trace s' = trace s ++ evs ∧
           rnn_inputs evs = [x] ∧
           cat 1 (squeeze0 emb_t) (ls_output ls) = Ok x ∧
           ls_outputs ls' = ls_outputs ls ++ [ls_output ls'].
Proof.
  intros Hfeed Hstep. unfold decoder_step in Hstep. m_inv; try congruence.
  all: repeat match goal with
       | Ht : trace ?x = _ |- context [trace ?x] => rewrite Ht; clear Ht
       end.
  all: rewrite <- ?app_assoc; do 2 eexists; split; [reflexivity|].
  all: split; [reflexivity|]; split; [eassumption|reflexivity].
Qed.

Lemma zip_app_tail {A B} (l : list A) (k : list B) (y : B) :
  length k = length l → zip l (k ++ [y]) = zip l k.
Proof.
  revert k. induction l as [|a l IH]; intros [|b k] Hlen; try done.
  cbn. f_equal. apply IH. by injection Hlen.
Qed.

(** X6. With input feeding on, the recurrent cell is fed, at every step, the
    embedding of that step's target token concatenated along dimension 1
    with the output of the step before; at the first step the place of that
    output is taken by the state's input feed. *)
Theorem input_feeding_wiring (dec : Dec) input src context state upper_bounds
    (s s' : St) outs st' attns ub :
  dec_input_feed dec = true →
  Decoder_forward dec input src context state upper_bounds s
    = (Ok (outs, st', attns, ub), s') →
  ∃ st feed emb s0 os evs,
    state = RNNState st ∧ input_feed st = Some feed ∧
    Embeddings_forward (dec_embeddings dec) (unsqueeze 2 input) s = (Ok emb, s0) ∧
    stack os = Ok outs ∧
    length os = length (split1 emb) ∧
    trace s' = trace s0 ++ evs ∧
    Forall2 (fun p x => cat 1 (squeeze0 p.1) p.2 = Ok x)
            (zip (split1 emb) (squeeze0 feed :: os)) (rnn_inputs evs).
Proof.
  intros Hfeed Hrun.
  apply Decoder_forward_ok in Hrun
    as (n_batch_ & s_len_ & embs & ls0 & s1 & ls & Hsetup & Hloop & Hfin).
  destruct (decoder_setup_embedding _ _ _ _ _ _ _ _ _ _ _ _ Hsetup) as (emb & Hemb & ->).
  apply decoder_setup_ok in Hsetup
    as (t_len & ? & ? & ? & ? & st & feed & ? & _ & _ & _ & -> & Hf & _ & _ & -> & _).
  apply decoder_finish_ok in Hfin as (_ & Houts & _).
  unfold Decoder_loop in Hloop.
  apply (foldM_invariant
           (fun (done : list T) (a : Loop) (s2 : St) =>
              ∃ evs feeds,
                trace s2 = trace s1 ++ evs ∧
                length feeds = length done ∧
                feeds ++ [ls_output a] = squeeze0 feed :: ls_outputs a ∧
                Forall2 (fun p x => cat 1 (squeeze0 p.1) p.2 = Ok x)
                        (zip done feeds) (rnn_inputs evs)))
    in Hloop.
  - destruct Hloop as (evs & feeds & Htr & Hlen & Hfeeds & Hall).
    exists st, feed, emb, s1, (ls_outputs ls), evs.
    split; [done|]. split; [done|]. split; [done|]. split; [done|].
    assert (Hl : length (ls_outputs ls) = length (split1 emb)).
    { apply (f_equal length) in Hfeeds. rewrite length_app in Hfeeds.
      cbn [length] in Hfeeds. lia. }
    split; [done|]. split; [done|].
    rewrite <- Hfeeds.
    by rewrite zip_app_tail.
  - exists [], []. rewrite app_nil_r. cbn. repeat split; try done.
  - intros done em_t a s2 a' s3 (evs & feeds & Htr & Hlen & Hfeeds & Hall) Hstep.
    apply decoder_step_rnn_input in Hstep as (evs' & e & Htr' & Hin & Hcat & Hos);
      [|done].
    exists (evs ++ evs'), (feeds ++ [ls_output a]).
    split; [by rewrite Htr', Htr, app_assoc|].
    split; [by rewrite !length_app, Hlen|].
    split; [by rewrite Hfeeds, Hos|].
    unfold rnn_inputs in *. rewrite omap_app, Hin.
    rewrite (zip_with_app pair done [em_t] feeds [ls_output a]) by (by rewrite Hlen).
    apply Forall2_app; [done|]. by repeat constructor.
Qed.

(** ** Bidirectional states with an odd number of slices *)

(** X7. For a bidirectional encoder, [_fix_enc_hidden] pairs the slices of
    even and odd index along dimension 0, so a 3-dimensional state with an
    even number of slices gives half as many of twice the width, and one with
    an odd number of slices raises [RuntimeError] from [torch.cat]. *)
Theorem fix_enc_hidden_parity (m : Model) (h : T) n b w :
  num_directions (encoder m) = 2 →
  shape h = [n; b; w] →
  if Nat.even n
  then ∃ h', _fix_enc_hidden m h = Ok h' ∧ shape h' = [n / 2; b; w + w]
  else _fix_enc_hidden m h = Raise RuntimeError.
Proof.
  intros Hd Hs. unfold _fix_enc_hidden, stride2. rewrite Hd, Hs.
  cbn [Nat.eqb res_bind]. unfold cat. cbn [shape].
  change ((?x :: b :: [w]) !! 2) with (Some w). cbv iota.
  cbn [take drop]. unfold list_eqb.
  rewrite Nat.sub_0_r.
  destruct (Nat.even n) eqn:Ev.
  - apply Nat.even_spec in Ev as [k ->].
    assert (E1 : Nat.div2 (2 * k + 1) = k).
    { rewrite Nat.div2_div. symmetry. apply (Nat.div_unique _ 2 k 1); lia. }
    assert (E2 : Nat.div2 (2 * k - 1 + 1) = k) by apply div2_double_pred.
    rewrite E1, E2. rewrite !bool_decide_eq_true_2 by done. cbn [andb].
    eexists. split; [reflexivity|]. cbn [shape app].
    rewrite Nat.mul_comm, Nat.div_mul by done. done.
  - assert (Ho : Nat.odd n = true) by (rewrite <- Nat.negb_even, Ev; done).
    apply Nat.odd_spec in Ho as [k ->].
    assert (E1 : Nat.div2 (2 * k + 1 + 1) = S k).
    { rewrite Nat.div2_div. symmetry. apply (Nat.div_unique _ 2 (S k) 0); lia. }
    assert (E2 : Nat.div2 (2 * k + 1 - 1 + 1) = k).
    { rewrite Nat.div2_div. symmetry. apply (Nat.div_unique _ 2 k 1); lia. }
    rewrite E1, E2. rewrite bool_decide_eq_false_2; [done|].
    intros [= Hk]. lia.
Qed.

(** ** The state [init_decoder_state] makes *)

(** X8. [init_decoder_state] needs a padded memory bank; the state it builds
    holds the encoder state with every member passed through
    [_fix_enc_hidden] (a single tensor wrapped as a tuple of one), an
    all-zero input feed of shape 1 x batch x decoder width with the batch
    size read from the memory bank, no coverage and no budget. *)
Theorem init_decoder_state_result (m : Model) (context : SeqData R) enc_hidden
    (st : RNNDecoderState T) :
  init_decoder_state m context enc_hidden = Ok st →
  ∃ c batch feed,
    context = Padded c ∧
    shape c !! 1 = Some batch ∧
    mapR (_fix_enc_hidden m)
         (match enc_hidden with HTensor h => [h] | HTuple hs => hs end)
      = Ok (hidden st) ∧
    input_feed st = Some feed ∧
    shape feed = [1; batch; hidden_size (decoder m)] ∧
    (∀ idx, entry feed idx = szero) ∧
    coverage st = None ∧
    attn_upper_bounds st = None ∧
    all st = (Some <$> hidden st) ++ [Some feed].
Proof.
  unfold init_decoder_state, init_input_feed, size_at. intros Hst.
  destruct context as [c|c lens].
  - destruct enc_hidden as [h|hs]; cbn [mapR] in *.
    + destruct (_fix_enc_hidden m h) as [h'|]; [|discriminate]. cbn in Hst.
      destruct (shape c !! 1) as [batch|] eqn:Eb; [|discriminate].
      injection Hst as <-. by exists c, batch, (unsqueeze 0 (full [batch; hidden_size (decoder m)] szero)).
    + destruct (mapR (_fix_enc_hidden m) hs) as [hs'|]; [|discriminate]. cbn in Hst.
      destruct (shape c !! 1) as [batch|] eqn:Eb; [|discriminate].
      injection Hst as <-. by exists c, batch, (unsqueeze 0 (full [batch; hidden_size (decoder m)] szero)).
  - destruct enc_hidden as [h|hs]; cbn in Hst.
    + destruct (_fix_enc_hidden m h); discriminate.
    + destruct (mapR (_fix_enc_hidden m) hs); discriminate.
Qed.

(** ** The multi-GPU switch of [NMTModel.forward] *)

(** X9. The [multigpu] flag changes nothing but the result tuple: the same
    calls are made and the same errors raised, the outputs and the budget are
    the same, and the attention maps and the decoder state are replaced by
    [None]. *)
Theorem multigpu_only_hides_results (enc : Enc) (dec : Dec) src tgt lengths dec_state
    (s : St) :
  let run b := NMTModel_forward (mkNMTModel b enc dec) src tgt lengths dec_state s in
  (run true).2 = (run false).2 ∧
  match (run false).1 with
  | Ok (out, attns, st, ub) =>
      (run true).1 = Ok (out, None, None, ub) ∧ is_Some attns ∧ is_Some st
  | Raise e => (run true).1 = Raise e
  end.
Proof.
  cbv zeta. unfold NMTModel_forward, init_decoder_state, _fix_enc_hidden.
  cbn [multigpu encoder decoder]. unfold bind, lift, ret.
  destruct (drop_last tgt) as [tgt'|]; [|done].
  destruct (Encoder_forward enc src lengths None s) as [[[[h c] f]|] s1]; [|done].
  match goal with |- context [res_bind ?a ?b] => destruct (res_bind a b) as [st0|] end;
    [|done].
  destruct c as [c|]; [|done].
  destruct (Decoder_forward _ _ _ _ _ _ _) as [[[[[out st'] attns] ub]|] s2]; [|done].
  cbn. eauto.
Qed.

(** ** Detaching *)

Lemma detach_list_lookup (es : list (option nat)) (σ : Sto) (l : nat) :
  foldl detach_step σ es !! l
  = if decide (Some l ∈ es) then detach_ <$> σ !! l else σ !! l.
Proof.
  revert σ. induction es as [|e es IH]; intros σ.
  - cbn [foldl]. case_decide as Hin; [by apply elem_of_nil in Hin|done].
  - cbn [foldl]. rewrite IH. destruct e as [l0|]; cbn [detach_step].
    + destruct (decide (l0 = l)) as [->|Hne].
      * rewrite lookup_alter_eq.
        repeat case_decide; rewrite ?elem_of_cons in *; try (intuition congruence).
        all: by destruct (σ !! l).
      * rewrite lookup_alter_ne by done.
        repeat case_decide; rewrite ?elem_of_cons in *; try done; intuition congruence.
    + repeat case_decide; rewrite ?elem_of_cons in *; try done; intuition congruence.
Qed.

(** X10. [detach] changes no tensor and no [volatile] flag, adds and removes
    no object, and detaching twice is detaching once. *)
Theorem detach_keeps_data (st : DecoderState nat) (σ : Sto) :
  dom (detach st σ) = dom σ ∧
  (∀ l, data <$> detach st σ !! l = data <$> σ !! l) ∧
  (∀ l, volatile <$> detach st σ !! l = volatile <$> σ !! l) ∧
  detach st (detach st σ) = detach st σ.
Proof.
  rewrite !detach_unfold.
  assert (Hl : ∀ l, foldl detach_step σ (state_all st) !! l = σ !! l ∨
                    foldl detach_step σ (state_all st) !! l = detach_ <$> σ !! l).
  { intros l. rewrite detach_list_lookup. case_decide; auto. }
  split; [|split; [|split]].
  - apply set_eq. intros l. rewrite !elem_of_dom.
    destruct (Hl l) as [->| ->]; [done|]. by rewrite fmap_is_Some.
  - intros l. destruct (Hl l) as [->| ->]; [done|]. by destruct (σ !! l).
  - intros l. destruct (Hl l) as [->| ->]; [done|]. by destruct (σ !! l).
  - apply map_eq. intros l. rewrite !detach_list_lookup.
    case_decide; [|done]. by destruct (σ !! l).
Qed.

(** ** What [repeatBeam_] puts into the state *)

Lemma repeat_1n1_spec (n : nat) (t t' : T) a b d :
  shape t = [a; b; d] →
  repeat_1n1 n t = Ok t' →
  shape t' = [a; b * n; d] ∧
  ∀ i j k, entry t' [i; j; k] = entry t [i; j mod b; k].
Proof.
  unfold repeat_1n1, pad_shape. intros ->. cbn. intros [= <-]. done.
Qed.

Lemma repeat_all_tiles beamSize (es : list (option nat)) (σ σ' : Sto) news :
  repeat_all beamSize es σ = Ok (news, σ') →
  Forall2 (fun e r => ∃ l v t,
             e = Some l ∧ σ' !! l = Some v ∧
             repeat_1n1 beamSize (data v) = Ok t ∧
             σ' !! r = Some (mkVar t false false false)) es news.
Proof.
  revert σ news. induction es as [|e es IH]; intros σ news Hrun.
  - injection Hrun as <- <-. constructor.
  - cbn [repeat_all] in Hrun.
    destruct e as [l|]; [|discriminate]. cbn [deref] in Hrun.
    destruct (σ !! l) as [v|] eqn:El; [|discriminate].
    destruct (repeat_1n1 beamSize (data v)) as [t|] eqn:Et; [|discriminate].
    cbn [res_bind] in Hrun.
    destruct (alloc (mkVar t false false false) σ) as [r σ1] eqn:Ea.
    destruct (repeat_all beamSize es σ1) as [[rs σ2]|] eqn:Er; [|discriminate].
    injection Hrun as <- <-.
    apply alloc_fresh in Ea as (Hr & Hr1 & Hd & Hold).
    pose proof (repeat_all_extends _ _ _ _ _ Er) as (Hkeep & _ & _).
    constructor; [|by eapply IH].
    exists l, v, t. split; [done|]. split; [|split; [done|]].
    + rewrite Hkeep by (rewrite Hd; apply elem_of_union_r; by apply elem_of_dom_2 in El).
      rewrite Hold by (by apply elem_of_dom_2 in El). done.
    + rewrite Hkeep by (rewrite Hd; apply elem_of_union_l; by apply elem_of_singleton).
      done.
Qed.

Lemma rewrap_all_copies (l : list nat) (σ σ' : Sto) news :
  rewrap_all l σ = Ok (news, σ') →
  Forall2 (fun a r => ∃ v, σ' !! a = Some v ∧
                           σ' !! r = Some (mkVar (data v) false false true)) l news.
Proof.
  revert σ news. induction l as [|a l IH]; intros σ news Hrun.
  - injection Hrun as <- <-. constructor.
  - cbn [rewrap_all] in Hrun.
    destruct (σ !! a) as [v|] eqn:El; [|discriminate].
    destruct (alloc (mkVar (data v) false false true) σ) as [r σ1] eqn:Ea.
    destruct (rewrap_all l σ1) as [[rs σ2]|] eqn:Er; [|discriminate].
    injection Hrun as <- <-.
    apply alloc_fresh in Ea as (Hr & Hr1 & Hd & Hold).
    pose proof (rewrap_all_extends _ _ _ _ Er) as (Hkeep & _ & _).
    constructor; [|by eapply IH].
    exists v. split.
    + rewrite Hkeep by (rewrite Hd; apply elem_of_union_r; by apply elem_of_dom_2 in El).
      rewrite Hold by (by apply elem_of_dom_2 in El). done.
    + rewrite Hkeep by (rewrite Hd; apply elem_of_union_l; by apply elem_of_singleton).
      done.
Qed.

Lemma Forall2_compose {A B C} (P : A → B → Prop) (Q : B → C → Prop)
    (S : A → C → Prop) (l : list A) (k : list B) (m : list C) :
  (∀ x y z, P x y → Q y z → S x z) →
  Forall2 P l k → Forall2 Q k m → Forall2 S l m.
Proof.
  intros HPQ Hlk. revert m. induction Hlk as [|x y l k Hxy _ IH]; intros m Hkm.
  - apply Forall2_nil_inv_l in Hkm as ->. constructor.
  - apply Forall2_cons_inv_l in Hkm as (z & m' & Hyz & Hkm & ->).
    constructor; eauto.
Qed.

Lemma last_Some_split {A} (l : list A) (x : A) :
  List.last (Some <$> l) None = Some x → l = removelast l ++ [x].
Proof.
  induction l as [|a l IH]; [discriminate|].
  destruct l as [|b l]; [by intros [= ->]|].
  intros Hl. change (removelast (a :: b :: l)) with (a :: removelast (b :: l)).
  simpl. f_equal. by apply IH.
Qed.

(** X11. After a successful [repeatBeam_] every member of [all] is a new
    object, volatile and without history, whose tensor is the old member's
    tensor repeated [beamSize] times along dimension 1 (entry (i, j, k) is
    the old entry (i, j mod batch, k)); the old objects are still in the store
    as they were, and [all] is again the hidden tuple followed by the input
    feed. *)
Theorem repeatBeam_tiles (s : RNNDecoderState nat) beamSize (σ σ' : Sto) st' :
  repeatBeam_ (RNNState s) beamSize σ = Ok (st', σ') →
  ∃ s' feed,
    st' = RNNState s' ∧
    input_feed s' = Some feed ∧
    all s' = (Some <$> hidden s') ++ [Some feed] ∧
    (∀ l, l ∈ dom σ → σ' !! l = σ !! l) ∧
    Forall2 (fun old new => ∃ l r v t,
               old = Some l ∧ new = Some r ∧
               σ' !! l = Some v ∧
               (r ∉ dom σ) ∧
               σ' !! r = Some (mkVar t false false true) ∧
               repeat_1n1 beamSize (data v) = Ok t ∧
               ∀ a b d, shape (data v) = [a; b; d] →
                 shape t = [a; b * beamSize; d] ∧
                 ∀ i j k, entry t [i; j; k] = entry (data v) [i; j mod b; k])
            (all s) (all s').
Proof.
  cbn [repeatBeam_]. intros Hrun.
  destruct (repeat_all beamSize (all s) σ) as [[news σ1]|] eqn:Hrep; [|discriminate].
  cbn [res_bind] in Hrun. unfold RNN_resetAll in Hrun.
  destruct (rewrap_all news σ1) as [[vars σ2]|] eqn:Hwrap; [|discriminate].
  cbn [res_bind] in Hrun.
  destruct (List.last (Some <$> vars) None) as [feed|] eqn:Hlast; [|discriminate].
  cbn [res_bind] in Hrun. injection Hrun as <- <-.
  pose proof (repeat_all_extends _ _ _ _ _ Hrep) as (Hk1 & Hsub1 & Hnew1).
  pose proof (rewrap_all_extends _ _ _ _ Hwrap) as (Hk2 & Hsub2 & Hnew2).
  apply repeat_all_tiles in Hrep. apply rewrap_all_copies in Hwrap.
  eexists _, feed. split; [reflexivity|]. cbn [input_feed all hidden].
  split; [done|]. split; [done|]. split.
  { intros l Hl. rewrite Hk2 by set_solver. by apply Hk1. }
  rewrite <- (fmap_app Some _ [feed]), <- (last_Some_split _ _ Hlast).
  apply Forall2_fmap_r.
  assert (Hnew2' : Forall (fun r => r ∉ dom σ) vars).
  { eapply Forall_impl; [exact Hnew2|]. intros r [Hr _]. set_solver. }
  assert (Hboth : Forall2 (fun a r => (∃ v, σ2 !! a = Some v ∧
                     σ2 !! r = Some (mkVar (data v) false false true)) ∧ r ∉ dom σ)
                    news vars).
  { clear -Hwrap Hnew2'. induction Hwrap; [constructor|].
    apply Forall_cons in Hnew2' as [? ?]. constructor; auto. }
  eapply Forall2_compose; [|exact Hrep|exact Hboth].
  intros e r r' (l & v & t & -> & Hl & Ht & Hr) [(v2 & Hv2 & Hr') Hfresh]. cbv beta.
  assert (Hl2 : σ2 !! l = Some v).
  { rewrite Hk2 by (by apply elem_of_dom_2 in Hl). done. }
  assert (Hr2 : σ2 !! r = Some (mkVar t false false false)).
  { rewrite Hk2 by (by apply elem_of_dom_2 in Hr). done. }
  rewrite Hr2 in Hv2. injection Hv2 as <-. cbn [data] in Hr'.
  exists l, r', v, t. repeat split; try done.
  all: by destruct (repeat_1n1_spec _ _ _ _ _ _ ltac:(eassumption) Ht).
Qed.

(** ** Beam updates *)

(** What [beam_source] computes, row by row: hypothesis [q] of sentence [s]
    sits in row [q * n + s]. *)
Lemma beam_source_rows br beamSize idx positions (src : nat → nat) :
  beam_source br beamSize idx positions = Ok src →
  let n := br / beamSize in
  0 < beamSize ∧ beamSize * n = br ∧ idx < n ∧
  Forall (fun p => p < beamSize) positions ∧
  (length positions = beamSize ∨ length positions = 1) ∧
  ∀ q s, s < n →
    src (q * n + s)
    = if s =? idx
      then nth (if length positions =? 1 then 0 else q) positions 0 * n + idx
      else q * n + s.
Proof.
  intros Hsrc. cbv zeta. unfold beam_source in Hsrc.
  destruct (Nat.eqb_spec beamSize 0) as [|Hb]; [discriminate|].
  cbv zeta in Hsrc. set (n := br / beamSize) in *.
  destruct (Nat.eqb_spec (beamSize * n) br) as [Hbr|]; [|discriminate].
  destruct (Nat.ltb_spec idx n) as [Hidx|]; [|discriminate]. cbn [negb] in Hsrc.
  destruct (forallb _ positions) eqn:Hpos; [|discriminate]. cbn [negb] in Hsrc.
  destruct (expandable _ _) eqn:Hexp; [|discriminate]. cbn [negb] in Hsrc.
  injection Hsrc as <-.
  split; [lia|]. split; [done|]. split; [done|]. split; [|split].
  - apply Forall_forall. intros p Hp.
    rewrite forallb_forall in Hpos. apply Nat.ltb_lt, Hpos. by apply list_elem_of_In.
  - unfold expandable, pad_shape in Hexp. cbn in Hexp.
    rewrite andb_true_r in Hexp.
    destruct (Nat.eqb_spec (length positions) beamSize); [by left|].
    destruct (Nat.eqb_spec (length positions) 1); [by right|]. discriminate.
  - intros q s Hs.
    assert (Hn : n ≠ 0) by lia.
    assert (Hm : (q * n + s) mod n = s).
    { rewrite Nat.add_comm, Nat.Div0.mod_add. apply Nat.mod_small; lia. }
    assert (Hd : (q * n + s) / n = q).
    { rewrite Nat.add_comm, Nat.div_add by lia. rewrite Nat.div_small; lia. }
    rewrite Hm, Hd. done.
Qed.

(** The same tensor as far as its entries can be read. *)
Definition same_tensor (t t' : T) : Prop :=
  shape t' = shape t ∧ ∀ i, in_range (shape t) i → entry t' i = entry t i.

Definition same_var (v v' : Obj) : Prop :=
  same_tensor (data v) (data v') ∧ requires_grad v' = requires_grad v ∧
  grad_fn v' = grad_fn v ∧ volatile v' = volatile v.

Definition same_store (σ σ' : Sto) : Prop :=
  ∀ l, match σ !! l, σ' !! l with
       | Some v, Some v' => same_var v v'
       | None, None => True
       | _, _ => False
       end.

Lemma same_tensor_trans (t1 t2 t3 : T) :
  same_tensor t1 t2 → same_tensor t2 t3 → same_tensor t1 t3.
Proof.
  intros [Hs1 He1] [Hs2 He2]. split; [congruence|].
  intros i Hi. rewrite He2, He1; [done..|]. by rewrite Hs1.
Qed.

Lemma same_store_refl (σ : Sto) : same_store σ σ.
Proof. intros l. destruct (σ !! l); [|done]. done. Qed.

Lemma same_store_trans (σ1 σ2 σ3 : Sto) :
  same_store σ1 σ2 → same_store σ2 σ3 → same_store σ1 σ3.
Proof.
  intros H12 H23 l. specialize (H12 l). specialize (H23 l).
  destruct (σ1 !! l), (σ2 !! l), (σ3 !! l); try done.
  destruct H12 as (? & ? & ? & ?), H23 as (? & ? & ? & ?).
  split; [by eapply same_tensor_trans|]. repeat split; congruence.
Qed.

Lemma update_at_same (f : T → Res T) e (σ σ' : Sto) :
  (∀ t t', f t = Ok t' → same_tensor t t') →
  update_at f e σ = Ok σ' → same_store σ σ'.
Proof.
  intros Hf. unfold update_at. destruct e as [l|]; [|discriminate]. cbn [deref].
  destruct (σ !! l) as [v|] eqn:El; [|discriminate].
  destruct (f (data v)) as [t|] eqn:Et; [|discriminate]. intros [= <-].
  intros k. destruct (decide (k = l)) as [->|Hne].
  - rewrite El, lookup_insert_eq. split; [by apply Hf|done].
  - rewrite lookup_insert_ne by done. apply same_store_refl.
Qed.

Lemma update_each_same (f : T → Res T) es (σ σ' : Sto) :
  (∀ t t', f t = Ok t' → same_tensor t t') →
  update_each f es σ = Ok σ' → same_store σ σ'.
Proof.
  intros Hf. revert σ. induction es as [|e es IH]; intros σ.
  - intros [= <-]. apply same_store_refl.
  - cbn [update_each]. destruct (update_at f e σ) as [σ1|] eqn:E1; [|discriminate].
    cbn [res_bind]. intros Hrest.
    eapply same_store_trans; [by eapply update_at_same|by apply IH].
Qed.

Lemma beam_source_identity br beamSize idx (src : nat → nat) :
  beam_source br beamSize idx (seq 0 beamSize) = Ok src →
  ∀ r, r < br → src r = r.
Proof.
  intros Hsrc r Hr.
  apply beam_source_rows in Hsrc as (Hb & Hbr & Hidx & _ & _ & Hrows).
  set (n := br / beamSize) in *.
  assert (Hn : n ≠ 0) by lia.
  rewrite (Nat.div_mod_eq r n), (Nat.mul_comm n).
  rewrite Hrows by (apply Nat.mod_upper_bound; lia).
  destruct (Nat.eqb_spec (r mod n) idx) as [<-|]; [|done].
  f_equal. rewrite length_seq.
  assert (Hq : r / n < beamSize).
  { apply Nat.Div0.div_lt_upper_bound. lia. }
  destruct (Nat.eqb_spec beamSize 1) as [->|].
  - assert (r / n = 0) by lia. by rewrite H1.
  - by rewrite seq_nth.
Qed.

Lemma beam_copy3_identity idx beamSize (e e' : T) :
  beam_copy3 idx (seq 0 beamSize) beamSize e = Ok e' → same_tensor e e'.
Proof.
  unfold beam_copy3. intros He.
  destruct (unpack3 (shape e)) as [[[a br] d]|] eqn:Es; [|discriminate].
  apply unpack3_ok in Es. cbn [res_bind] in He.
  destruct (beam_source br beamSize idx (seq 0 beamSize)) as [src|] eqn:Hsrc;
    [|discriminate].
  injection He as <-. split; [done|]. intros i Hi. cbn [entry].
  rewrite Es in Hi. unfold in_range in Hi.
  apply Forall2_cons_inv_r in Hi as (x & i1 & _ & Hi & ->).
  apply Forall2_cons_inv_r in Hi as (r & i2 & Hr & Hi & ->).
  apply Forall2_cons_inv_r in Hi as (k & i3 & _ & Hi & ->).
  apply Forall2_nil_inv_r in Hi as ->.
  by rewrite (beam_source_identity _ _ _ _ Hsrc r Hr).
Qed.

Lemma beam_copy2_identity idx beamSize (e e' : T) :
  beam_copy2 idx (seq 0 beamSize) beamSize e = Ok e' → same_tensor e e'.
Proof.
  unfold beam_copy2. intros He.
  destruct (unpack2 (shape e)) as [[br d]|] eqn:Es; [|discriminate].
  apply unpack2_ok in Es. cbn [res_bind] in He.
  destruct (beam_source br beamSize idx (seq 0 beamSize)) as [src|] eqn:Hsrc;
    [|discriminate].
  injection He as <-. split; [done|]. intros i Hi. cbn [entry].
  rewrite Es in Hi. unfold in_range in Hi.
  apply Forall2_cons_inv_r in Hi as (r & i2 & Hr & Hi & ->).
  apply Forall2_cons_inv_r in Hi as (k & i3 & _ & Hi & ->).
  apply Forall2_nil_inv_r in Hi as ->.
  by rewrite (beam_source_identity _ _ _ _ Hsrc r Hr).
Qed.

(** X12. A beam update with the identity permutation (hypothesis q takes the
    place of hypothesis q) changes nothing that can be read: every object of
    the store keeps its shape, its entries and its flags, and no object is
    added or removed. *)
Theorem beamUpdate_identity (st : DecoderState nat) idx beamSize (σ σ' : Sto) :
  beamUpdate_ st idx (seq 0 beamSize) beamSize σ = Ok σ' →
  ∀ l, match σ !! l, σ' !! l with
       | Some v, Some v' =>
           shape (data v') = shape (data v) ∧
           (∀ i, in_range (shape (data v)) i → entry (data v') i = entry (data v) i) ∧
           requires_grad v' = requires_grad v ∧
           grad_fn v' = grad_fn v ∧
           volatile v' = volatile v
       | None, None => True
       | _, _ => False
       end.
Proof.
  intros Hrun.
  assert (Hsame : same_store σ σ').
  { destruct st as [s|s]; cbn [beamUpdate_] in Hrun.
    - unfold RNN_beamUpdate_, DecoderState_beamUpdate_ in Hrun.
      destruct (update_each _ _ σ) as [σ1|] eqn:E1; [|discriminate].
      cbn [res_bind] in Hrun.
      apply update_each_same in E1; [|apply beam_copy3_identity].
      destruct (attn_upper_bounds s) as [e|].
      + apply update_at_same in Hrun; [|apply beam_copy2_identity].
        by eapply same_store_trans.
      + by injection Hrun as <-.
    - unfold DecoderState_beamUpdate_ in Hrun.
      by apply update_each_same in Hrun; [|apply beam_copy3_identity]. }
  intros l. specialize (Hsame l).
  destruct (σ !! l), (σ' !! l); try done.
  by destruct Hsame as ([? ?] & ? & ? & ?).
Qed.

Lemma update_each_distinct (f : T → Res T) es (σ σ' : Sto) :
  update_each f es σ = Ok σ' →
  NoDup es →
  ∀ l, Some l ∈ es →
    ∃ v t, σ !! l = Some v ∧ f (data v) = Ok t ∧ σ' !! l = Some (set_data v t).
Proof.
  revert σ. induction es as [|e es IH]; intros σ Hrun Hnd l Hl.
  - by apply elem_of_nil in Hl.
  - cbn [update_each] in Hrun.
    destruct (update_at f e σ) as [σ1|] eqn:E1; [|discriminate].
    cbn [res_bind] in Hrun. apply NoDup_cons in Hnd as [Hne Hnd].
    apply elem_of_cons in Hl as [<-|Hl].
    + unfold update_at in E1. cbn [deref] in E1.
      destruct (σ !! l) as [v|] eqn:El; [|discriminate].
      destruct (f (data v)) as [t|] eqn:Et; [|discriminate]. injection E1 as <-.
      exists v, t. split; [done|]. split; [done|].
      rewrite (update_each_frame _ _ _ _ _ Hrun Hne). by rewrite lookup_insert_eq.
    + destruct (IH _ Hrun Hnd l Hl) as (v & t & Hv & Ht & Hv').
      exists v, t. split; [|done].
      rewrite <- Hv. symmetry. eapply update_at_frame; [exact E1|].
      intros ->. done.
Qed.

(** X13. [DecoderState.beamUpdate_] on a state whose members are distinct
    objects: a member of shape a x br x d is split into [beamSize] groups of
    [n = br // beamSize] rows; in every group the row of sentence [idx] is
    replaced by the row that sentence has in the group named by [positions],
    and all other rows stay as they are. *)
Theorem beamUpdate_rows (st : DecoderState nat) idx positions beamSize (σ σ' : Sto) :
  DecoderState_beamUpdate_ st idx positions beamSize σ = Ok σ' →
  NoDup (state_all st) →
  ∀ l, Some l ∈ state_all st →
    ∃ v v' a br d,
      σ !! l = Some v ∧ σ' !! l = Some v' ∧
      shape (data v) = [a; br; d] ∧ shape (data v') = [a; br; d] ∧
      let n := br / beamSize in
      beamSize * n = br ∧ idx < n ∧
      ∀ x q s k, s < n →
        entry (data v') [x; q * n + s; k]
        = if s =? idx
          then entry (data v)
                 [x; nth (if length positions =? 1 then 0 else q) positions 0 * n + idx; k]
          else entry (data v) [x; q * n + s; k].
Proof.
  intros Hrun Hnd l Hl. unfold DecoderState_beamUpdate_ in Hrun.
  destruct (update_each_distinct _ _ _ _ Hrun Hnd l Hl) as (v & t & Hv & Ht & Hv').
  unfold beam_copy3 in Ht.
  destruct (unpack3 (shape (data v))) as [[[a br] d]|] eqn:Es; [|discriminate].
  apply unpack3_ok in Es. cbn [res_bind] in Ht.
  destruct (beam_source br beamSize idx positions) as [src|] eqn:Hsrc; [|discriminate].
  injection Ht as <-.
  apply beam_source_rows in Hsrc as (_ & Hbr & Hidx & _ & _ & Hrows).
  exists v, (set_data v (mkTensor (shape (data v))
               (fun i => match i with
                         | [x; r; k] => entry (data v) [x; src r; k]
                         | _ => entry (data v) i
                         end))), a, br, d.
  split; [done|]. split; [done|]. split; [done|]. split; [done|].
  cbv zeta. split; [done|]. split; [done|].
  intros x q s k Hs. cbn [set_data data entry]. rewrite (Hrows q s Hs).
  by destruct (s =? idx).
Qed.

(** ** What the stacked attention maps hold *)

Lemma stack_attns_lookup ub (m : gmap string (list (@AttnEntry R)))
    (attns : gmap string T) k l :
  stack_attns ub m = Ok attns →
  m !! k = Some l →
  ∃ ts A, mapM (read_entry ub) l = Some ts ∧ stack ts = Ok A ∧ attns !! k = Some A.
Proof.
  unfold stack_attns. case_bool_decide as Hdom; [|discriminate]. intros [= <-] Hl.
  assert (Hk : k ∈ dom (omap (stack_entries ub) m)).
  { rewrite Hdom. by apply elem_of_dom_2 in Hl. }
  apply elem_of_dom in Hk as [A HA]. rewrite HA.
  rewrite lookup_omap, Hl in HA. cbn in HA. unfold stack_entries in HA.
  destruct (mapM (read_entry ub) l) as [ts|]; [|discriminate].
  destruct (stack ts) as [A'|] eqn:Es; [|discriminate]. injection HA as ->. eauto.
Qed.

Lemma mapM_recorded ub (ws : list T) :
  mapM (read_entry ub) (Recorded <$> ws) = Some ws.
Proof. apply mapM_Some. apply Forall2_fmap_l, Forall_Forall2_diag, Forall_true. done. Qed.

Lemma mapM_budget_refs (ub : option T) n ts :
  mapM (read_entry ub) (replicate (S n) BudgetRef) = Some ts →
  ∃ u, ub = Some u ∧ ts = replicate (S n) u.
Proof.
  intros Hts%mapM_Some. destruct ub as [u|].
  - exists u. split; [done|]. remember (S n) as k eqn:Ek. clear Ek.
    revert ts Hts. induction k as [|k IH]; intros ts Hts.
    + by apply Forall2_nil_inv_l in Hts as ->.
    + cbn [replicate] in Hts.
      apply Forall2_cons_inv_l in Hts as (t & ts' & [= <-] & Hts & ->).
      cbn [replicate]. f_equal. by apply IH.
  - cbn [replicate] in Hts. by apply Forall2_cons_inv_l in Hts as (? & ? & [=] & _).
Qed.

(** The step appends the budget object to the "upper_bounds" list when
    exhaustion loss is on. *)
Lemma decoder_step_budget_ref (dec : Dec) context n_batch_ s_len_ (ls ls' : Loop)
    emb_t (s s' : St) l :
  exhaustion_loss dec = true →
  decoder_step dec context n_batch_ s_len_ ls emb_t s = (Ok ls', s') →
  ls_attns ls !! "upper_bounds" = Some l →
  ls_attns ls' !! "upper_bounds" = Some (l ++ [BudgetRef]).
Proof.
  intros Hexh Hstep Hl. unfold decoder_step in Hstep.
  m_inv; try congruence; simpl; append_inv.
  all: match goal with
       | Hf : ?m' !! "upper_bounds" = Some (?l0 ++ [BudgetRef]),
         Hp : ?m !! "upper_bounds" = Some ?l0 |- ?m' !! "upper_bounds" = _ =>
           rewrite Hf; do 2 f_equal;
           assert (m !! "upper_bounds" = Some l) by (lookup_through; exact Hl);
           congruence
       end.
Qed.

(** X14. With exhaustion loss on, the "upper_bounds" map does not show the
    budget step by step: the loop appends the budget object itself and goes
    on updating it in place, so every time slice of the stacked map equals
    the budget as the last step left it.  The map has one slice per step:
    as many as the target has rows, and one for a target without rows, on
    whose single empty chunk the loop body still runs. *)
Theorem recorded_budgets_are_final (dec : Dec) input src context state upper_bounds
    (s s' : St) outs st attns ub :
  exhaustion_loss dec = true →
  Decoder_forward dec input src context state upper_bounds s
    = (Ok (outs, st, attns, ub), s') →
  ∃ U u,
    attns !! "upper_bounds" = Some U ∧
    ub = Some u ∧
    shape U = Nat.max 1 (hd 0 (shape input)) :: shape u ∧
    ∀ i idx, i < Nat.max 1 (hd 0 (shape input)) → entry U (i :: idx) = entry u idx.
Proof.
  intros Hexh Hrun.
  apply Decoder_forward_ok in Hrun
    as (n_batch_ & s_len_ & embs & ls0 & s1 & ls & Hsetup & Hloop & Hfin).
  apply decoder_setup_ok in Hsetup
    as (t_len & ? & ? & ? & ? & st0 & feed & ? & Hin & _ & _ & _ & _ & _ & Hlen & -> & _).
  apply decoder_finish_ok in Hfin as (_ & Houts & Hattns & -> & _).
  unfold Decoder_loop in Hloop.
  apply (foldM_invariant
           (fun done (a : Loop) (_ : St) =>
              ls_attns a !! "upper_bounds" = Some (replicate (length done) BudgetRef)))
    in Hloop.
  - destruct (stack_attns_lookup _ _ _ _ _ Hattns Hloop) as (ts & U & Hts & HU & Hk).
    rewrite Hlen in Hts. rewrite Hin. cbn [hd].
    destruct (Nat.max 1 t_len) as [|n] eqn:Em; [lia|].
    apply mapM_budget_refs in Hts as (u & Hu & ->).
    exists U, u. split; [done|]. split; [done|].
    apply stack_spec in HU as (t & l' & Hrep & Hshape & _ & Hentry).
    cbn [replicate] in Hrep. injection Hrep as <- _.
    rewrite length_replicate in Hshape. split; [done|].
    intros i idx Hi. rewrite Hentry. f_equal.
    apply nth_lookup_Some. by apply lookup_replicate_2.
  - cbn [ls_attns length replicate]. unfold init_attns. rewrite Hexh.
    by rewrite lookup_insert_eq.
  - intros done e a s2 a' s3 Ha Hstep.
    rewrite length_app, Nat.add_1_r, replicate_S_end.
    by eapply decoder_step_budget_ref.
Qed.

(** ** A budget handed in by the caller *)

Lemma Decoder_loop_std (dec : Dec) context n_batch_ s_len_ embs (ls0 ls : Loop)
    (s s' : St) :
  ls_attns ls0 !! "std" = Some [] →
  Decoder_loop dec context n_batch_ s_len_ ls0 embs s = (Ok ls, s') →
  ∃ ws, length ws = length embs ∧ ls_attns ls !! "std" = Some (Recorded <$> ws).
Proof.
  intros Hstd Hloop. unfold Decoder_loop in Hloop.
  apply (foldM_invariant
           (fun done (a : Loop) (_ : St) =>
              ∃ ws, length ws = length done ∧
                    ls_attns a !! "std" = Some (Recorded <$> ws))) in Hloop; [done| |].
  - by exists [].
  - intros done e a s2 a' s3 (ws & Hlen & Hws) Hstep.
    apply decoder_step_budget in Hstep
      as (u1 & w & u2 & l & _ & _ & _ & Hl & Hl' & _ & _).
    exists (ws ++ [w]). rewrite !length_app, Hlen. split; [done|].
    rewrite Hl', fmap_app. cbn. congruence.
Qed.

Lemma init_attns_std (dec : Dec) : init_attns dec !! "std" = Some [].
Proof.
  unfold init_attns.
  destruct (_copy dec), (_coverage dec), (exhaustion_loss dec);
    by repeat (rewrite lookup_insert_ne by done).
Qed.

(** A supplied budget [u0] after the weights [ws]: outside the sink column,
    what was supplied minus the weights, one by one. *)
Definition budget_continues (u0 : T) (ws : list T) (ls : Loop) : Prop :=
  ls_attns ls !! "std" = Some (Recorded <$> ws) ∧
  ∃ u b c, ls_upper_bounds ls = Some u ∧ shape u0 = [b; c] ∧ shape u = [b; c] ∧
           ∀ i j, j ≠ c - 1 → entry u [i; j] = spent (entry u0 [i; j]) ws [i; j].

Lemma decoder_step_continues (dec : Dec) context n_batch_ s_len_ u0 ws (ls ls' : Loop)
    emb_t (s s' : St) :
  budget_continues u0 ws ls →
  decoder_step dec context n_batch_ s_len_ ls emb_t s = (Ok ls', s') →
  ∃ a, budget_continues u0 (ws ++ [a]) ls'.
Proof.
  intros (Hstd & u & b & c & Hu & Hs0 & Hs & He) Hstep.
  apply decoder_step_budget in Hstep
    as (u1 & a & u2 & l & Hu1 & Hsub & Hub' & Hl & Hl' & _ & _).
  apply isub__spec in Hsub as [Hshape Hentry].
  rewrite Hu in Hu1. eapply step_upper_bounds_next in Hu1 as [Hs1 Hsame]; [|done].
  exists a. split.
  { rewrite Hl', fmap_app. cbn. congruence. }
  exists u2, b, c. split; [done|]. split; [done|]. split; [congruence|].
  intros i j Hj. unfold spent. rewrite foldl_app. cbn [foldl].
  rewrite Hentry, Hsame by done. f_equal. by apply He.
Qed.

(** X15. A budget passed to [Decoder.forward] is not initialised again: it
    keeps its shape, and after the call every entry outside the sink column
    is the entry that was passed in with the attention weights of all steps
    subtracted one by one; these weights are what the "std" map stacks.  There
    is one weight per step: as many as the target has rows, and one for a
    target without rows. *)
Theorem supplied_budget_is_continued (dec : Dec) input src context state (u0 : T)
    (s s' : St) outs st attns ub b c :
  shape u0 = [b; c] →
  Decoder_forward dec input src context state (Some u0) s
    = (Ok (outs, st, attns, ub), s') →
  ∃ u ws A,
    ub = Some u ∧ shape u = [b; c] ∧
    length ws = Nat.max 1 (hd 0 (shape input)) ∧
    attns !! "std" = Some A ∧ stack ws = Ok A ∧
    ∀ i j, j ≠ c - 1 → entry u [i; j] = spent (entry u0 [i; j]) ws [i; j].
Proof.
  intros Hs0 Hrun.
  apply Decoder_forward_ok in Hrun
    as (n_batch_ & s_len_ & embs & ls0 & s1 & ls & Hsetup & Hloop & Hfin).
  apply decoder_setup_ok in Hsetup
    as (t_len & ? & ? & ? & ? & st0 & feed & ? & Hin & _ & _ & _ & _ & _ & Hlen & -> & _).
  apply decoder_finish_ok in Hfin as (_ & Houts & Hattns & -> & _).
  unfold Decoder_loop in Hloop.
  apply (foldM_invariant
           (fun done (a : Loop) (_ : St) =>
              ∃ ws, length ws = length done ∧ budget_continues u0 ws a))
    in Hloop.
  - destruct Hloop as (ws & Hws & Hstd & u & b' & c' & Hu & Hs0' & Hs & He).
    rewrite Hs0 in Hs0'. injection Hs0' as <- <-.
    destruct (stack_attns_lookup _ _ _ _ _ Hattns Hstd) as (ts & A & Hts & HA & Hk).
    rewrite mapM_recorded in Hts. injection Hts as <-.
    exists u, ws, A. rewrite Hin. cbn [hd]. repeat split; try done. congruence.
  - exists []. split; [done|]. split; [apply init_attns_std|].
    exists u0, b, c. by cbn.
  - intros done e a s2 a' s3 (ws & Hlen' & Hc) Hstep.
    destruct (decoder_step_continues _ _ _ _ _ _ _ _ _ _ _ Hc Hstep) as (w & Hw).
    exists (ws ++ [w]). by rewrite !length_app, Hlen'.
Qed.

(** ** The sink column after the call *)

(** X16. Whatever the sink column held before, the returned budget keeps in
    it 100 minus the weight the last step put on the sink: the column is reset
    at every step, so earlier steps leave no trace there.  [a] is the last
    time slice of the stacked "std" map, which has one slice per step: as many
    as the target has rows, and one for a target without rows. *)
Theorem sink_column_after_call (dec : Dec) input src context state upper_bounds
    (s s' : St) outs st attns ub :
  Decoder_forward dec input src context state upper_bounds s
    = (Ok (outs, st, attns, ub), s') →
  ∃ u a A b c rest,
    ub = Some u ∧ shape u = b :: S c :: rest ∧
    attns !! "std" = Some A ∧
    hd 0 (shape A) = Nat.max 1 (hd 0 (shape input)) ∧
    (∀ idx, entry A ((Nat.max 1 (hd 0 (shape input)) - 1) :: idx) = entry a idx) ∧
    ∀ i r, entry u (i :: c :: r) = ssub s100 (weight_at a (i :: c :: r)).
Proof.
  intros Hrun.
  apply Decoder_forward_ok in Hrun
    as (n_batch_ & s_len_ & embs & ls0 & s1 & ls & Hsetup & Hloop & Hfin).
  apply decoder_setup_ok in Hsetup
    as (t_len & ? & ? & ? & ? & st0 & feed & ? & Hin & _ & _ & _ & _ & _ & Hlen & -> & _).
  apply decoder_finish_ok in Hfin as (_ & Houts & Hattns & -> & _).
  assert (Hpos : 0 < length embs).
  { destruct (Decoder_loop_steps _ _ _ _ _ _ _ _ _ Hloop) as (Hn & _).
    destruct (ls_outputs ls); [discriminate|]. cbn in Hn. lia. }
  destruct (Decoder_loop_last _ _ _ _ _ _ _ _ _ Hloop Hpos)
    as (init & emb_T & ls_prev & s_prev & -> & Hprefix & Hstep).
  apply Decoder_loop_std in Hprefix as (ws & Hws & Hstd);
    [|apply init_attns_std].
  pose proof (decoder_step_budget _ _ _ _ _ _ _ _ _ Hstep)
    as (u1 & a & u2 & l & Hu1 & Hsub & Hub & Hl & Hl' & _ & _).
  apply step_upper_bounds_reset in Hu1 as (b & c & rest & Hs1 & Hsink).
  apply isub__spec in Hsub as [Hs2 He2].
  rewrite Hstd in Hl. injection Hl as <-.
  assert (Hstd' : ls_attns ls !! "std" = Some (Recorded <$> (ws ++ [a]))).
  { rewrite Hl', fmap_app. done. }
  destruct (stack_attns_lookup _ _ _ _ _ Hattns Hstd') as (ts & A & Hts & HA & Hk).
  rewrite mapM_recorded in Hts. injection Hts as <-.
  apply stack_spec in HA as (t & l' & _ & HsA & _ & HeA).
  rewrite length_app in Hlen. cbn [length] in Hlen.
  exists u2, a, A, b, c, rest. rewrite Hin. cbn [hd].
  split; [done|]. split; [congruence|]. split; [done|]. split; [|split].
  - rewrite HsA, length_app. cbn. lia.
  - intros idx. rewrite HeA. f_equal.
    replace (Nat.max 1 t_len - 1) with (length ws) by lia.
    apply nth_lookup_Some. by rewrite list_lookup_middle.
  - intros i r. by rewrite He2, Hsink.
Qed.

(** ** The queries of the copy attention *)

Definition copy_query (ev : Event R) : option T :=
  match ev with CallCopyAttn query _ => Some query | _ => None end.

(** The queries of the copy-attention calls of a trace, in order. *)
Definition copy_queries (evs : list (Event R)) : list T := omap copy_query evs.

Lemma copy_queries_none (evs : list (Event R)) :
  Forall (fun ev => copy_query ev = None) evs → copy_queries evs = [].
Proof.
  induction 1 as [|ev evs Hev _ IH]; [done|].
  unfold copy_queries in *. cbn. by rewrite Hev.
Qed.

Lemma decoder_step_copy_query (dec : Dec) context n_batch_ s_len_ (ls ls' : Loop)
    emb_t (s s' : St) :
  _copy dec = true →
  decoder_step dec context n_batch_ s_len_ ls emb_t s = (Ok ls', s') →
  ∃ evs, trace s' = trace s ++ evs ∧
         copy_queries evs = [ls_output ls'] ∧
         ls_outputs ls' = ls_outputs ls ++ [ls_output ls'].
Proof.
  intros Hcopy Hstep. unfold decoder_step in Hstep. m_inv; try congruence.
  all: repeat match goal with
       | Ht : trace ?x = _ |- context [trace ?x] => rewrite Ht; clear Ht
       end.
  all: rewrite <- ?app_assoc; eexists; split; [reflexivity|]; done.
Qed.

(** X17. With copy attention on, the copy attention is queried once per step
    with the output of that step after gate and dropout: the queries of its
    calls, stacked in order, are the outputs [Decoder.forward] returns.  There
    is one query per step: as many as the target has rows, and one for a
    target without rows. *)
Theorem copy_attention_queries (dec : Dec) input src context state upper_bounds
    (s s' : St) outs st attns ub :
  _copy dec = true →
  Decoder_forward dec input src context state upper_bounds s
    = (Ok (outs, st, attns, ub), s') →
  ∃ evs, trace s' = trace s ++ evs ∧
         length (copy_queries evs) = Nat.max 1 (hd 0 (shape input)) ∧
         stack (copy_queries evs) = Ok outs.
Proof.
  intros Hcopy Hrun.
  apply Decoder_forward_ok in Hrun
    as (n_batch_ & s_len_ & embs & ls0 & s1 & ls & Hsetup & Hloop & Hfin).
  assert (Hpre : ∃ evs0, trace s1 = trace s ++ evs0 ∧ copy_queries evs0 = []).
  { assert (Hem : emits (fun ev => copy_query ev = None)
                    (decoder_setup dec input src context state upper_bounds)).
    { unfold decoder_setup.
      repeat first
        [ apply emits_ret | apply emits_lift
        | apply Embeddings_forward_emits; done
        | apply emits_bind; [|intros ? _ _ _]
        | case_match ]. }
    destruct (Hem s) as (evs0 & Htr & Hall). rewrite Hsetup in Htr.
    exists evs0. split; [done|]. by apply copy_queries_none. }
  destruct Hpre as (evs0 & Htr0 & Hq0).
  apply decoder_setup_ok in Hsetup
    as (t_len & ? & ? & ? & ? & st0 & feed & ? & Hin & _ & _ & _ & _ & _ & Hlen & -> & _).
  apply decoder_finish_ok in Hfin as (_ & Houts & _).
  pose proof (Decoder_loop_steps _ _ _ _ _ _ _ _ _ Hloop) as (Hn & _).
  unfold Decoder_loop in Hloop.
  apply (foldM_invariant
           (fun (done : list T) (a : Loop) (s2 : St) =>
              ∃ evs, trace s2 = trace s1 ++ evs ∧ copy_queries evs = ls_outputs a))
    in Hloop.
  - destruct Hloop as (evs & Htr & Hq).
    exists (evs0 ++ evs). rewrite Htr, Htr0, app_assoc. split; [done|].
    unfold copy_queries in *. rewrite omap_app, Hq0, Hq. cbn [app].
    split; [|done]. rewrite Hn, Hin. cbn -[Nat.max]. lia.
  - exists []. by rewrite app_nil_r.
  - intros done e a s2 a' s3 (evs & Htr & Hq) Hstep.
    apply decoder_step_copy_query in Hstep as (evs' & Htr' & Hq' & Hos); [|done].
    exists (evs ++ evs'). rewrite Htr', Htr, app_assoc. split; [done|].
    unfold copy_queries in *. by rewrite omap_app, Hq, Hq', Hos.
Qed.

(** ** The exceptions of a decoder call *)

(** X18. A decoder built by [Decoder.__init__] ends in nothing but an
    assertion error of its checks, an error of the tensor library
    ([ValueError], [IndexError], [RuntimeError]), or, when the state has no
    input feed, the [AttributeError] of reading it: never in [KeyError],
    every list the loop appends to having been put into the dictionary under
    the same flag, and never in a missing copy attention. *)
Theorem Decoder_forward_errors (opt : Options) (lib : @DecoderModules R World)
    (emb : Emb) input src context state upper_bounds (s : St) e :
  (Decoder_forward (Decoder_init opt lib emb) input src context state upper_bounds s).1
    = Raise e →
  e = AssertionError ∨ e = ValueError ∨ e = IndexError ∨ e = RuntimeError ∨
  (e = AttributeError ∧ ∃ st, state = RNNState st ∧ input_feed st = None).
Proof.
  intros He.
  exact (Decoder_forward_raises opt lib emb input src context state upper_bounds s e He).
Qed.

(** ** A state without input feed *)

(** X19. A recurrent state that has no input feed (as
    [RNNDecoderState(rnnstate)] leaves it before [init_input_feed]) passes the
    batch check and the state check and then fails with [AttributeError] when
    its input feed is read, after the embedding and before any decoding
    step. *)
Theorem Decoder_forward_without_input_feed (dec : Dec) input src context
    (st : RNNDecoderState T) upper_bounds (s s1 : St) emb t_len nb sl1 sl2 d1 d2 :
  shape input = [t_len; nb] →
  shape src = [sl1; nb; d1] →
  shape context = [sl2; nb; d2] →
  input_feed st = None →
  Embeddings_forward (dec_embeddings dec) (unsqueeze 2 input) s = (Ok emb, s1) →
  Decoder_forward dec input src context (RNNState st) upper_bounds s
  = (Raise AttributeError, s1).
Proof.
  intros Hin Hsrc Hctx Hfeed Hemb.
  unfold Decoder_forward, decoder_setup.
  rewrite !bind_bind, Hin. cbn [unpack2]. rewrite bind_lift_ok.
  rewrite !bind_bind, Hsrc. cbn [unpack3]. rewrite bind_lift_ok.
  rewrite !bind_bind, Hctx. cbn [unpack3]. rewrite bind_lift_ok.
  rewrite !bind_bind.
  rewrite (aeq_same nb 2 : aeq [nb; nb; nb] = Ok ()), bind_lift_ok, !bind_bind.
  rewrite (bind_run_ok _ _ _ _ _ Hemb). cbn [assert_RNNDecoderState].
  rewrite !bind_bind, bind_lift_ok, !bind_bind, Hfeed.
  by rewrite bind_lift_raise.
Qed.

(** ** The state checks inside [NMTModel.forward] *)

Lemma Encoder_forward_batch_ok (enc : Enc) input lengths hidden s_len n_batch n_feats :
  shape input = [s_len; n_batch; n_feats] →
  (∀ l, lengths = Some l → ∃ k, shape l = [k; n_batch]) →
  never_asserts (Encoder_forward enc input lengths hidden).
Proof.
  intros Hin Hl s. unfold Encoder_forward. rewrite Hin. cbn [unpack3].
  rewrite bind_lift_ok. cbv beta iota. revert s.
  apply never_asserts_bind.
  { destruct lengths as [l|]; [|apply never_asserts_ret].
    destruct (Hl l eq_refl) as [k Hk]. intros s. rewrite Hk. cbn [unpack2].
    rewrite bind_lift_ok. cbv beta iota.
    by rewrite (aeq_same n_batch 1 : aeq [n_batch; n_batch] = Ok ()). }
  intros _. apply never_asserts_bind; [apply Embeddings_forward_never_asserts|].
  intros emb. never_asserts_tac.
Qed.

Lemma mapR_errors {A B} (P : Error → Prop) (f : A → Res B) (l : list A) e :
  (∀ x e, f x = Raise e → P e) → mapR f l = Raise e → P e.
Proof.
  intros Hf. induction l as [|x l IH]; [discriminate|]. cbn [mapR].
  destruct (f x) as [y|e'] eqn:Ex; cbn [res_bind].
  - destruct (mapR f l); [discriminate|]. cbn. intros [= <-]. by apply IH.
  - intros [= <-]. by eapply Hf.
Qed.

Lemma fix_enc_hidden_errors (m : Model) (h : T) e :
  _fix_enc_hidden m h = Raise e → library_error e.
Proof.
  unfold _fix_enc_hidden. destruct (_ =? 2); [|discriminate].
  unfold stride2. destruct (shape h); cbn [res_bind]; [library_errors|].
  apply cat_errors.
Qed.

Lemma init_decoder_state_errors (m : Model) context enc_hidden e :
  init_decoder_state m context enc_hidden = Raise e →
  library_error e ∨ e = AttributeError.
Proof.
  unfold init_decoder_state. intros He.
  match type of He with res_bind ?r _ = _ => destruct r as [st|e'] eqn:Est end;
    cbn [res_bind] in He.
  - unfold init_input_feed, size_at in He. destruct context; [|injection He; auto].
    destruct (shape t !! 1); [discriminate|]. injection He as <-.
    left. unfold library_error. auto.
  - injection He as ->. left. destruct enc_hidden as [h|hs].
    + destruct (_fix_enc_hidden m h) eqn:Eh; [discriminate|]. injection Est as ->.
      by eapply fix_enc_hidden_errors.
    + destruct (mapR (_fix_enc_hidden m) hs) eqn:Eh; [discriminate|]. injection Est as ->.
      eapply mapR_errors; [|exact Eh]. intros. by eapply fix_enc_hidden_errors.
Qed.

Lemma init_decoder_state_feed (m : Model) (context : SeqData R) enc_hidden
    (st : RNNDecoderState T) :
  init_decoder_state m context enc_hidden = Ok st →
  ∃ c batch feed,
    context = Padded c ∧ shape c !! 1 = Some batch ∧
    input_feed st = Some feed ∧
    shape feed = [1; batch; hidden_size (decoder m)].
Proof.
  unfold init_decoder_state, init_input_feed, size_at. intros Hst.
  match type of Hst with res_bind ?r _ = _ => destruct r as [st0|] end;
    [|discriminate].
  cbn [res_bind] in Hst. destruct context as [c|c lens]; [|discriminate].
  destruct (shape c !! 1) as [batch|] eqn:Eb; [|discriminate].
  injection Hst as <-.
  by exists c, batch, (unsqueeze 0 (full [batch; hidden_size (decoder m)] szero)).
Qed.

(** A state with an input feed of the memory bank's batch size passes the
    decoder's checks whenever target and source have that batch size too. *)
Lemma Decoder_forward_batch_ok (dec : Dec) input src memory (st : RNNDecoderState T)
    upper_bounds feed t_len nb sl nf width :
  shape input = [t_len; nb] →
  shape src = [sl; nb; nf] →
  input_feed st = Some feed →
  shape feed = [1; nb; width] →
  shape memory !! 1 = Some nb →
  never_asserts (Decoder_forward dec input src memory (RNNState st) upper_bounds).
Proof.
  intros Hin Hsrc Hfeed Hshape Hmem s.
  unfold Decoder_forward, decoder_setup.
  rewrite !bind_bind, Hin. cbn [unpack2]. rewrite bind_lift_ok.
  rewrite !bind_bind, Hsrc. cbn [unpack3]. rewrite bind_lift_ok.
  rewrite !bind_bind.
  destruct (shape memory) as [|a [|b [|c [|? ?]]]] eqn:Em;
    try discriminate Hmem;
    try (cbn [unpack3]; rewrite bind_lift_raise; cbn; congruence).
  cbn in Hmem. injection Hmem as ->. cbn [unpack3]. rewrite bind_lift_ok, !bind_bind.
  rewrite (aeq_same nb 2 : aeq [nb; nb; nb] = Ok ()), bind_lift_ok, !bind_bind.
  destruct (Embeddings_forward (dec_embeddings dec) (unsqueeze 2 input) s)
    as [[emb|e] s1] eqn:Hemb.
  2:{ rewrite (bind_run_raise _ _ _ _ _ Hemb).
      pose proof (Embeddings_forward_never_asserts (dec_embeddings dec)
                    (unsqueeze 2 input) s) as Hne.
      rewrite Hemb in Hne. cbn in *. congruence. }
  rewrite (bind_run_ok _ _ _ _ _ Hemb). cbn [assert_RNNDecoderState].
  rewrite !bind_bind, bind_lift_ok, !bind_bind, Hfeed, bind_lift_ok.
  assert (Hsq : shape (squeeze0 feed) = [nb; width]).
  { unfold squeeze0. by rewrite Hshape. }
  rewrite !bind_bind, Hsq. cbn [unpack2]. rewrite bind_lift_ok, !bind_bind.
  rewrite (aeq_same nb 1 : aeq [nb; nb] = Ok ()), bind_lift_ok.
  apply (never_asserts_bind
           (Decoder_loop dec memory nb a
              (mkLoopState (squeeze0 feed) (hidden st) (squeeze0 <$> coverage st)
                           upper_bounds [] (init_attns dec))
              (split1 emb))
           decoder_finish).
  - apply never_asserts_foldM. intros. apply decoder_step_never_asserts.
  - apply decoder_finish_never_asserts.
Qed.

(** X20. When [NMTModel.forward] builds the decoder state itself and source,
    target and lengths agree on the batch size, the state always passes the
    decoder's state check and input-feed check: an [AssertionError] can only
    come from the decoder's first check, and only because the memory bank the
    encoder network returned has another batch size. *)
Theorem forward_state_checks_pass (m : Model) src tgt lengths (s : St) sl nb nf t_len :
  shape src = [sl; nb; nf] →
  shape tgt = [t_len; nb] →
  (∀ l, lengths = Some l → ∃ k, shape l = [k; nb]) →
  (NMTModel_forward m src tgt lengths None s).1 = Raise AssertionError →
  ∃ h memory fv s1,
    Encoder_forward (encoder m) src lengths None s = (Ok (h, Padded memory, fv), s1) ∧
    shape memory !! 1 ≠ Some nb.
Proof.
  intros Hsrc Htgt Hl Hrun. unfold NMTModel_forward in Hrun.
  unfold drop_last in Hrun. rewrite Htgt in Hrun. rewrite bind_lift_ok in Hrun.
  pose proof (Encoder_forward_batch_ok (encoder m) src lengths None _ _ _ Hsrc Hl s)
    as Henc.
  destruct (Encoder_forward (encoder m) src lengths None s)
    as [[[[h c] fv]|e] s1] eqn:Eenc.
  2:{ rewrite (bind_run_raise _ _ _ _ _ Eenc) in Hrun. cbn in *. congruence. }
  rewrite (bind_run_ok _ _ _ _ _ Eenc) in Hrun. cbv beta iota in Hrun.
  destruct (init_decoder_state m c h) as [st|e] eqn:Est.
  2:{ rewrite bind_lift_raise in Hrun. injection Hrun as ->.
      apply init_decoder_state_errors in Est as [[?|[?|?]]|?]; discriminate. }
  rewrite bind_lift_ok in Hrun.
  apply init_decoder_state_feed in Est
    as (memory & batch & feed & -> & Hb & Hfeed & Hshape).
  rewrite bind_lift_ok in Hrun.
  exists h, memory, fv, s1. split; [done|]. intros Hmem.
  rewrite Hb in Hmem. injection Hmem as ->.
  pose proof (Decoder_forward_batch_ok (decoder m) (mkTensor [t_len - 1; nb] (entry tgt))
                src memory st None feed (t_len - 1) nb sl nf _
                eq_refl Hsrc Hfeed Hshape Hb s1) as Hdec.
  unfold bind in Hrun.
  destruct (Decoder_forward _ _ _ _ _ _ _) as [[[[[out st'] attns] ub]|e] s2] eqn:Edec.
  - destruct (multigpu m); discriminate.
  - cbn in *. congruence.
Qed.

(** ** The state of the other decoder *)

(** X21. [TransformerDecoderState]: [repeatBeam_] does nothing, whatever the
    beam size; [_resetAll] wraps every tensor it is given in a new volatile
    object but keeps only the first as [previous_input], and raises
    [IndexError] on an empty list. *)
Theorem transformer_state_methods (st : TransformerDecoderState nat) (σ : Sto) :
  (∀ beamSize, repeatBeam_ (TransformerState st) beamSize σ = Ok (TransformerState st, σ)) ∧
  Transformer_resetAll st [] σ = Raise IndexError ∧
  ∀ a rest st' σ',
    Transformer_resetAll st (a :: rest) σ = Ok (st', σ') →
    ∃ v r,
      σ !! a = Some v ∧
      previous_input st' = Some r ∧ transformer_all st' = [Some r] ∧
      (r ∉ dom σ) ∧
      σ' !! r = Some (mkVar (data v) false false true) ∧
      (∀ l, l ∈ dom σ → σ' !! l = σ !! l) ∧
      size (dom σ') = size (dom σ) + S (length rest).
Proof.
  split; [done|]. split; [done|].
  intros a rest st' σ' Hrun. unfold Transformer_resetAll in Hrun.
  destruct (rewrap_all (a :: rest) σ) as [[vars σ1]|] eqn:Hwrap; [|discriminate].
  cbn [res_bind] in Hrun. destruct vars as [|r vars]; [discriminate|].
  injection Hrun as <- <-.
  pose proof (rewrap_all_extends _ _ _ _ Hwrap) as (Hkeep & _ & Hnew).
  assert (Hsize : ∀ l (σ0 σ2 : Sto) news,
            rewrap_all l σ0 = Ok (news, σ2) →
            size (dom σ2) = size (dom σ0) + length l).
  { clear. induction l as [|x l IH]; intros σ0 σ2 news Hrun.
    - injection Hrun as <- <-. cbn [length]. lia.
    - cbn [rewrap_all] in Hrun. destruct (σ0 !! x) as [v|]; [|discriminate].
      destruct (alloc (mkVar (data v) false false true) σ0) as [r σ1] eqn:Ea.
      destruct (rewrap_all l σ1) as [[rs σ3]|] eqn:Er; [|discriminate].
      injection Hrun as <- <-. apply IH in Er. rewrite Er.
      apply alloc_fresh in Ea as (Hr & _ & Hd & _). rewrite Hd.
      rewrite size_union by (by apply disjoint_singleton_l).
      rewrite size_singleton. cbn [length]. lia. }
  pose proof (Hsize _ _ _ _ Hwrap) as Hsz.
  pose proof (rewrap_all_copies _ _ _ _ Hwrap) as Hcopies.
  apply Forall2_cons_1 in Hcopies as [(v & Hv & Hr) _].
  apply Forall_cons in Hnew as [[Hr1 _] _].
  exists v, r. cbn [previous_input transformer_all].
  assert (Ha : σ !! a = Some v).
  { cbn [rewrap_all] in Hwrap. destruct (σ !! a) as [v0|] eqn:Ea; [|discriminate].
    assert (σ1 !! a = Some v0) by (rewrite Hkeep; [done|by apply elem_of_dom_2 in Ea]).
    congruence. }
  repeat split; try done.
Qed.

(** ** What a beam update refuses *)

(** X22. [beamUpdate_] on a state whose first member is a x br x d: a beam
    size of 0 raises [ZeroDivisionError], a beam size that does not divide
    [br] raises [RuntimeError] (the view), and a sentence index that is not
    below [br // beamSize] raises [IndexError]; in each case before anything
    is written. *)
Theorem beamUpdate_rejects (st : DecoderState nat) idx positions beamSize (σ : Sto)
    l rest (v : Obj) a br d :
  state_all st = Some l :: rest →
  σ !! l = Some v →
  shape (data v) = [a; br; d] →
  (beamSize = 0 →
   beamUpdate_ st idx positions beamSize σ = Raise ZeroDivisionError) ∧
  (beamSize ≠ 0 → br mod beamSize ≠ 0 →
   beamUpdate_ st idx positions beamSize σ = Raise RuntimeError) ∧
  (beamSize ≠ 0 → br mod beamSize = 0 → br / beamSize ≤ idx →
   beamUpdate_ st idx positions beamSize σ = Raise IndexError).
Proof.
  intros Hall Hv Hs.
  assert (Hfirst : ∀ e,
    beam_source br beamSize idx positions = Raise e →
    beamUpdate_ st idx positions beamSize σ = Raise e).
  { intros e He.
    assert (DecoderState_beamUpdate_ st idx positions beamSize σ = Raise e) as Hd.
    { unfold DecoderState_beamUpdate_. rewrite Hall. cbn [update_each].
      unfold update_at. cbn [deref]. rewrite Hv. unfold beam_copy3.
      rewrite Hs. cbn [unpack3 res_bind]. by rewrite He. }
    destruct st as [s0|s0]; cbn [beamUpdate_]; [|done].
    unfold RNN_beamUpdate_. by rewrite Hd. }
  split; [|split].
  - intros ->. by apply Hfirst.
  - intros Hb Hmod. apply Hfirst. unfold beam_source.
    destruct (Nat.eqb_spec beamSize 0); [done|].
    destruct (Nat.eqb_spec (beamSize * (br / beamSize)) br) as [Heq|]; [|done].
    pose proof (Nat.div_mod_eq br beamSize). lia.
  - intros Hb Hmod Hidx. apply Hfirst. unfold beam_source.
    destruct (Nat.eqb_spec beamSize 0); [done|].
    destruct (Nat.eqb_spec (beamSize * (br / beamSize)) br) as [Heq|Hne].
    + cbn [negb]. destruct (Nat.ltb_spec idx (br / beamSize)); [lia|done].
    + pose proof (Nat.div_mod_eq br beamSize). lia.
Qed.

(** ** What [Encoder.forward] returns *)

(** X23. A successful [Encoder.forward] embeds the input, calls the recurrent
    network once with the hidden state it was passed, and returns the
    network's final state as it is and [None] as fertility values.  Given
    lengths, the network is called on the embedding packed with them (so the
    packing has accepted them) and the memory bank is the network's output
    unpacked; given none, the network is called on the embedding and the
    memory bank is its output. *)
Theorem Encoder_forward_result (enc : Enc) input lengths hidden (s s' : St) h out fv :
  Encoder_forward enc input lengths hidden s = (Ok (h, out, fv), s') →
  fv = None ∧
  ∃ emb s1 x out0,
    Embeddings_forward (enc_embeddings enc) input s = (Ok emb, s1) ∧
    match lengths with
    | Some l => pack emb (tolist l) = Ok x ∧ ∃ o, unpack out0 = Ok o ∧ out = Padded o
    | None => x = Padded emb ∧ out = out0
    end ∧
    enc_rnn enc (world s1) x hidden = ((out0, h), world s') ∧
    trace s' = trace s1 ++ [CallEncoderRnn x hidden].
Proof.
  intros Hrun. unfold Encoder_forward in Hrun.
  apply bind_ok_inv in Hrun as ([[sl nb] nf] & s0 & H1 & Hrun).
  apply lift_ok_inv in H1 as [_ ->].
  apply bind_ok_inv in Hrun as ([] & s0 & Hchk & Hrun).
  assert (s0 = s) as ->.
  { destruct lengths.
    - apply bind_ok_inv in Hchk as ([? ?] & ? & Hu & Ha).
      apply lift_ok_inv in Hu as [_ ->]. by apply lift_ok_inv in Ha as [_ ->].
    - by apply ret_ok_inv in Hchk as [_ ->]. }
  clear Hchk.
  apply bind_ok_inv in Hrun as (emb & s1 & Hemb & Hrun).
  apply bind_ok_inv in Hrun as ([[sl' nb'] vs] & s2 & H2 & Hrun).
  apply lift_ok_inv in H2 as [_ ->]. cbv zeta in Hrun.
  apply bind_ok_inv in Hrun as (x & s2 & Hpack & Hrun).
  apply bind_ok_inv in Hrun as ([out0 h0] & s3 & Hcall & Hrun).
  apply call_ok_inv in Hcall as [Hcall Htr].
  apply bind_ok_inv in Hrun as (out1 & s4 & Hun & Hrun).
  apply ret_ok_inv in Hrun as [[= -> -> ->] ->].
  split; [done|]. exists emb, s1, x, out0. split; [done|].
  destruct lengths as [l|]; cbn [fmap option_fmap option_map] in *.
  - apply lift_ok_inv in Hpack as [Hpack ->].
    destruct (tolist l) as [|z zs] eqn:El.
    + exfalso. revert Hpack. unfold pack, numel.
      destruct (shape emb) as [|d0 [|batch ds]]; try done.
      destruct batch as [|batch]; cbn [foldr length Nat.eqb Nat.mul].
      * by rewrite Nat.mul_0_r.
      * by rewrite andb_false_r.
    + apply bind_ok_inv in Hun as (o & s5 & Ho & Hret).
      apply lift_ok_inv in Ho as [Ho ->]. apply ret_ok_inv in Hret as [-> ->].
      split; [eauto|]. done.
  - apply ret_ok_inv in Hpack as [-> ->]. apply ret_ok_inv in Hun as [-> ->]. done.
Qed.

End Properties.

(** * The theorems at concrete inputs *)

Import Example.

Lemma sink_reset_before_every_attention_witness :
  ∃ evs,
    trace (Decoder_forward (dec false false false) (tokens 2 2) (source 4 2)
             (memory 4 2) (state0 2) None start).2 = evs ∧
    count is_attn evs = 2 ∧
    ∀ query mem budget, CallAttn query mem budget ∈ evs → sink_is_reset budget.
Proof.
  pose proof (sink_reset_before_every_attention (dec false false false) (tokens 2 2)
                (source 4 2) (memory 4 2) (state0 2) None start) as Hs.
  cbv zeta in Hs.
  destruct (Decoder_forward _ _ _ _ _ _ _) as [[r|e] s'] eqn:Hrun;
    [|vm_compute in Hrun; discriminate Hrun].
  destruct Hs as (evs & Htr & Hsink & Hcount).
  exists evs. split; [exact Htr|]. split; [exact (Hcount r eq_refl)|exact Hsink].
Defined.

Lemma budget_is_fertility_minus_attention_witness :
  match decoder_setup (dec false false false) (tokens 2 2) (source 4 2) (memory 4 2)
          (state0 2) None start with
  | (Ok (nb, sl, embs, ls0), s1) =>
      match Decoder_loop (dec false false false) (memory 4 2) nb sl ls0
              (take 2 embs) s1 with
      | (Ok ls, s2) =>
          ∃ u ws evs,
            ls_upper_bounds ls = Some u ∧ shape u = [2; 4] ∧
            trace s2 = trace s1 ++ evs ∧
            Forall2 (attention_returned (dec false false false) (memory 4 2))
                    (List.filter is_attn evs) ws ∧
            length ws = 2 ∧
            ∀ b j, j < 3 → entry u [b; j] = (3 - total ws [b; j])%Z
      | (Raise _, _) => False
      end
  | (Raise _, _) => False
  end.
Proof.
  destruct (decoder_setup _ _ _ _ _ _ _) as [[[[[nb sl] embs] ls0]|e] s1] eqn:Hsetup;
    [|vm_compute in Hsetup; discriminate Hsetup].
  pose proof Hsetup as Hc. vm_compute in Hc. injection Hc as <- <- <- <- <-.
  destruct (Decoder_loop _ _ _ _ _ _ _) as [[ls|e] s2] eqn:Hloop;
    [|vm_compute in Hloop; discriminate Hloop].
  destruct (budget_is_fertility_minus_attention _ _ _ _ _ _ _ _ _ _ _ _ _ 2
              Hsetup ltac:(simpl; lia) Hloop)
    as (_ & u0 & u & ws & evs & _ & _ & _ & _ & Hu & Hshape & Htr & Hret & _ & Hlen
        & _ & Hsum).
  exists u, ws, evs.
  split; [exact Hu|]. split; [exact Hshape|]. split; [exact Htr|].
  split; [exact Hret|]. split; [exact Hlen|].
  intros b j Hj. apply Hsum; [intros x y z; cbn; lia|intros x; cbn; lia|simpl; lia].
Defined.

(** After two steps with weights 1, 2, 3 (and 4 on the sink) per step, a
    fertility of 3 leaves 1, -1, -3, and the sink holds 100 - 4. *)
Example budget_after_two_steps :
  match (Decoder_forward (dec false false false) (tokens 2 2) (source 4 2) (memory 4 2)
           (state0 2) None start).1 with
  | Ok (_, _, _, Some u) => tolist u = [1; -1; -3; 96; 1; -1; -3; 96]%Z
  | _ => False
  end.
Proof. vm_compute. reflexivity. Qed.

Lemma decoder_assertions_witness :
  Decoder_forward (dec false false false) (tokens 2 2) (source 4 3) (memory 4 2)
    (state0 2) None start = (Raise AssertionError, start) ∧
  (Decoder_forward (dec false false false) (tokens 2 2) (source 4 2) (memory 4 2)
     transformer_state None start).1 = Raise AssertionError ∧
  (Decoder_forward (dec false false false) (tokens 2 2) (source 4 2) (memory 4 2)
     (state0 3) None start).1 = Raise AssertionError.
Proof.
  split.
  - pose proof (decoder_assertions (dec false false false) (tokens 2 2) (source 4 3)
                  (memory 4 2) (state0 2) None start 2 2 3 2 4 4 1 2
                  eq_refl eq_refl eq_refl) as Hd.
    cbv zeta in Hd. destruct Hd as [Hd _]. apply Hd. lia.
  - destruct (Embeddings_forward (dec_embeddings (dec false false false))
                (unsqueeze 2 (tokens 2 2)) start) as [[emb|e] s1] eqn:Hemb;
      [|vm_compute in Hemb; discriminate Hemb].
    split.
    + pose proof (decoder_assertions (dec false false false) (tokens 2 2) (source 4 2)
                    (memory 4 2) transformer_state None start 2 2 2 2 4 4 1 2
                    eq_refl eq_refl eq_refl) as Hd.
      cbv zeta in Hd. destruct Hd as (_ & _ & Hd).
      destruct (Hd eq_refl eq_refl _ _ Hemb) as (_ & _ & Ht & _).
      by rewrite (Ht _ eq_refl).
    + pose proof (decoder_assertions (dec false false false) (tokens 2 2) (source 4 2)
                    (memory 4 2) (state0 3) None start 2 2 2 2 4 4 1 2
                    eq_refl eq_refl eq_refl) as Hd.
      cbv zeta in Hd. destruct Hd as (_ & _ & Hd).
      destruct (Hd eq_refl eq_refl _ _ Hemb) as (_ & _ & _ & Hf).
      destruct (Hf _ (full [1; 3; 2] 0%Z) 3 2 eq_refl eq_refl eq_refl) as [Hne _].
      rewrite Hne; [done|lia].
Defined.

Lemma decoder_returned_state_witness :
  match (Decoder_forward (dec true false false) (tokens 1 2) (source 4 2) (memory 4 2)
           (state0 2) None start).1 with
  | Ok (outs, st, attns, ub) =>
      ∃ st', st = RNNState st' ∧ attn_upper_bounds st' = ub ∧ is_Some (coverage st')
  | Raise _ => False
  end.
Proof.
  destruct (Decoder_forward _ _ _ _ _ _ _) as [[[[[outs st] attns] ub]|e] s'] eqn:Hrun;
    [|vm_compute in Hrun; discriminate Hrun].
  destruct (decoder_returned_state _ _ _ _ _ _ _ _ _ _ _ _ Hrun)
    as (nb & sl & init & emb_T & ls0 & s1 & ls_prev & s_prev & ls & st_in
        & _ & _ & _ & _ & _ & Hst & _ & _ & _ & _ & Hcov & _).
  simpl. eexists. split; [exact Hst|]. simpl. split; [done|].
  change (_coverage (dec true false false)) with true in Hcov.
  destruct Hcov as (c & lc & -> & _). by eexists.
Defined.

(** Coverage is off, the incoming state carries coverage: the returned state
    carries it too. *)
Lemma returned_coverage_not_none_when_disabled :
  _coverage (dec false false false) = false ∧
  match (Decoder_forward (dec false false false) (tokens 1 2) (source 4 2) (memory 4 2)
           (state_with_coverage 2 4) None start).1 with
  | Ok (_, RNNState st, _, _) => coverage st ≠ None
  | _ => False
  end.
Proof. split; [reflexivity|]. vm_compute. intros Hc. discriminate Hc. Qed.

Lemma coverage_accumulation_raises_witness :
  is_ok (Decoder_forward (dec true false false) (tokens 2 1) (source 2 1) (memory 2 1)
           (state0 1) None start).1 = false.
Proof.
  eapply (coverage_accumulation_raises (dec true false false) (tokens 2 1) (source 2 1)
            (memory 2 1)).
  - reflexivity.
  - reflexivity.
  - reflexivity.
  - intros w query budget. vm_compute. lia.
  - simpl. lia.
Defined.

(** The failing run itself: batch 1, two source positions, two target steps. *)
Example coverage_second_step_raises :
  (Decoder_forward (dec true false false) (tokens 2 1) (source 2 1) (memory 2 1)
     (state0 1) None start).1 = Raise RuntimeError.
Proof. vm_compute. reflexivity. Qed.

(** One target step is fine: the coverage recorded is the weights. *)
Example coverage_one_step :
  match (Decoder_forward (dec true false false) (tokens 1 1) (source 2 1) (memory 2 1)
           (state0 1) None start).1 with
  | Ok (_, _, attns, _) =>
      tolist <$> attns !! "coverage"%string = Some [1; 2]%Z ∧
      tolist <$> attns !! "std"%string = Some [1; 2]%Z
  | Raise _ => False
  end.
Proof. vm_compute. split; reflexivity. Qed.

(** Everything configured, one target step: the call returns and the
    dictionary has the four keys; nothing configured: "std" alone. *)
Lemma attention_map_keys_witness :
  match (Decoder_forward (Decoder_init (opt false true true true) lib
                            (embeddings (opt false true true true)))
           (tokens 1 2) (source 4 2) (memory 4 2) (state0 2) None start).1 with
  | Ok (outs, st, attns, ub) =>
      dom attns = {["std"; "copy"; "coverage"; "upper_bounds"]}%string
  | Raise _ => False
  end ∧
  match (Decoder_forward (Decoder_init (opt false false false false) lib
                            (embeddings (opt false false false false)))
           (tokens 2 2) (source 4 2) (memory 4 2) (state0 2) None start).1 with
  | Ok (outs, st, attns, ub) => dom attns = {["std"%string]}
  | Raise _ => False
  end.
Proof.
  split.
  - destruct (Decoder_forward _ _ _ _ _ _ _) as [[[[[outs st] attns] ub]|e] s'] eqn:Hrun;
      [|vm_compute in Hrun; discriminate Hrun].
    destruct (attention_map_keys (opt false true true true) lib
                (embeddings (opt false true true true)) (tokens 1 2) (source 4 2)
                (memory 4 2) (state0 2) None start) as [_ Hkeys].
    destruct (Hkeys _ _ _ _ _ Hrun) as (Hdom & _).
    cbn [fst]. rewrite Hdom. unfold configured_keys. cbn. set_solver.
  - destruct (Decoder_forward _ _ _ _ _ _ _) as [[[[[outs st] attns] ub]|e] s'] eqn:Hrun;
      [|vm_compute in Hrun; discriminate Hrun].
    destruct (attention_map_keys (opt false false false false) lib
                (embeddings (opt false false false false)) (tokens 2 2) (source 4 2)
                (memory 4 2) (state0 2) None start) as [_ Hkeys].
    destruct (Hkeys _ _ _ _ _ Hrun) as (_ & _ & _ & _ & _ & Hone).
    by apply Hone.
Defined.

Lemma forward_drops_last_target_witness :
  match NMTModel_forward model (source 4 2) (tokens 3 2) (Some lengths43) None start with
  | (Ok (out, _, _, _), s') =>
      hd 0 (shape out) = 2 ∧
      ∃ (s1 : MState Z nat) evs,
        trace s' = trace s1 ++ evs ∧ count is_rnn evs = 2 ∧ count is_attn evs = 2
  | (Raise _, _) => False
  end.
Proof.
  destruct (NMTModel_forward _ _ _ _ _ _) as [[[[[out attns] st] ub]|e] s'] eqn:Hrun;
    [|vm_compute in Hrun; discriminate Hrun].
  destruct (forward_drops_last_target _ _ _ _ _ _ _ _ _ _ _ Hrun)
    as (? & ? & ? & ? & ? & s1 & ? & ? & evs & _ & _ & _ & _ & _ & _ & _ & Htr & _ & _
        & Hsteps).
  destruct (Hsteps ltac:(simpl; lia)) as (Hout & Hrnn & Hattn).
  split; [exact Hout|]. exists s1, evs.
  split; [exact Htr|]. split; [exact Hrnn|exact Hattn].
Defined.

(** A target of length 1: nothing is left once its last step is dropped, and
    yet the decoder does not run [1 - 1 = 0] steps.  The empty target embeds
    to an empty tensor, whose split is one empty chunk, and the loop body runs
    on it: the recurrent cell and attention are called once each, and the
    output has one time step. *)
Lemma one_step_for_target_of_length_one :
  hd 0 (shape (tokens 1 2)) - 1 = 0 ∧
  match NMTModel_forward model_no_feed (source 4 2) (tokens 1 2) (Some lengths43) None
          start with
  | (Ok (out, _, _, _), s') =>
      hd 0 (shape out) = 1 ∧
      count is_rnn (trace s') = 1 ∧ count is_attn (trace s') = 1
  | (Raise _, _) => False
  end.
Proof. split; [reflexivity|]. vm_compute. repeat split; reflexivity. Qed.

(** The scenario of the specification: batch 2, source length 4 with lengths
    4 and 3, target length 3, no optional mechanism: outputs over 2 steps and
    "std" as the only attention map. *)
Example end_to_end :
  match (NMTModel_forward model (source 4 2) (tokens 3 2) (Some lengths43) None start).1 with
  | Ok (out, Some attns, _, _) => hd 0 (shape out) = 2 ∧ dom attns = {["std"%string]}
  | _ => False
  end.
Proof. vm_compute. split; reflexivity. Qed.

Lemma fix_enc_hidden_layout_witness :
  match _fix_enc_hidden model_bi enc_hidden_bi with
  | Ok h' => shape h' = [1; 2; 2] ∧ tolist h' = [1; 2; 1; 2]%Z
  | Raise _ => False
  end.
Proof.
  destruct (fix_enc_hidden_layout (opt true false false false)
              (embeddings (opt true false false false)) nn_rnn enc_bi model_bi
              enc_hidden_bi 2 eq_refl eq_refl eq_refl) as [_ (h' & -> & Hshape & Hentry)].
  split; [exact Hshape|].
  unfold tolist. rewrite Hshape. simpl. by rewrite !Hentry.
Defined.



Lemma coverage_and_budget_untouched_witness :
  detach (RNNState beam_state) store0 !! 2 = store0 !! 2 ∧
  detach (RNNState beam_state) store0 !! 3 = store0 !! 3.
Proof.
  destruct (coverage_and_budget_untouched beam_state store0) as (Hdetach & _).
  split; apply Hdetach; simpl; set_solver.
Defined.

(** Replicating over a beam of 2 tiles the hidden state and the input feed
    (batch 2 becomes 4) and leaves coverage and budget at batch 2; the beam
    update of the recurrent state then reorders the rows of the budget. *)
Example repeatBeam_tiles_hidden_only :
  match repeatBeam_ (RNNState beam_state) 2 store0 with
  | Ok (RNNState s', σ') =>
      (fun l => shape ∘ data <$> σ' !! l) <$> hidden s' = [Some [1; 4; 2]] ∧
      (shape ∘ data <$> (input_feed s' ≫= (σ' !!.))) = Some [1; 4; 2] ∧
      (shape ∘ data <$> (coverage s' ≫= (σ' !!.))) = Some [1; 2; 3] ∧
      (shape ∘ data <$> (attn_upper_bounds s' ≫= (σ' !!.))) = Some [2; 3]
  | _ => False
  end.
Proof. vm_compute. repeat split; reflexivity. Qed.

Example beamUpdate_reorders_budget :
  match beamUpdate_ (RNNState beam_state) 0 [1; 1] 2 store0 with
  | Ok σ' =>
      tolist ∘ data <$> store0 !! 3 = Some [0; 1; 2; 10; 11; 12]%Z ∧
      tolist ∘ data <$> σ' !! 3 = Some [10; 11; 12; 10; 11; 12]%Z
  | Raise _ => False
  end.
Proof. vm_compute. split; reflexivity. Qed.

(** * The further properties at concrete inputs *)

Import MoreExamples.

Lemma Encoder_forward_arity_witness :
  Encoder_forward enc (source 4 2) (Some (full [2] 4%Z)) None start
  = (Raise ValueError, start).
Proof.
  apply Encoder_forward_arity. right. exists (full [2] 4%Z).
  split; [reflexivity|]. simpl. lia.
Defined.

Lemma Embeddings_forward_plain_witness :
  (∃ emb,
     (Embeddings_forward (embeddings (opt false false false false)) (source 4 2) start).1
       = Ok emb ∧
     shape emb = [4; 2; 2]) ∧
  (Embeddings_forward (embeddings (opt false false false false)) (source 11 2) start).1
    = Raise IndexError.
Proof.
  split.
  - destruct (Embeddings_forward_plain (embeddings (opt false false false false))
                (source 4 2) start 4 2 0 eq_refl eq_refl)
      as (idx & _ & _ & Hin & _).
    destruct Hin as (emb & Hrun & Hs & _).
    { intros i j Hi Hj. apply andb_true_intro.
      split; [apply Z.leb_le|apply Z.ltb_lt]; cbn; lia. }
    exists emb. rewrite Hrun. split; [reflexivity|exact Hs].
  - destruct (Embeddings_forward_plain (embeddings (opt false false false false))
                (source 11 2) start 11 2 0 eq_refl eq_refl)
      as (idx & _ & _ & _ & Hout).
    rewrite (Hout 10 0 ltac:(lia) ltac:(lia) eq_refl). reflexivity.
Defined.

Lemma Embeddings_forward_too_long_witness :
  (Embeddings_forward (Embeddings_init opt_positional 10 lut (fun _ => 0%Z))
     long_input start).1 = Raise RuntimeError.
Proof.
  destruct (Embeddings_forward_too_long opt_positional 10 lut (fun _ => 0%Z) long_input
              start (S 5000) 1 0 eq_refl eq_refl ltac:(lia)) as [Hin _].
  apply Hin. intros i j Hi Hj. reflexivity.
Defined.

Lemma Embeddings_forward_positional_witness :
  ∃ emb,
    (Embeddings_forward (Embeddings_init opt_positional 10 lut (fun _ => 0%Z))
       (source 4 2) start).1 = Ok emb ∧
    shape emb = [4; 2; 2].
Proof.
  destruct (Embeddings_forward_positional opt_positional 10 lut (fun _ => 0%Z)
              (source 4 2) start 4 2 0 eq_refl eq_refl ltac:(lia))
    as (emb & s' & Hrun & Hs & _).
  { intros i j Hi Hj. apply andb_true_intro.
    split; [apply Z.leb_le|apply Z.ltb_lt]; cbn; lia. }
  exists emb. rewrite Hrun. split; [reflexivity|exact Hs].
Defined.

Lemma input_feeding_wiring_witness :
  match Decoder_forward (dec false false false) (tokens 2 2) (source 4 2) (memory 4 2)
          (state0 2) None start with
  | (Ok (outs, _, _, _), s') =>
      ∃ os (evs : list (Event Z)),
        stack os = Ok outs ∧ length os = 2 ∧ length (rnn_inputs evs) = 2
  | (Raise _, _) => False
  end.
Proof.
  destruct (Decoder_forward _ _ _ _ _ _ _) as [[[[[outs st] attns] ub]|e] s'] eqn:Hrun;
    [|vm_compute in Hrun; discriminate Hrun].
  destruct (input_feeding_wiring (dec false false false) _ _ _ _ _ _ _ _ _ _ _
              eq_refl Hrun)
    as (st0 & feed & emb & s0 & os & evs & _ & _ & Hemb & Hst & Hlen & _ & Hall).
  assert (Hn : length (split1 emb) = 2).
  { apply (split1_length emb 2 [2; 2]).
    by apply (Embeddings_forward_shape _ _ _ _ _ 2 2 0 Hemb). }
  exists os, evs. split; [exact Hst|]. split; [congruence|].
  apply Forall2_length in Hall. rewrite <- Hall, length_zip_with. cbn [length].
  rewrite Hlen, Hn. reflexivity.
Defined.

Lemma fix_enc_hidden_parity_witness :
  _fix_enc_hidden model_bi (full [3; 2; 1] 0%Z) = Raise RuntimeError.
Proof.
  exact (fix_enc_hidden_parity model_bi (full [3; 2; 1] 0%Z) 3 2 1 eq_refl eq_refl).
Defined.

Lemma init_decoder_state_result_witness :
  match init_decoder_state model (Padded (memory 4 2))
          (HTuple [full [1; 2; 2] 1%Z; full [1; 2; 2] 2%Z]) with
  | Ok st => ∃ feed, input_feed st = Some feed ∧ shape feed = [1; 2; 2]
  | Raise _ => False
  end.
Proof.
  destruct (init_decoder_state _ _ _) as [st|e] eqn:Hrun;
    [|vm_compute in Hrun; discriminate Hrun].
  destruct (init_decoder_state_result _ _ _ _ Hrun)
    as (c & batch & feed & Hc & Hb & _ & Hf & Hs & _).
  injection Hc as <-. injection Hb as <-.
  exists feed. split; [exact Hf|exact Hs].
Defined.

Lemma repeatBeam_tiles_witness :
  match repeatBeam_ (RNNState beam_state) 2 store0 with
  | Ok (st', σ') =>
      ∃ s' feed, st' = RNNState s' ∧ input_feed s' = Some feed ∧
                 all s' = (Some <$> hidden s') ++ [Some feed]
  | Raise _ => False
  end.
Proof.
  destruct (repeatBeam_ _ _ _) as [[st' σ']|e] eqn:Hrun;
    [|vm_compute in Hrun; discriminate Hrun].
  destruct (repeatBeam_tiles _ _ _ _ _ Hrun) as (s' & feed & Hst & Hf & Hall & _).
  by exists s', feed.
Defined.

Lemma beamUpdate_identity_witness :
  match beamUpdate_ (RNNState beam_state) 0 (seq 0 2) 2 store0 with
  | Ok σ' => ∃ v', σ' !! 3 = Some v' ∧ shape (data v') = [2; 3]
  | Raise _ => False
  end.
Proof.
  destruct (beamUpdate_ _ _ _ _ _) as [σ'|e] eqn:Hrun;
    [|vm_compute in Hrun; discriminate Hrun].
  pose proof (beamUpdate_identity _ _ _ _ _ Hrun 3) as H3.
  change (store0 !! 3) with (Some (var budget23)) in H3.
  destruct (σ' !! 3) as [v'|]; [|destruct H3].
  exists v'. split; [reflexivity|exact (proj1 H3)].
Defined.

Lemma beamUpdate_rows_witness :
  match DecoderState_beamUpdate_ (RNNState beam_state) 0 [1; 0] 2 store0 with
  | Ok σ' => ∃ v', σ' !! 0 = Some v' ∧ shape (data v') = [1; 2; 2]
  | Raise _ => False
  end.
Proof.
  destruct (DecoderState_beamUpdate_ _ _ _ _ _) as [σ'|e] eqn:Hrun;
    [|vm_compute in Hrun; discriminate Hrun].
  assert (Hnd : NoDup (state_all (RNNState beam_state))).
  { apply NoDup_cons. split; [|apply NoDup_singleton].
    intros Hin. apply list_elem_of_singleton in Hin. discriminate Hin. }
  destruct (beamUpdate_rows _ _ _ _ _ _ Hrun Hnd 0 ltac:(left))
    as (v & v' & a & br & d & Hv & Hv' & Hs & Hs' & _).
  change (store0 !! 0) with (Some (var (full [1; 2; 2] 1%Z))) in Hv.
  injection Hv as <-. injection Hs as <- <- <-.
  exists v'. split; [exact Hv'|exact Hs'].
Defined.

Lemma recorded_budgets_are_final_witness :
  match (Decoder_forward (dec false true false) (tokens 2 2) (source 4 2) (memory 4 2)
           (state0 2) None start).1 with
  | Ok (_, _, attns, ub) =>
      ∃ U u, attns !! "upper_bounds"%string = Some U ∧ ub = Some u ∧
             shape U = 2 :: shape u
  | Raise _ => False
  end.
Proof.
  destruct (Decoder_forward _ _ _ _ _ _ _) as [[[[[outs st] attns] ub]|e] s'] eqn:Hrun;
    [|vm_compute in Hrun; discriminate Hrun].
  destruct (recorded_budgets_are_final (dec false true false) _ _ _ _ _ _ _ _ _ _ _ eq_refl Hrun)
    as (U & u & HU & Hu & Hs & _).
  exists U, u. split; [exact HU|]. split; [exact Hu|exact Hs].
Defined.

Lemma supplied_budget_is_continued_witness :
  match (Decoder_forward (dec false false false) (tokens 2 2) (source 4 2) (memory 4 2)
           (state0 2) (Some (full [2; 4] 9%Z)) start).1 with
  | Ok (_, _, _, ub) => ∃ u, ub = Some u ∧ shape u = [2; 4]
  | Raise _ => False
  end.
Proof.
  destruct (Decoder_forward _ _ _ _ _ _ _) as [[[[[outs st] attns] ub]|e] s'] eqn:Hrun;
    [|vm_compute in Hrun; discriminate Hrun].
  destruct (supplied_budget_is_continued _ _ _ _ _ (full [2; 4] 9%Z) _ _ _ _ _ _ 2 4 eq_refl Hrun)
    as (u & ws & A & Hu & Hs & _).
  exists u. split; [exact Hu|exact Hs].
Defined.

Lemma sink_column_after_call_witness :
  match (Decoder_forward (dec false false false) (tokens 2 2) (source 4 2) (memory 4 2)
           (state0 2) None start).1 with
  | Ok (_, _, attns, ub) =>
      ∃ u A, ub = Some u ∧ attns !! "std"%string = Some A ∧ hd 0 (shape A) = 2
  | Raise _ => False
  end.
Proof.
  destruct (Decoder_forward _ _ _ _ _ _ _) as [[[[[outs st] attns] ub]|e] s'] eqn:Hrun;
    [|vm_compute in Hrun; discriminate Hrun].
  destruct (sink_column_after_call _ _ _ _ _ _ _ _ _ _ _ _ Hrun)
    as (u & a & A & b & c & rest & Hu & _ & HA & Hhd & _).
  exists u, A. split; [exact Hu|]. split; [exact HA|exact Hhd].
Defined.

Lemma copy_attention_queries_witness :
  match Decoder_forward (dec false false true) (tokens 2 2) (source 4 2) (memory 4 2)
          (state0 2) None start with
  | (Ok (outs, _, _, _), s') =>
      ∃ evs, trace s' = evs ∧ stack (copy_queries evs) = Ok outs
  | (Raise _, _) => False
  end.
Proof.
  destruct (Decoder_forward _ _ _ _ _ _ _) as [[[[[outs st] attns] ub]|e] s'] eqn:Hrun;
    [|vm_compute in Hrun; discriminate Hrun].
  destruct (copy_attention_queries (dec false false true) _ _ _ _ _ _ _ _ _ _ _ eq_refl Hrun)
    as (evs & Htr & _ & Hst).
  exists evs. split; [exact Htr|exact Hst].
Defined.

Lemma Decoder_forward_errors_witness :
  match (Decoder_forward (dec false false false) (tokens 2 2) (source 4 2) (memory 4 2)
           (state0 3) None start).1 with
  | Ok _ => False
  | Raise e => e = AssertionError ∨ e = ValueError ∨ e = IndexError ∨ e = RuntimeError ∨
               e = AttributeError
  end.
Proof.
  pose proof (Decoder_forward_errors (opt false false false false) lib
                (embeddings (opt false false false false)) (tokens 2 2) (source 4 2)
                (memory 4 2) (state0 3) None start) as Herr.
  change (Decoder_init _ _ _) with (dec false false false) in Herr.
  destruct (Decoder_forward _ _ _ _ _ _ _) as [[r|e] s'] eqn:Hrun;
    [vm_compute in Hrun; discriminate Hrun|].
  cbn. destruct (Herr e eq_refl) as [?|[?|[?|[?|[? _]]]]]; tauto.
Defined.

Lemma Decoder_forward_without_input_feed_witness :
  (Decoder_forward (dec false false false) (tokens 2 2) (source 4 2) (memory 4 2)
     (RNNState state_no_feed) None start).1 = Raise AttributeError.
Proof.
  destruct (Embeddings_forward (dec_embeddings (dec false false false))
              (unsqueeze 2 (tokens 2 2)) start) as [[emb|e] s1] eqn:Hemb;
    [|vm_compute in Hemb; discriminate Hemb].
  by rewrite (Decoder_forward_without_input_feed (dec false false false) (tokens 2 2)
                (source 4 2) (memory 4 2) state_no_feed None start s1 emb 2 2 4 4 1 2
                eq_refl eq_refl eq_refl eq_refl Hemb).
Defined.

Lemma forward_state_checks_pass_witness :
  ∃ h mem fv s1,
    Encoder_forward (encoder model_other_batch) (source 4 2) None None start
      = (Ok (h, Padded mem, fv), s1) ∧
    shape mem !! 1 ≠ Some 2.
Proof.
  apply (forward_state_checks_pass model_other_batch (source 4 2) (tokens 3 2) None
           start 4 2 1 3 eq_refl eq_refl).
  - intros l Hl. discriminate Hl.
  - destruct (NMTModel_forward _ _ _ _ _ _) as [[r|e] s'] eqn:Hrun;
      [vm_compute in Hrun; discriminate Hrun|].
    destruct e; try (vm_compute in Hrun; discriminate Hrun). reflexivity.
Defined.

Lemma transformer_state_methods_witness :
  match Transformer_resetAll transformer_beam_state [0; 1] store0 with
  | Ok (st', σ') => ∃ r, previous_input st' = Some r ∧ transformer_all st' = [Some r]
  | Raise _ => False
  end.
Proof.
  destruct (transformer_state_methods transformer_beam_state store0) as (_ & _ & Hreset).
  destruct (Transformer_resetAll _ _ _) as [[st' σ']|e] eqn:Hrun;
    [|vm_compute in Hrun; discriminate Hrun].
  destruct (Hreset _ _ _ _ Hrun) as (v & r & _ & Hp & Ha & _).
  exists r. split; [exact Hp|exact Ha].
Defined.

Lemma beamUpdate_rejects_witness :
  beamUpdate_ (RNNState beam_state) 0 [0] 0 store0 = Raise ZeroDivisionError.
Proof.
  destruct (beamUpdate_rejects (RNNState beam_state) 0 [0] 0 store0 0 [Some 1]
              (var (full [1; 2; 2] 1%Z)) 1 2 2 eq_refl eq_refl eq_refl) as (Hz & _).
  exact (Hz eq_refl).
Defined.

Lemma Encoder_forward_result_witness :
  match (Encoder_forward enc (source 4 2) (Some lengths43) None start).1 with
  | Ok (_, out, fv) =>
      fv = None ∧
      ∃ emb out0 o,
        enc_rnn enc 0 (Packed emb [4; 3]%Z) None = (out0, 0) ∧
        unpack out0.1 = Ok o ∧ out = Padded o
  | Raise _ => False
  end.
Proof.
  destruct (Encoder_forward _ _ _ _ _) as [[[[h out] fv]|e] s'] eqn:Hrun;
    [|vm_compute in Hrun; discriminate Hrun].
  destruct (Encoder_forward_result _ _ _ _ _ _ _ _ _ Hrun)
    as (Hfv & emb & s1 & x & out0 & Hemb & (Hpack & o & Hun & Ho) & Hcall & _).
  split; [exact Hfv|].
  assert (Hx : x = Packed emb [4; 3]%Z).
  { change (tolist lengths43) with [4%Z; 3%Z] in Hpack. unfold pack in Hpack.
    destruct (shape emb) as [|? [|? ?]]; [discriminate Hpack|discriminate Hpack|].
    destruct (_ && _); [|discriminate Hpack]. by injection Hpack as <-. }
  subst x.
  assert (Hw1 : world s1 = 0).
  { pose proof Hemb as Hc. vm_compute in Hc. by injection Hc as _ <-. }
  assert (Hw' : world s' = 0).
  { pose proof Hrun as Hc. vm_compute in Hc. by injection Hc as _ _ _ <-. }
  rewrite Hw1, Hw' in Hcall.
  exists emb, (out0, h), o. split; [exact Hcall|]. split; [exact Hun|exact Ho].
Defined.
